(** * supersetbot: the dependency-graph helpers

    A shallow embedding of the pure helpers of supersetbot that deal with
    pinned Python requirements:

    - [compareSemVer], [parsePinnedRequirementsTree] and
      [mergeParsedRequirementsTree] of [utils.js];
    - [allDescendantPackages] and [processPythonReqsDiffOutput] of the
      [Github] class of [github.js].

    Modelling conventions.

    - A JavaScript string is a [string]: a sequence of code units, here in
      the range U+0000..U+00FF.  The built-in string methods used by the
      code ([split], [trim], [toLowerCase], [startsWith], [includes],
      [replace], [slice], [match] with the one regular expression of the
      parser) are written out below for that range.
    - A JavaScript number is an IEEE-754 binary64 value; [Number(s)] is
      modelled exactly, rounding included, by integer arithmetic.
    - A plain object used as a dictionary is a [gmap string _] of its own
      properties.  A read under a key that is no own property goes on to
      [Object.prototype]: it finds one of the built-in functions,
      [Object.prototype] itself under [__proto__], or what the program has
      assigned there.  Such assignments outlive the call that makes them,
      so the functions that read or write through a dictionary take a
      [Realm], the record of them, and return the one they leave.  The
      order of [Object.keys] plays no role in the results stated here.
    - A thrown exception (or a rejected promise) is the [Throw] outcome of
      the [result] type. *)

From Stdlib Require Import ZArith Ascii String.
From stdpp Require Import gmap strings list fin_maps.

Local Open Scope string_scope.
Local Open Scope list_scope.

#[local] Set Warnings "-clear-no-such-hyp".

(** ** JavaScript strings *)

Module JSString.

Definition code (c : ascii) : N := N_of_ascii c.

Definition LF : ascii := ascii_of_N 10.

(** WhiteSpace and LineTerminator code points below U+0100: TAB, LF, VT,
    FF, CR, SP and NBSP. *)
Definition isWhiteSpace (c : ascii) : bool :=
  let n := code c in
  ((9 <=? n) && (n <=? 13))%N || (n =? 32)%N || (n =? 160)%N.

(** LineTerminator code points below U+0100: LF and CR.  The [.] of a
    regular expression matches every code unit but these. *)
Definition isLineTerminator (c : ascii) : bool :=
  let n := code c in (n =? 10)%N || (n =? 13)%N.

Definition isDigit (c : ascii) : bool :=
  let n := code c in ((48 <=? n) && (n <=? 57))%N.

(** [String.prototype.toLowerCase] on one code unit: A-Z and the
    Latin-1 capitals U+00C0..U+00DE (the multiplication sign U+00D7
    apart) move up by 32. *)
Definition toLowerChar (c : ascii) : ascii :=
  let n := code c in
  if ((65 <=? n) && (n <=? 90))%N
     || ((192 <=? n) && (n <=? 222) && negb (n =? 215))%N
  then ascii_of_N (n + 32) else c.

Fixpoint toLowerCase (s : string) : string :=
  match s with
  | EmptyString => EmptyString
  | String c r => String (toLowerChar c) (toLowerCase r)
  end.

Fixpoint trimStart (s : string) : string :=
  match s with
  | EmptyString => EmptyString
  | String c r => if isWhiteSpace c then trimStart r else s
  end.

Fixpoint trimEnd (s : string) : string :=
  match s with
  | EmptyString => EmptyString
  | String c r =>
      match trimEnd r with
      | EmptyString => if isWhiteSpace c then EmptyString else String c EmptyString
      | r' => String c r'
      end
  end.

Definition trim (s : string) : string := trimEnd (trimStart s).

Definition startsWith (s p : string) : bool := String.prefix p s.

Fixpoint includes (s p : string) : bool :=
  String.prefix p s
  || match s with
     | EmptyString => false
     | String _ r => includes r p
     end.

Fixpoint drop (n : nat) (s : string) : string :=
  match n, s with
  | S k, String _ r => drop k r
  | _, _ => s
  end.

(** [s.slice(n)] for a non-negative [n]. *)
Definition slice (n : nat) (s : string) : string := drop n s.

(** [s.replace(pat, rep)] for a string pattern: the first occurrence
    only ([rep] holding no [$] pattern). *)
Fixpoint replace (pat rep s : string) : string :=
  if String.prefix pat s then rep +:+ drop (String.length pat) s
  else match s with
       | EmptyString => EmptyString
       | String c r => String c (replace pat rep r)
       end.

(** [s.split(sep)] for a non-empty separator: occurrences are found from
    left to right and do not overlap.  [skip] counts the code units of
    the separator still to pass over; the head of the result is the piece
    being read. *)
Fixpoint split_go (sep : string) (skip : nat) (s : string) : list string :=
  match s with
  | EmptyString => [EmptyString]
  | String c r =>
      match skip with
      | S k => split_go sep k r
      | O =>
          if String.prefix sep s
          then EmptyString :: split_go sep (String.length sep - 1) r
          else match split_go sep 0 r with
               | h :: t => String c h :: t
               | [] => [String c EmptyString]
               end
      end
  end.

Definition split (sep s : string) : list string := split_go sep 0 s.

(** The last occurrence of [==] in [s], as the text before and after. *)
Fixpoint lastPin (s : string) : option (string * string) :=
  match s with
  | EmptyString => None
  | String c r =>
      match lastPin r with
      | Some (b, a) => Some (String c b, a)
      | None =>
          match s with
          | String "="%char (String "="%char a) => Some (EmptyString, a)
          | _ => None
          end
      end
  end.

(** The longest prefix free of line terminators. *)
Fixpoint dotRun (s : string) : string :=
  match s with
  | EmptyString => EmptyString
  | String c r => if isLineTerminator c then EmptyString else String c (dotRun r)
  end.

(** [s.match(re)] for the regular expression of the parser: anchored at
    the start, a greedy group of one or more [.], the text [==], a greedy
    group of zero or more [.]; the result is the two captured groups.
    The first group backtracks from the end of the first run of
    non-terminators, so the groups meet at the last [==] of that run that
    leaves the first group non-empty. *)
Definition matchPin (s : string) : option (string * string) :=
  match dotRun s with
  | EmptyString => None
  | String c r =>
      match lastPin r with
      | Some (b, a) => Some (String c b, a)
      | None => None
      end
  end.

End JSString.

Import JSString.

(** ** JavaScript values and exceptions *)

(** The values a [version], [before] or [after] property holds. *)
Inductive jsval : Type :=
  | Undefined
  | Null
  | Str (s : string).

Definition nonEmpty (s : string) : bool := negb (String.eqb s "").

(** ToBoolean: of the values above only a non-empty string is truthy. *)
Definition truthy (v : jsval) : bool :=
  match v with
  | Str s => nonEmpty s
  | _ => false
  end.

(** [a || b] *)
Definition jsOr (a b : jsval) : jsval := if truthy a then a else b.

Inductive JsError : Type := TypeError.

Inductive result (A : Type) : Type :=
  | Ok (a : A)
  | Throw (e : JsError).
Arguments Ok {A} a.
Arguments Throw {A} e.

#[export] Instance result_ret : MRet result := fun A a => Ok a.

#[export] Instance result_bind : MBind result := fun A B k r =>
  match r with
  | Ok a => k a
  | Throw e => Throw e
  end.

(** ** Plain objects used as dictionaries *)

(** The code keeps its trees and its table of changes in object literals.
    Such an object has [Object.prototype] as its prototype: reading
    [obj[key]] for a [key] that is no own property of [obj] finds what
    [Object.prototype] holds under [key].  That is one of its built-in
    functions, [Object.prototype] itself under [__proto__], or a value
    that an earlier assignment has put there; and the code makes such
    assignments, as [obj[key].version = v] writes on whatever [obj[key]]
    is. *)

(** The names of the functions on [Object.prototype]. *)
Definition builtinNames : list string :=
  ["constructor"; "hasOwnProperty"; "isPrototypeOf"; "propertyIsEnumerable";
   "toLocaleString"; "toString"; "valueOf"; "__defineGetter__";
   "__defineSetter__"; "__lookupGetter__"; "__lookupSetter__"].

(** The properties that the code assigns to: [version] in the parser,
    [before] and [after] in the diff. *)
Inductive Field : Type := Version | Before | After.

(** The value of these properties on one object; [None] is a property
    that the object does not have. *)
Record Props : Type := mkProps {
  versionP : option jsval;
  beforeP : option jsval;
  afterP : option jsval
}.

Definition noProps : Props :=
  {| versionP := None; beforeP := None; afterP := None |}.

Definition getProp (f : Field) (ps : Props) : option jsval :=
  match f with
  | Version => versionP ps
  | Before => beforeP ps
  | After => afterP ps
  end.

Definition setProp (f : Field) (v : jsval) (ps : Props) : Props :=
  match f with
  | Version => {| versionP := Some v; beforeP := beforeP ps; afterP := afterP ps |}
  | Before => {| versionP := versionP ps; beforeP := Some v; afterP := afterP ps |}
  | After => {| versionP := versionP ps; beforeP := beforeP ps; afterP := Some v |}
  end.

Definition fieldNamed (key : string) : option Field :=
  if String.eqb key "version" then Some Version
  else if String.eqb key "before" then Some Before
  else if String.eqb key "after" then Some After
  else None.

(** What the program has added so far to [Object.prototype] ([added]) and
    to the functions that [Object.prototype] holds ([onBuiltin], by the
    name of the function). *)
Record Realm : Type := mkRealm {
  added : Props;
  onBuiltin : gmap string Props
}.

(** The realm of a process in which nothing has been added. *)
Definition freshRealm : Realm := {| added := noProps; onBuiltin := ∅ |}.

(** What an object finds under a key that is no own property of it. *)
Inductive Inherited : Type :=
  | ThePrototype
  | Builtin (name : string)
  | Plain (v : jsval).

(** [Object.prototype.p] *)
Definition protoProp (realm : Realm) (f : Field) : jsval :=
  default Undefined (getProp f (added realm)).

(** The read through the prototype chain.  The accessor [__proto__]
    returns [Object.prototype]; [Plain Undefined] is a key under which
    nothing is found. *)
Definition inherited (realm : Realm) (key : string) : Inherited :=
  if String.eqb key "__proto__" then ThePrototype
  else if bool_decide (key ∈ builtinNames) then Builtin key
  else match fieldNamed key with
       | Some f => Plain (protoProp realm f)
       | None => Plain Undefined
       end.

(** [obj[key]]: the own property, or what is inherited. *)
Definition get {V : Type} (realm : Realm) (obj : gmap string V) (key : string)
  : V + Inherited :=
  match obj !! key with
  | Some v => inl v
  | None => inr (inherited realm key)
  end.

(** [x === undefined] *)
Definition isUndefined {V : Type} (x : V + Inherited) : bool :=
  match x with
  | inr (Plain Undefined) => true
  | _ => false
  end.

(** ToBoolean: objects and functions are truthy. *)
Definition isTruthy {V : Type} (x : V + Inherited) : bool :=
  match x with
  | inl _ => true
  | inr ThePrototype => true
  | inr (Builtin _) => true
  | inr (Plain v) => truthy v
  end.

(** [x.p] for an inherited [x] that is neither [undefined] nor [null]: a
    function holds what was assigned to it and inherits the rest, as
    [Object.prototype] itself and a string do, from [Object.prototype]. *)
Definition propOf (realm : Realm) (x : Inherited) (f : Field) : jsval :=
  match x with
  | Builtin name =>
      match getProp f (default noProps (onBuiltin realm !! name)) with
      | Some v => v
      | None => protoProp realm f
      end
  | _ => protoProp realm f
  end.

(** [x.p = v] for an inherited [x], in strict code (a module, a class
    body): the realm after the assignment.  A primitive takes no
    property: the assignment throws a [TypeError]. *)
Definition assignTo (realm : Realm) (x : Inherited) (f : Field) (v : jsval)
  : result Realm :=
  match x with
  | ThePrototype =>
      Ok {| added := setProp f v (added realm); onBuiltin := onBuiltin realm |}
  | Builtin name =>
      Ok {| added := added realm;
            onBuiltin := <[name := setProp f v (default noProps (onBuiltin realm !! name))]>
                           (onBuiltin realm) |}
  | Plain _ => Throw TypeError
  end.

(** ** The dependency tree *)

(** One entry of the tree.  [vias] and [deps] are arrays, or are missing
    (the trees given to [mergeParsedRequirementsTree] may leave them
    out). *)
Record Node : Type := mkNode {
  version : jsval;
  vias : option (list string);
  deps : option (list string)
}.

Definition setVersion (n : Node) (v : jsval) : Node :=
  {| version := v; vias := vias n; deps := deps n |}.

Definition setVias (n : Node) (l : list string) : Node :=
  {| version := version n; vias := Some l; deps := deps n |}.

Definition setDeps (n : Node) (l : list string) : Node :=
  {| version := version n; vias := vias n; deps := Some l |}.

(** [tree[key].deps.push(x)].  Only an entry of the tree has an array
    under [deps]: whatever else [tree[key]] is, an inherited function, a
    string or [undefined], the call throws. *)
Definition pushDeps (tree : gmap string Node) (key x : string)
  : result (gmap string Node) :=
  match tree !! key with
  | Some n =>
      match deps n with
      | Some l => Ok (<[key := setDeps n (l ++ [x])]> tree)
      | None => Throw TypeError
      end
  | None => Throw TypeError
  end.

(** [tree[key].vias.push(x)] *)
Definition pushVias (tree : gmap string Node) (key x : string)
  : result (gmap string Node) :=
  match tree !! key with
  | Some n =>
      match vias n with
      | Some l => Ok (<[key := setVias n (l ++ [x])]> tree)
      | None => Throw TypeError
      end
  | None => Throw TypeError
  end.

(** [if (tree[key] === undefined) tree[key] = { deps: [], version: null, vias: [] }] *)
Definition ensureNode (realm : Realm) (tree : gmap string Node) (key : string)
  : gmap string Node :=
  if isUndefined (get realm tree key)
  then <[key := {| version := Null; vias := Some []; deps := Some [] |}]> tree
  else tree.

(** *** parsePinnedRequirementsTree *)

(** The chain of [split], [filter] and [map] that yields [lines]. *)
Definition requirementLines (requirements : string) : list string :=
  List.filter nonEmpty
    (List.filter (fun line => negb (startsWith line "-e "))
      (List.filter (fun line => negb (startsWith line "# via -r "))
        (List.map (fun line => toLowerCase (trim line))
          (List.filter (fun line => negb (startsWith line "#"))
            (split (String LF "") requirements))))).

(** What is left of a line that is no pin: the first [# via] and then the
    first [#] are removed, with a [trim] after each. *)
Definition viaName (line : string) : string :=
  trim (replace "#" "" (trim (replace "# via" "" line))).

(** The state of the [forEach]: [depsObject] and [currentDep] ([None] is
    [null]). *)
Definition ParseState : Type := gmap string Node * option string.

(** The body of the [forEach], with the realm before and after.  When
    [depsObject[currentDep]] is not [undefined] the version is assigned to
    what is found there, which is an entry of the tree or an inherited
    member. *)
Definition parseLine (realm : Realm) (st : ParseState) (line : string)
  : result ParseState * Realm :=
  let '(depsObject, currentDep) := st in
  match matchPin line with
  | Some (g1, g2) =>
      let currentDep := trim g1 in
      let version := trim g2 in
      if nonEmpty currentDep && isUndefined (get realm depsObject currentDep)
      then
        (Ok (<[currentDep := {| version := Str version; vias := Some []; deps := Some [] |}]>
               depsObject, Some currentDep), realm)
      else if nonEmpty version
      then
        match get realm depsObject currentDep with
        | inl n => (Ok (<[currentDep := setVersion n (Str version)]> depsObject,
                        Some currentDep), realm)
        | inr x =>
            match assignTo realm x Version (Str version) with
            | Ok realm' => (Ok (depsObject, Some currentDep), realm')
            | Throw e => (Throw e, realm)
            end
        end
      else (Ok (depsObject, Some currentDep), realm)
  | None =>
      let viaLib := viaName line in
      (match currentDep with
       | Some cur =>
           if nonEmpty viaLib && nonEmpty cur
           then
             o1 ← pushDeps (ensureNode realm depsObject viaLib) viaLib cur;
             o2 ← pushVias (ensureNode realm o1 cur) cur viaLib;
             Ok (o2, currentDep)
           else Ok st
       | None => Ok st
       end, realm)
  end.

Fixpoint forEachLine (realm : Realm) (st : ParseState) (lines : list string)
  : result ParseState * Realm :=
  match lines with
  | [] => (Ok st, realm)
  | line :: rest =>
      match parseLine realm st line with
      | (Ok st', realm') => forEachLine realm' st' rest
      | (Throw e, realm') => (Throw e, realm')
      end
  end.

(** The function, run in [realm]: what it returns or throws, and the
    realm it leaves. *)
Definition parsePinnedRequirementsTree (realm : Realm) (requirements : string)
  : result (gmap string Node) * Realm :=
  match forEachLine realm (∅, None) (requirementLines requirements) with
  | (Ok st, realm') => (Ok (fst st), realm')
  | (Throw e, realm') => (Throw e, realm')
  end.

(** *** mergeParsedRequirementsTree *)

Definition Object_keys {V : Type} (o : gmap string V) : list string :=
  (map_to_list o).*1.

(** [set.add(x)] on the insertion-ordered content of a [Set]. *)
Definition setAdd (content : list string) (x : string) : list string :=
  if bool_decide (x ∈ content) then content else content ++ [x].

(** [[...new Set(l)]]: the elements of [l] in the order of their first
    occurrence. *)
Definition spreadSet (l : list string) : list string := foldl setAdd [] l.

(** [obj?.deps || []], [obj?.vias || []] and [obj?.version] for an [obj]
    that may be [undefined]. *)
Definition depsOr (o : option Node) : list string :=
  match o with
  | Some n => default [] (deps n)
  | None => []
  end.

Definition viasOr (o : option Node) : list string :=
  match o with
  | Some n => default [] (vias n)
  | None => []
  end.

Definition versionOpt (o : option Node) : jsval :=
  match o with
  | Some n => version n
  | None => Undefined
  end.

(** The object literal assigned to [merged[key]], in a realm to which
    nothing was added: what an object inherits has then no [deps], no
    [vias] and no [version], and reads as a missing entry does. *)
Definition mergedNode (obj1 obj2 : gmap string Node) (key : string) : Node :=
  {| deps := Some (spreadSet (depsOr (obj1 !! key) ++ depsOr (obj2 !! key)));
     vias := Some (spreadSet (viasOr (obj1 !! key) ++ viasOr (obj2 !! key)));
     version := jsOr (versionOpt (obj1 !! key)) (versionOpt (obj2 !! key)) |}.

Definition mergeParsedRequirementsTree (obj1 obj2 : gmap string Node)
  : gmap string Node :=
  let keys := spreadSet (Object_keys obj1 ++ Object_keys obj2) in
  foldl (fun merged key => <[key := mergedNode obj1 obj2 key]> merged) ∅ keys.

(** *** allDescendantPackages *)

(** The values that the iterator of a string yields: its code points,
    which in the range modelled here are its code units. *)
Fixpoint codePoints (s : string) : list string :=
  match s with
  | EmptyString => []
  | String c r => String c EmptyString :: codePoints r
  end.

(** The iterable of the [for...of]: [tree[parent] || []].  An entry of the
    tree is an object, hence truthy, and a plain object has no
    [Symbol.iterator]: iterating it throws a [TypeError].  So does
    iterating [Object.prototype] or one of its functions, found under a
    [parent] that is no key of the tree but the name of such a member. *)
Definition iterated (realm : Realm) (tree : gmap string Node) (parent : string)
  : result (list string) :=
  match get realm tree parent with
  | inl _ => Throw TypeError
  | inr ThePrototype => Throw TypeError
  | inr (Builtin _) => Throw TypeError
  | inr (Plain (Str s)) => if nonEmpty s then Ok (codePoints s) else Ok []
  | inr (Plain _) => Ok []
  end.

(** The method recurses on each child; [fuel] bounds the depth of the
    recursion and [None] stands for a run that needs more.  A rejected
    promise is [Some (Throw _)]. *)
Fixpoint allDescendantPackages (fuel : nat) (realm : Realm)
  (tree : gmap string Node) (parent : string) : option (result (list string)) :=
  match fuel with
  | O => None
  | S fuel' =>
      match iterated realm tree parent with
      | Throw e => Some (Throw e)
      | Ok children =>
          (fix loop (descendants children : list string) :=
             match children with
             | [] => Some (Ok (parent :: descendants))
             | child :: rest =>
                 match allDescendantPackages fuel' realm tree child with
                 | None => None
                 | Some (Throw e) => Some (Throw e)
                 | Some (Ok sub) => loop (spreadSet (descendants ++ sub)) rest
                 end
             end) [] children
      end
  end.

(** *** processPythonReqsDiffOutput *)

Record Change : Type := mkChange {
  before : jsval;
  after : jsval
}.

(** [result[lib].before = version], for a deletion, or
    [result[lib].after = version]: on the entry of [lib], or on the
    inherited member found under [lib]. *)
Definition writeChange (realm : Realm) (res : gmap string Change) (lib : string)
  (isDeletion : bool) (version : jsval) : result (gmap string Change) * Realm :=
  match get realm res lib with
  | inl c =>
      (Ok (<[lib := if isDeletion
                    then {| before := version; after := after c |}
                    else {| before := before c; after := version |}]> res), realm)
  | inr x =>
      match assignTo realm x (if isDeletion then Before else After) version with
      | Ok realm' => (Ok res, realm')
      | Throw e => (Throw e, realm)
      end
  end.

(** The body of the [forEach] over the lines of the diff. *)
Definition diffLine (realm : Realm) (res : gmap string Change) (line : string)
  : result (gmap string Change) * Realm :=
  if negb (includes line "==") then (Ok res, realm)
  else
    let isDeletion := startsWith line "-" in
    let isAddition := startsWith line "+" in
    if isDeletion || isAddition
    then
      match split "==" (slice 1 line) with
      | [] => (Throw TypeError, realm)
      | pythonPackage :: more =>
          let version := match more with
                         | v :: _ => Str v
                         | [] => Undefined
                         end in
          let lib := toLowerCase pythonPackage in
          let res1 := if isTruthy (get realm res lib) then res
                      else <[lib := {| before := Null; after := Null |}]> res in
          if isDeletion then writeChange realm res1 lib true version
          else if isAddition then writeChange realm res1 lib false version
          else (Ok res1, realm)
      end
    else (Ok res, realm).

Fixpoint diffLines (realm : Realm) (res : gmap string Change) (lines : list string)
  : result (gmap string Change) * Realm :=
  match lines with
  | [] => (Ok res, realm)
  | line :: rest =>
      match diffLine realm res line with
      | (Ok res', realm') => diffLines realm' res' rest
      | (Throw e, realm') => (Throw e, realm')
      end
  end.

(** The method, run in [realm]. *)
Definition processPythonReqsDiffOutput (realm : Realm) (rawOutput : string)
  : result (gmap string Change) * Realm :=
  diffLines realm ∅ (split (String LF "") rawOutput).

(** ** JavaScript numbers *)

Module JSNumber.

Local Open Scope Z_scope.

(** A binary64 value: not-a-number, an infinity, or the finite value
    [m * 2^t] (both zeros are [m = 0]; the relational operators do not
    tell them apart). *)
Inductive number : Type :=
  | NaN
  | PosInf
  | NegInf
  | Fin (m t : Z).

Definition neg (x : number) : number :=
  match x with
  | NaN => NaN
  | PosInf => NegInf
  | NegInf => PosInf
  | Fin m t => Fin (- m) t
  end.

(** The integer nearest to [n / d], a tie going to the even one
    ([0 <= n], [0 < d]). *)
Definition roundHalfEven (n d : Z) : Z :=
  let q := n / d in
  match 2 * (n mod d) ?= d with
  | Lt => q
  | Gt => q + 1
  | Eq => if Z.even q then q else q + 1
  end.

(** [2^e <= p / q] *)
Definition reaches (p q e : Z) : bool :=
  if 0 <=? e then q * 2 ^ e <=? p else q <=? p * 2 ^ (- e).

(** The integer part of the binary logarithm of [p / q] ([0 < p],
    [0 < q]). *)
Definition floorLog2 (p q : Z) : Z :=
  let e := Z.log2 p - Z.log2 q in
  if reaches p q e then e else e - 1.

(** The binary64 value nearest to the rational [p / q] ([0 <= p],
    [0 < q]), ties to even: 53 significant bits, the exponent of the last
    bit no lower than -1074, and overflow to infinity once the rounded
    value reaches [2^1024]. *)
Definition roundToDouble (p q : Z) : number :=
  if p =? 0 then Fin 0 0
  else
    let e := floorLog2 p q in
    let t := Z.max (e - 52) (-1074) in
    let m := if 0 <=? t then roundHalfEven p (q * 2 ^ t)
             else roundHalfEven (p * 2 ^ (- t)) q in
    if 2 ^ 1024 <=? m * 2 ^ t then PosInf else Fin m t.

(** [x < y] on numbers: false as soon as one side is NaN. *)
Definition ltb (x y : number) : bool :=
  match x, y with
  | NaN, _ | _, NaN => false
  | PosInf, _ => false
  | _, PosInf => true
  | _, NegInf => false
  | NegInf, _ => true
  | Fin m1 t1, Fin m2 t2 =>
      let t := Z.min t1 t2 in
      m1 * 2 ^ (t1 - t) <? m2 * 2 ^ (t2 - t)
  end.

(** The value of a digit in a base up to 16. *)
Definition digitValue (c : ascii) : option Z :=
  let n := Z.of_N (code c) in
  if (48 <=? n) && (n <=? 57) then Some (n - 48)
  else if (97 <=? n) && (n <=? 102) then Some (n - 87)
  else if (65 <=? n) && (n <=? 70) then Some (n - 55)
  else None.

Fixpoint digitsValue (base acc : Z) (s : string) : option Z :=
  match s with
  | EmptyString => Some acc
  | String c r =>
      match digitValue c with
      | Some d => if d <? base then digitsValue base (acc * base + d) r else None
      | None => None
      end
  end.

(** One or more digits of [base], and nothing else. *)
Definition digitsLiteral (base : Z) (s : string) : option Z :=
  match s with
  | EmptyString => None
  | _ => digitsValue base 0 s
  end.

(** The leading decimal digits of [s] and what follows them. *)
Fixpoint spanDigits (s : string) : string * string :=
  match s with
  | EmptyString => (EmptyString, EmptyString)
  | String c r =>
      if isDigit c
      then let '(d, rest) := spanDigits r in (String c d, rest)
      else (EmptyString, s)
  end.

(** ExponentPart, or nothing: [e] or [E], an optional sign, digits. *)
Definition exponentPart (s : string) : option Z :=
  match s with
  | EmptyString => Some 0
  | String c r =>
      if (Ascii.eqb c "e" || Ascii.eqb c "E")%bool
      then match r with
           | String "+"%char d => digitsLiteral 10 d
           | String "-"%char d => Z.opp <$> digitsLiteral 10 d
           | _ => digitsLiteral 10 r
           end
      else None
  end.

(** [mant * 10^e10] as a binary64 value. *)
Definition scaled (mant e10 : Z) : number :=
  if 0 <=? e10 then roundToDouble (mant * 10 ^ e10) 1
  else roundToDouble mant (10 ^ (- e10)).

(** StrUnsignedDecimalLiteral: [Infinity], or digits with an optional
    fraction and exponent, one digit at least before or after the dot. *)
Definition unsignedDecimal (s : string) : number :=
  if String.eqb s "Infinity" then PosInf
  else
    let '(ip, r1) := spanDigits s in
    let '(fp, r2) := match r1 with
                     | String "."%char r => spanDigits r
                     | _ => (EmptyString, r1)
                     end in
    if (String.eqb ip "" && String.eqb fp "")%bool then NaN
    else
      match exponentPart r2, digitsValue 10 0 (ip +:+ fp) with
      | Some e, Some mant => scaled mant (e - Z.of_nat (String.length fp))
      | _, _ => NaN
      end.

(** StrDecimalLiteral: an optional sign before the above. *)
Definition decimalLiteral (s : string) : number :=
  match s with
  | String "+"%char r => unsignedDecimal r
  | String "-"%char r => neg (unsignedDecimal r)
  | _ => unsignedDecimal s
  end.

(** The base and the digits of a NonDecimalIntegerLiteral. *)
Definition nonDecimal (s : string) : option (Z * string) :=
  match s with
  | String "0"%char (String c r) =>
      if (Ascii.eqb c "x" || Ascii.eqb c "X")%bool then Some (16, r)
      else if (Ascii.eqb c "o" || Ascii.eqb c "O")%bool then Some (8, r)
      else if (Ascii.eqb c "b" || Ascii.eqb c "B")%bool then Some (2, r)
      else None
  | _ => None
  end.

(** [Number(s)] for a string [s] (StringToNumber): white space around the
    literal is dropped, the empty text is 0, and a text that is no
    numeric literal is NaN. *)
Definition Number (s : string) : number :=
  let t := trim s in
  if String.eqb t "" then Fin 0 0
  else
    match nonDecimal t with
    | Some (base, digits) =>
        match digitsLiteral base digits with
        | Some n => roundToDouble n 1
        | None => NaN
        end
    | None => decimalLiteral t
    end.

(** ToNumber of an array element: an index out of range reads
    [undefined], which converts to NaN. *)
Definition toNumber (x : option number) : number := default NaN x.

(** [x > y] and [x < y] on array elements. *)
Definition gt (x y : option number) : bool := ltb (toNumber y) (toNumber x).
Definition lt (x y : option number) : bool := ltb (toNumber x) (toNumber y).

End JSNumber.

Import JSNumber.

(** *** compareSemVer *)

(** The [for] loop from index [i] on, with [remaining] iterations left. *)
Fixpoint compareFrom (splitA splitB : list number) (i remaining : nat) : Z :=
  match remaining with
  | O => 0
  | S k =>
      if gt (splitA !! i) (splitB !! i) then 1
      else if lt (splitA !! i) (splitB !! i) then (-1)
      else compareFrom splitA splitB (S i) k
  end.

Definition compareSemVer (a b : string) : Z :=
  let splitA := Number <$> split "." a in
  let splitB := Number <$> split "." b in
  compareFrom splitA splitB 0 3.

(** ** Properties stated by the specification *)

(** The elements of a list, each kept at its first occurrence. *)
Fixpoint firstOccurrences (l : list string) : list string :=
  match l with
  | [] => []
  | x :: r => x :: filter (fun y => y ≠ x) (firstOccurrences r)
  end.

(** The deduplicated union: the entries of [xs] first, in their order,
    then the entries of [ys] not already present. *)
Definition dedupUnion (xs ys : list string) : list string :=
  firstOccurrences xs ++ firstOccurrences (filter (fun y => y ∉ xs) ys).

(** Every entry of the tree holds its two arrays. *)
Definition wfTree (tree : gmap string Node) : Prop :=
  map_Forall (fun _ n => is_Some (deps n) ∧ is_Some (vias n)) tree.

(** Edges are recorded in both directions: [A] is in the [deps] of [B]
    exactly when [B] is in the [vias] of [A]. *)
Definition bidirectional (tree : gmap string Node) : Prop :=
  ∀ A B : string, A ∈ depsOr (tree !! B) ↔ B ∈ viasOr (tree !! A).

(** The same, as a check that runs over the entries of the tree. *)
Definition bidirectionalb (tree : gmap string Node) : bool :=
  forallb (fun '(B, n) =>
             forallb (fun A => bool_decide (B ∈ viasOr (tree !! A))) (depsOr (Some n)))
          (map_to_list tree)
  && forallb (fun '(A, n) =>
                forallb (fun B => bool_decide (A ∈ depsOr (tree !! B))) (viasOr (Some n)))
             (map_to_list tree).

(** The two kinds of changed line of a unified diff. *)
Inductive Marker : Type := Deletion | Addition.

#[export] Instance Marker_eq_dec : EqDecision Marker.
Proof. solve_decision. Defined.

Definition markerOf (c : ascii) : option Marker :=
  if Ascii.eqb c "-" then Some Deletion
  else if Ascii.eqb c "+" then Some Addition
  else None.

(** What a line of the diff says: nothing unless it contains [==] and
    begins with a marker; else the marker, the lowercased package name and
    the version, the two read off the [split] on [==] of the line without
    its marker. *)
Definition pinOf (line : string) : option (Marker * string * string) :=
  if includes line "==" then
    match line with
    | String c rest =>
        match markerOf c, split "==" rest with
        | Some m, pythonPackage :: version :: _ =>
            Some (m, toLowerCase pythonPackage, version)
        | _, _ => None
        end
    | EmptyString => None
    end
  else None.

(** The versions that the lines with marker [m] give for [lib], in the
    order of the lines. *)
Definition versionsOf (m : Marker) (lib : string) (lines : list string)
  : list string :=
  omap (fun line =>
          match pinOf line with
          | Some (m', lib', ver) =>
              if decide (m' = m ∧ lib' = lib) then Some ver else None
          | None => None
          end) lines.

(** The version of the last line with marker [m] for [lib], [null] when
    there is none. *)
Definition lastVersion (m : Marker) (lib : string) (lines : list string) : jsval :=
  from_option Str Null (last (versionsOf m lib lines)).

(** The entry of [lib] after the lines of a diff. *)
Definition changeOf (lib : string) (lines : list string) : option Change :=
  match versionsOf Deletion lib lines, versionsOf Addition lib lines with
  | [], [] => None
  | _, _ => Some {| before := lastVersion Deletion lib lines;
                    after := lastVersion Addition lib lines |}
  end.

(** The entry of a package after one more changed line. *)
Definition record (m : Marker) (ver : string) (e : option Change) : Change :=
  match m with
  | Deletion => {| before := Str ver; after := from_option after Null e |}
  | Addition => {| before := from_option before Null e; after := Str ver |}
  end.

(** An entry, if any, after the deletions [ds] and the additions [adds]
    that follow it. *)
Definition combine (e : option Change) (ds adds : list string) : option Change :=
  match e, ds, adds with
  | None, [], [] => None
  | _, _, _ =>
      Some {| before := from_option Str (from_option before Null e) (last ds);
              after := from_option Str (from_option after Null e) (last adds) |}
  end.

(** The text is made of decimal digits only. *)
Fixpoint allDigits (s : string) : bool :=
  match s with
  | EmptyString => true
  | String c r => isDigit c && allDigits r
  end.

(** The integer that a run of decimal digits denotes. *)
Fixpoint decimalValue (acc : Z) (s : string) : Z :=
  match s with
  | EmptyString => acc
  | String c r => decimalValue (acc * 10 + (Z.of_N (code c) - 48)) r
  end.

(** A component read as an integer: one or more decimal digits. *)
Definition integerOf (s : string) : option Z :=
  match s with
  | EmptyString => None
  | _ => if allDigits s then Some (decimalValue 0 s) else None
  end.

(** The first three dot-separated components of a version, as integers. *)
Definition tripleOf (v : string) : option (Z * Z * Z) :=
  match split "." v with
  | a :: b :: c :: _ =>
      match integerOf a, integerOf b, integerOf c with
      | Some x, Some y, Some z => Some (x, y, z)
      | _, _, _ => None
      end
  | _ => None
  end.

Definition signOf (c : comparison) : Z :=
  match c with
  | Lt => -1
  | Eq => 0
  | Gt => 1
  end.

(** Component-by-component integer comparison. *)
Definition compareTriples (x y : Z * Z * Z) : Z :=
  let '(x1, x2, x3) := x in
  let '(y1, y2, y3) := y in
  match (x1 ?= y1)%Z with
  | Eq => match (x2 ?= y2)%Z with
          | Eq => signOf (x3 ?= y3)%Z
          | c => signOf c
          end
  | c => signOf c
  end.

(** Every component is below [2^53], where binary64 still holds each
    integer exactly. *)
Definition safeTriple (x : Z * Z * Z) : Prop :=
  let '(x1, x2, x3) := x in (x1 < 2 ^ 53 ∧ x2 < 2 ^ 53 ∧ x3 < 2 ^ 53)%Z.

(** The number [x] is the integer [n], held exactly. *)
Definition holds (x : number) (n : Z) : Prop :=
  ∃ t : Z, (t <= 0)%Z ∧ x = Fin (n * 2 ^ (- t)) t.

(** An array element that is missing or is NaN. *)
Definition notANumber (x : option number) : Prop := toNumber x = NaN.

(** A line as the parser reads it: not empty, no white space in front. *)
Definition clean (line : string) : Prop :=
  ∃ c r, line = String c r ∧ isWhiteSpace c = false.

(** A key under which an object finds nothing but what it holds itself:
    not [__proto__], not the name of a function of [Object.prototype]. *)
Definition ownName (key : string) : Prop :=
  key ≠ "__proto__" ∧ key ∉ builtinNames.

(** What holds of the state between two lines: every entry has its arrays,
    edges go both ways, no key is empty or the name of an inherited
    member, and the current package, once set, is a non-empty name. *)
Definition ParseInv (st : ParseState) : Prop :=
  wfTree (fst st)
  ∧ bidirectional (fst st)
  ∧ (∀ key, is_Some (fst st !! key) → ownName key ∧ nonEmpty key = true)
  ∧ ∀ cur, snd st = Some cur → nonEmpty cur = true.

(** The package pinned by a line handed to the loop, if it is a pin. *)
Definition pinned (line : string) : option string :=
  match matchPin line with
  | Some (g1, _) => Some (trim g1)
  | None => None
  end.

(** The package that a line handed to the loop names: the one pinned, or
    the one after [# via]. *)
Definition namedBy (line : string) : string :=
  match matchPin line with
  | Some (g1, _) => trim g1
  | None => viaName line
  end.

(** No line of the text names an inherited member. *)
Definition ownNames (requirements : string) : Prop :=
  Forall (fun line => inherited freshRealm (namedBy line) = Plain Undefined)
    (requirementLines requirements).

(** The current package at the end of a text: the one pinned last. *)
Definition currentOf (requirements : string) : option string :=
  last (omap pinned (requirementLines requirements)).

(** A line of text that the parser keeps and reads as a via annotation:
    the package it names. *)
Definition viaOf (line : string) : option string :=
  match requirementLines line with
  | [l] =>
      match matchPin l with
      | None => if nonEmpty (viaName l) then Some (viaName l) else None
      | Some _ => None
      end
  | _ => None
  end.

(** The marker of a line that writes [before]. *)
Definition deletes (m : Marker) : bool :=
  match m with
  | Deletion => true
  | Addition => false
  end.

(** [if (!result[lib]) result[lib] = { before: null, after: null }] *)
Definition ensured (realm : Realm) (res : gmap string Change) (lib : string)
  : gmap string Change :=
  if isTruthy (get realm res lib) then res
  else <[lib := {| before := Null; after := Null |}]> res.

(** No changed line of the diff names [__proto__]. *)
Definition noProtoLine (lines : list string) : Prop :=
  Forall (fun line => ∀ m ver, pinOf line ≠ Some (m, "__proto__", ver)) lines.

(** No changed line of the diff names an inherited member. *)
Definition ownLines (lines : list string) : Prop :=
  Forall (fun line => ∀ m lib ver, pinOf line = Some (m, lib, ver) → ownName lib)
    lines.

(** At position [j] neither version is greater: the loop passes on. *)
Definition undecided (splitA splitB : list number) (j : nat) : Prop :=
  gt (splitA !! j) (splitB !! j) = false ∧ lt (splitA !! j) (splitB !! j) = false.

(** ** Sample inputs *)

Definition alembicText : string :=
  "alembic==1.13.1" +:+ String LF "    # via flask-migrate".

Definition alembicTree : gmap string Node :=
  <["flask-migrate" := {| version := Null; vias := Some []; deps := Some ["alembic"] |}]>
  (<["alembic" := {| version := Str "1.13.1"; vias := Some ["flask-migrate"];
                     deps := Some [] |}]> ∅).

Definition pinnedAlembic : gmap string Node :=
  {["alembic" := {| version := Str "1.13.1"; vias := Some []; deps := Some [] |}]}.

Definition asyncTree : gmap string Node :=
  <["flask-migrate" := {| version := Null; vias := Some []; deps := Some ["async-timeout"] |}]>
  (<["async-timeout" := {| version := Str "4.0.2"; vias := Some ["flask-migrate"];
                           deps := Some [] |}]> ∅).

(** A text given line by line. *)
Definition unlines (l : list string) : string := String.concat (String LF "") l.

Definition node (ver : jsval) (ds vs : list string) : Node :=
  {| version := ver; vias := Some vs; deps := Some ds |}.

(** A tree entry written with its [deps] only, as the tests of
    [mergeParsedRequirementsTree] do. *)
Definition depsOnly (ver : jsval) (ds : list string) : Node :=
  {| version := ver; vias := None; deps := Some ds |}.

Definition alembicDiff : string :=
  "-alembic==1.13.0" +:+ String LF "+alembic==1.13.1".

Definition treeX : gmap string Node :=
  {["a" := {| version := Str ""; vias := None; deps := Some ["x"] |}]}.

Definition treeXY : gmap string Node :=
  {["a" := {| version := Str "2.0"; vias := None; deps := Some ["x"; "y"] |}]}.

(** ** Further code of [utils.js], [github.js], [docker.js] and [index.js] *)

(** *** getLatestReleaseTag *)

(** One or more decimal digits at the start of [s]: the run, which is as
    long as it can be, and what follows it. *)
Definition digitRun (s : string) : option (string * string) :=
  match spanDigits s with
  | (EmptyString, _) => None
  | (d, r) => Some (d, r)
  end.

(** A dot at the start of [s]: what follows it. *)
Definition afterDot (s : string) : option string :=
  match s with
  | String "."%char r => Some r
  | _ => None
  end.

(** The three digit runs of a text of the shape digits, dot, digits, dot,
    digits and nothing more: the shape both regular expressions of
    [getLatestReleaseTag] ask for.  No run of digits can give back a code
    unit to what follows it, a dot or the end, so there is one way to
    match. *)
Definition semverParts (s : string) : option (string * string * string) :=
  '(d1, r1) ← digitRun s;
  s2 ← afterDot r1;
  '(d2, r2) ← digitRun s2;
  s3 ← afterDot r2;
  '(d3, r3) ← digitRun s3;
  if String.eqb r3 "" then Some (d1, d2, d3) else None.

(** [simpleSemverRegex.test(tag)] *)
Definition simpleSemverRegex (tag : string) : bool :=
  match semverParts tag with
  | Some _ => true
  | None => false
  end.

(** [dateLikeRegex.test(tag)]: the first run has exactly four digits. *)
Definition dateLikeRegex (tag : string) : bool :=
  match semverParts tag with
  | Some (d1, _, _) => Nat.eqb (String.length d1) 4
  | None => false
  end.

(** [Array.prototype.sort(cmp)].  The language leaves the order open when
    [cmp] is not consistent; when it is, the sort is stable and its result
    is the one below, an insertion from the left that puts an element
    behind all those that do not compare greater. *)
Fixpoint insertSorted (cmp : string → string → Z) (x : string)
  (l : list string) : list string :=
  match l with
  | [] => [x]
  | y :: r =>
      if (0 <? cmp y x)%Z then x :: y :: r else y :: insertSorted cmp x r
  end.

Definition sortWith (cmp : string → string → Z) (l : list string) : list string :=
  foldl (fun sorted x => insertSorted cmp x sorted) [] l.

(** The method, from the names of the tags that [getAllTags] returns;
    [None] is the [undefined] read at index 0 of an empty array. *)
Definition getLatestReleaseTag (tagNames : list string) : option string :=
  let validTags :=
    List.filter (fun tag => simpleSemverRegex tag && negb (dateLikeRegex tag))
      tagNames in
  head (reverse (sortWith compareSemVer validTags)).

(** An array element that is there and is a number. *)
Definition isNumber (x : option number) : bool :=
  match x with
  | Some NaN => false
  | Some _ => true
  | None => false
  end.

(** The first three components of a version all convert to numbers. *)
Definition numericVersion (v : string) : bool :=
  let l := Number <$> split "." v in
  isNumber (l !! 0%nat) && isNumber (l !! 1%nat) && isNumber (l !! 2%nat).

(** A list in which no element compares greater than a later one. *)
Fixpoint ascending (cmp : string → string → Z) (l : list string) : Prop :=
  match l with
  | [] => True
  | x :: r => Forall (fun y => (cmp x y <= 0)%Z) r ∧ ascending cmp r
  end.

(** *** shuffleArray *)

(** [[array[i], array[j]] = [array[j], array[i]]]: both elements are read,
    then both are written.  The loop only swaps at indices inside the
    array; outside it nothing is read and the array is left as it is. *)
Definition swapAt {A : Type} (array : list A) (i j : nat) : list A :=
  match array !! i, array !! j with
  | Some ai, Some aj => <[j := ai]> (<[i := aj]> array)
  | _, _ => array
  end.

(** The [for] loop from index [i] down to 1; [draw i] is the value of
    [Math.floor(Math.random() * (i + 1))] in the iteration at [i]. *)
Fixpoint shuffleFrom {A : Type} (draw : nat → nat) (i : nat) (array : list A)
  : list A :=
  match i with
  | O => array
  | S i' => shuffleFrom draw i' (swapAt array i (draw i))
  end.

Definition shuffleArray {A : Type} (draw : nat → nat) (originalArray : list A)
  : list A :=
  shuffleFrom draw (length originalArray - 1) originalArray.

(** *** Trees that merging leaves alone *)

(** Every entry holds its two arrays, and neither has a duplicate. *)
Definition normalTree (tree : gmap string Node) : Prop :=
  map_Forall (fun _ n =>
                ∃ ds vs, deps n = Some ds ∧ vias n = Some vs
                         ∧ NoDup ds ∧ NoDup vs) tree.

(** *** docker.js *)

Definition REPO : string := "apache/superset".

Definition isAlphaNum (c : ascii) : bool :=
  let n := code c in
  (((97 <=? n) && (n <=? 122)) || ((65 <=? n) && (n <=? 90))
   || ((48 <=? n) && (n <=? 57)))%N.

(** [s.replace(/[^a-zA-Z0-9]/g, '-')]: every code unit outside the class
    becomes a dash. *)
Fixpoint dashOthers (s : string) : string :=
  match s with
  | EmptyString => EmptyString
  | String c r => String (if isAlphaNum c then c else "-"%char) (dashOthers r)
  end.

(** [s.slice(0, n)] *)
Fixpoint sliceTo (n : nat) (s : string) : string :=
  match n, s with
  | S k, String c r => String c (sliceTo k r)
  | _, _ => EmptyString
  end.

(** The variables of [process.env] that [getBuildContextRef] reads; [None]
    is a variable that is not set. *)
Record Env : Type := mkEnv {
  GITHUB_EVENT_NAME : option string;
  GITHUB_REF : option string;
  GITHUB_HEAD_REF : option string
}.

(** [buildContext || process.env.GITHUB_EVENT_NAME] *)
Definition eventOf (env : Env) (buildContext : option string) : option string :=
  match buildContext with
  | Some s => if nonEmpty s then Some s else GITHUB_EVENT_NAME env
  | None => GITHUB_EVENT_NAME env
  end.

Definition getBuildContextRef (env : Env) (buildContext : option string) : string :=
  let event := eventOf env buildContext in
  let githubRef := default "" (GITHUB_REF env) in
  if bool_decide (event = Some "pull_request") then
    let githubHeadRef := default "" (GITHUB_HEAD_REF env) in
    sliceTo 40 (dashOthers githubHeadRef)
  else if bool_decide (event = Some "release") then
    sliceTo 40 (replace "refs/tags/" "" githubRef)
  else if bool_decide (event = Some "push") then
    sliceTo 40 (dashOthers (replace "refs/heads/" "" githubRef))
  else "".

(** [parts.filter((part) => part).join('-')] behind the name of the
    repository. *)
Definition makeDockerTag (parts : list string) : string :=
  REPO +:+ ":" +:+ String.concat "-" (List.filter nonEmpty parts).

(** The [tagChunks] of [getDockerTags]: the preset unless it is [lean],
    then the platform, when there is one only and it is not [amd]. *)
Definition tagChunksOf (preset : string) (platforms : list string) : list string :=
  let tagChunks := if bool_decide (preset = "lean") then [] else [preset] in
  match platforms with
  | [platform] =>
      let shortBuildPlatform := replace "64" "" (replace "linux/" "" platform) in
      if bool_decide (shortBuildPlatform = "amd") then tagChunks
      else tagChunks ++ [shortBuildPlatform]
  | _ => tagChunks
  end.

(** [isLatest]: both releases are there and non-empty, and the latest one
    does not compare lower than the one being built. *)
Definition isLatestOf (buildContext buildContextRef : string)
  (latestRelease : option string) : bool :=
  match latestRelease with
  | Some latest =>
      bool_decide (buildContext = "release")
      && nonEmpty buildContextRef && nonEmpty latest
      && (0 <=? compareSemVer latest buildContextRef)%Z
  | None => false
  end.

(** [getDockerTags], with string arguments and a [latestRelease] that may
    be [null]; the two [console.log] calls are left out.  The [Set] of
    tags is kept as its content in insertion order. *)
Definition getDockerTags (preset : string) (platforms : list string)
  (sha buildContext buildContextRef : string) (forceLatest : bool)
  (latestRelease : option string) : list string :=
  let isLatest := isLatestOf buildContext buildContextRef latestRelease in
  let tagChunks := tagChunksOf preset platforms in
  let tags := setAdd [] (makeDockerTag (sha :: tagChunks)) in
  let tags := setAdd tags (makeDockerTag (sliceTo 7 sha :: tagChunks)) in
  let tags :=
    if bool_decide (buildContext = "release")
    then setAdd tags (makeDockerTag (buildContextRef :: tagChunks))
    else if bool_decide (buildContext = "push")
            && bool_decide (buildContextRef = "master")
    then setAdd tags (makeDockerTag ("master" :: tagChunks))
    else if bool_decide (buildContext = "pull_request")
    then setAdd tags (makeDockerTag (("pr-" +:+ buildContextRef) :: tagChunks))
    else tags in
  if isLatest || forceLatest
  then setAdd tags (makeDockerTag ("latest" :: tagChunks))
  else tags.

(** Every code unit of [s] passes [p]. *)
Fixpoint allChars (p : ascii → bool) (s : string) : bool :=
  match s with
  | EmptyString => true
  | String c r => p c && allChars p r
  end.

Definition SHA : string := "22e7c602b9aa321ec7e0df4bb0033048664dcdf0".

(** *** createAllBumpPRs: the name of the package and the loop *)

(** The code units that end the name of a package in a dependency
    specifier: the class of the regular expression without its [^]. *)
Definition isNameEnd (c : ascii) : bool :=
  Ascii.eqb c ">" || Ascii.eqb c "=" || Ascii.eqb c "<" || Ascii.eqb c ";"
  || Ascii.eqb c "[" || isWhiteSpace c.

(** The longest prefix free of such code units. *)
Fixpoint nameRun (s : string) : string :=
  match s with
  | EmptyString => EmptyString
  | String c r => if isNameEnd c then EmptyString else String c (nameRun r)
  end.

(** [libRange.match(re)[0]], the regular expression asking at the start
    for one or more code units that end no name: [match] returns [null]
    when there is none, and reading index 0 of [null] throws. *)
Definition pythonPackageOf (libRange : string) : result string :=
  match nameRun libRange with
  | EmptyString => Throw TypeError
  | name => Ok name
  end.

(** What [createBumpLibPullRequest] comes back with: the url of a pull
    request, [null], or an exception. *)
Inductive BumpOutcome : Type :=
  | Created (url : string)
  | NoPullRequest
  | Failed.

(** [limit && prsCreated >= limit]; [None] is a [limit] of [null] or
    NaN. *)
Definition limitReached (limit : option Z) (prsCreated : Z) : bool :=
  match limit with
  | Some n => negb (n =? 0)%Z && (n <=? prsCreated)%Z
  | None => false
  end.

(** The [for...of] loop of [createAllBumpPRs] over [deps]: the packages
    processed and the final [prsCreated].  [create i name] is what the call
    of [createBumpLibPullRequest] in iteration [i] comes back with.  An
    exception of that call is caught and logged; one of the [match] is
    not. *)
Fixpoint bumpLoop (create : nat → string → BumpOutcome) (limit : option Z)
  (i : nat) (prsCreated : Z) (deps : list string) : result (list string * Z) :=
  match deps with
  | [] => Ok ([], prsCreated)
  | libRange :: rest =>
      pythonPackage ← pythonPackageOf libRange;
      let prsCreated :=
        match create i pythonPackage with
        | Created url => if nonEmpty url then (prsCreated + 1)%Z else prsCreated
        | NoPullRequest => prsCreated
        | Failed => prsCreated
        end in
      if limitReached limit prsCreated then Ok ([pythonPackage], prsCreated)
      else
        '(processed, n) ← bumpLoop create limit (S i) prsCreated rest;
        Ok (pythonPackage :: processed, n)
  end.

(** *** unPackRepo *)

(** [const [owner, repo] = this.context.repo.split('/')], as the pair of
    [owner] and [repo]; [None] is [undefined]. *)
Definition unPackRepo (repo : string) : option string * option string :=
  let parts := split "/" repo in
  (parts !! 0%nat, parts !! 1%nat).

(** *** runCommandFromGithubAction *)

(** A run that goes on with a value, or ends in [process.exit(code)]. *)
Inductive Run (A : Type) : Type :=
  | Goes (a : A)
  | Exits (code : Z).
Arguments Goes {A} a.
Arguments Exits {A} code.

(** The text handed to [context.parseArgs]: the first lines of
    [runCommandFromGithubAction]. *)
Definition commandLine (rawCommand : string) : Run string :=
  let cmd := trim rawCommand in
  let cmd := if startsWith cmd "\@" then replace "\@" "@" cmd else cmd in
  if negb (startsWith cmd "@supersetbot") then Exits 1
  else Goes (replace "@supersetbot" "supersetbot" cmd).

(** *** syncLabels *)

(** A call of the GitHub client made by [syncLabels], itself or through
    [checkIfUserInTeam]. *)
Inductive Request : Type :=
  | GetMembership (org team_slug : option string) (username : string)
  | ListLabels (issue_number : Z)
  | AddLabels (issue_number : Z) (labels : list string)
  | RemoveLabel (issue_number : Z) (name : string).

(** [prefixes.some((s) => label.startsWith(s))], the labels being
    strings.  The four prefixes of the source are emoji, beyond the code
    units modelled here, so the list is an argument. *)
Definition hasPrefix (prefixes : list string) (label : string) : bool :=
  existsb (fun s => startsWith label s) prefixes.

(** The three arrays that [syncLabels] computes. *)
Definition existingPrefixLabelsOf (prefixes targetLabels : list string)
  : list string :=
  List.filter (hasPrefix prefixes) targetLabels.

Definition labelsToAddOf (prefixes targetLabels labels : list string)
  : list string :=
  List.filter
    (fun label =>
       negb (bool_decide (label ∈ existingPrefixLabelsOf prefixes targetLabels)))
    labels.

Definition labelsToRemoveOf (prefixes targetLabels labels : list string)
  : list string :=
  List.filter (fun label => negb (bool_decide (label ∈ labels)))
    (existingPrefixLabelsOf prefixes targetLabels).

(** *** checkIfUserInTeam *)

(** The [Map] behind [#userInTeamCache].  Its keys are arrays, and a [Map]
    tells objects apart by identity: an entry is the identity of its key,
    the content of the key and the value.  [allocated] counts the arrays
    made so far and names the next one. *)
Record TeamCache : Type := mkTeamCache {
  allocated : nat;
  entries : list (nat * (string * string) * bool)
}.

(** [new Map()] *)
Definition newTeamCache : TeamCache := {| allocated := 0; entries := [] |}.

(** [map.get(key)] for the array of identity [key]. *)
Definition cacheGet (m : list (nat * (string * string) * bool)) (key : nat)
  : option bool :=
  snd <$> List.find (fun e => Nat.eqb (fst (fst e)) key) m.

(** One call: the cache after it, the answer, and whether the GitHub
    client was asked.  [state] is [resp?.data?.state] of its response.
    The array literal of the [get] and the one of the [set] are two new
    arrays. *)
Definition checkIfUserInTeam (cache : TeamCache) (username team : string)
  (state : option string) : TeamCache * bool * bool :=
  let getKey := allocated cache in
  match cacheGet (entries cache) getKey with
  | Some isInTeam =>
      ({| allocated := S (allocated cache); entries := entries cache |},
       isInTeam, false)
  | None =>
      let isInTeam := bool_decide (state = Some "active") in
      let setKey := S (allocated cache) in
      ({| allocated := S (S (allocated cache));
          entries := entries cache ++ [(setKey, (username, team), isInTeam)] |},
       isInTeam, true)
  end.

(** A series of calls: for each its answer and whether the client was
    asked. *)
Fixpoint checkAll (cache : TeamCache)
  (calls : list (string * string * option string)) : list (bool * bool) :=
  match calls with
  | [] => []
  | (username, team, state) :: rest =>
      let '(cache', isInTeam, asked) := checkIfUserInTeam cache username team state in
      (isInTeam, asked) :: checkAll cache' rest
  end.

(** Every key of the cache is an array made before now. *)
Definition cacheKeysOld (cache : TeamCache) : Prop :=
  Forall (fun e => fst (fst e) < allocated cache) (entries cache).

(** *** syncLabels, the method *)

(** The call of [getMembershipForUserInOrg] behind [checkIfUserInTeam]:
    [const [org, teamSlug] = team.split('/')]. *)
Definition membershipRequest (username team : string) : Request :=
  let parts := split "/" team in
  GetMembership (parts !! 0%nat) (parts !! 1%nat) username.

(** The calls that [syncLabels] makes, in their order, and the cache it
    leaves.  [team] is [COMMITTER_TEAM], a constant of [metadata.js];
    [state] is the state in the response to the membership call, when one
    is made; [listed] are the labels that [listLabelsOnIssue] returns,
    asked for when [existingLabels] is [null]. *)
Definition syncLabels (cache : TeamCache) (team : string)
  (prefixes labels : list string) (prId : Z) (actor : option string)
  (state : option string) (dryRun : bool)
  (existingLabels : option (list string)) (listed : list string)
  : list Request * TeamCache :=
  let '(cache', hasPerm, membership) :=
    match actor with
    | Some a =>
        if nonEmpty a
        then
          let '(cache', isInTeam, asked) := checkIfUserInTeam cache a team state in
          (cache', isInTeam, if asked then [membershipRequest a team] else [])
        else (cache, true, [])
    | None => (cache, true, [])
    end in
  if negb hasPerm then (membership, cache')
  else
    let listing := match existingLabels with
                   | Some _ => []
                   | None => [ListLabels prId]
                   end in
    let targetLabels := match existingLabels with
                        | Some l => l
                        | None => listed
                        end in
    let labelsToAdd := labelsToAddOf prefixes targetLabels labels in
    let labelsToRemove := labelsToRemoveOf prefixes targetLabels labels in
    (membership ++ listing
     ++ (if (0 <? length labelsToAdd)%nat && negb dryRun
         then [AddLabels prId labelsToAdd] else [])
     ++ (if (0 <? length labelsToRemove)%nat && negb dryRun
         then RemoveLabel prId <$> labelsToRemove else []),
     cache').

(** A request that changes the labels of an issue. *)
Definition changesLabels (r : Request) : bool :=
  match r with
  | AddLabels _ _ => true
  | RemoveLabel _ _ => true
  | _ => false
  end.

(** *** createBumpLibPullRequest: changes and the tree of the message *)

(** [a === b] *)
Definition strictEq (a b : jsval) : bool :=
  match a, b with
  | Undefined, Undefined => true
  | Null, Null => true
  | Str x, Str y => String.eqb x y
  | _, _ => false
  end.

(** The default [null] of a destructured property that is [undefined]. *)
Definition orNull (v : jsval) : jsval :=
  match v with
  | Undefined => Null
  | _ => v
  end.

(** [const { before = null, after = null } = libsBeforeAfter[lib] || {}]:
    the two properties are read from the entry of [lib], from the
    inherited member found under [lib], or from an empty object, which
    has what [Object.prototype] has. *)
Definition beforeAfter (realm : Realm) (libsBeforeAfter : gmap string Change)
  (lib : string) : jsval * jsval :=
  match get realm libsBeforeAfter lib with
  | inl c => (orNull (before c), orNull (after c))
  | inr x =>
      let read f := if isTruthy (@inr Change _ x) then propOf realm x f
                    else protoProp realm f in
      (orNull (read Before), orNull (read After))
  end.

(** The loop that sets [hasChanges]. *)
Definition hasChanges (realm : Realm) (libsBeforeAfter : gmap string Change)
  (pythonPackages : list string) : bool :=
  existsb (fun lib => let '(b, a) := beforeAfter realm libsBeforeAfter lib in
                      negb (strictEq b a)) pythonPackages.

(** ['  '.repeat(level)] *)
Fixpoint indent (level : nat) : string :=
  match level with
  | O => EmptyString
  | S k => "  " +:+ indent k
  end.

(** [vias.forEach((child) => visit(child))], [visit] threading the text
    built so far. *)
Fixpoint forEachChild (visit : string → string → option (result string))
  (depTree : string) (children : list string) : option (result string) :=
  match children with
  | [] => Some (Ok depTree)
  | child :: rest =>
      match visit depTree child with
      | None => None
      | Some (Throw e) => Some (Throw e)
      | Some (Ok depTree') => forEachChild visit depTree' rest
      end
  end.

(** [recurseVias], with [depTree] the variable it appends to and returns;
    [fuel] bounds the depth and [None] is a run that needs more. *)
Fixpoint recurseVias (fuel : nat) (tree : gmap string Node) (depTree : string)
  (library : string) (level : nat) : option (result string) :=
  match fuel with
  | O => None
  | S fuel' =>
      let depTree := depTree +:+ (indent level +:+ library) +:+ String LF "" in
      match tree !! library with
      | None => Some (Throw TypeError)
      | Some n =>
          match vias n with
          | None => Some (Throw TypeError)
          | Some children =>
              forEachChild
                (fun d child => recurseVias fuel' tree d child (S level))
                depTree children
          end
      end
  end.

(** *** fixReqsFile *)

Definition needsFix (line : string) : bool :=
  startsWith line "-e file:" && negb (startsWith line "-e file:.").

(** What [fixReqsFile] writes for a file of the given content, [None]
    when it writes nothing. *)
Definition fixReqsFile (content : string) : option string :=
  let lines := split (String LF "") content in
  let needsUpdate := existsb needsFix lines in
  let updatedLines :=
    List.map (fun line => if needsFix line then "-e file:." else line) lines in
  if needsUpdate then Some (String.concat (String LF "") updatedLines) else None.

(** *** getSubPackageTree *)

Definition reqsFiles : list string :=
  ["requirements/base.txt"; "requirements/development.txt"].

(** How a call of [getSubPackageTree] ends: with a value, with the
    rejection of a read, or with an exception of the parser. *)
Inductive Fetched (A : Type) : Type :=
  | Fetch (a : A)
  | ReadRejected (file : string)
  | ParserThrew (e : JsError).
Arguments Fetch {A} a.
Arguments ReadRejected {A} file.
Arguments ParserThrew {A} e.

(** [obj[key]?.version] in a realm: an entry holds its [version] (those
    of the parser and of a merge always have the property); an inherited
    member has the one assigned to it or to [Object.prototype]. *)
Definition versionIn (realm : Realm) (obj : gmap string Node) (key : string)
  : jsval :=
  match get realm obj key with
  | inl n => version n
  | inr (Plain Undefined) => Undefined
  | inr (Plain Null) => Undefined
  | inr x => propOf realm x Version
  end.

(** [mergeParsedRequirementsTree] called in a realm to which the parser
    has added: the arrays are merged as before, since no inherited member
    has [deps] or [vias]; the version is read through the realm. *)
Definition mergedNodeIn (realm : Realm) (obj1 obj2 : gmap string Node)
  (key : string) : Node :=
  {| deps := deps (mergedNode obj1 obj2 key);
     vias := vias (mergedNode obj1 obj2 key);
     version := jsOr (versionIn realm obj1 key) (versionIn realm obj2 key) |}.

Definition mergeIn (realm : Realm) (obj1 obj2 : gmap string Node)
  : gmap string Node :=
  let keys := spreadSet (Object_keys obj1 ++ Object_keys obj2) in
  foldl (fun merged key => <[key := mergedNodeIn realm obj1 obj2 key]> merged) ∅ keys.

(** The [for...of] loop over the files; [readFile] is the read of one of
    them under the working directory, [None] when it is rejected.  The
    realm that one call of the parser leaves is the one the merge and the
    next call run in. *)
Fixpoint mergeFiles (realm : Realm) (readFile : string → option string)
  (onlyBase : bool) (subPackages : gmap string Node) (files : list string)
  : Fetched (gmap string Node) * Realm :=
  match files with
  | [] => (Fetch subPackages, realm)
  | reqsFile :: rest =>
      if onlyBase && negb (String.eqb reqsFile "requirements/base.txt")
      then mergeFiles realm readFile onlyBase subPackages rest
      else
        match readFile reqsFile with
        | None => (ReadRejected reqsFile, realm)
        | Some reqsData =>
            match parsePinnedRequirementsTree realm reqsData with
            | (Throw e, realm') => (ParserThrew e, realm')
            | (Ok pinnedReqs, realm') =>
                mergeFiles realm' readFile onlyBase
                  (mergeIn realm' subPackages pinnedReqs) rest
            end
        end
  end.

(** The method: the tree and the new [#packageTree]. *)
Definition getSubPackageTree (realm : Realm)
  (packageTree : option (gmap string Node))
  (readFile : string → option string) (onlyBase : bool)
  : Fetched (gmap string Node * option (gmap string Node)) * Realm :=
  match packageTree with
  | Some tree => (Fetch (tree, packageTree), realm)
  | None =>
      match mergeFiles realm readFile onlyBase ∅ reqsFiles with
      | (Fetch subPackages, realm') => (Fetch (subPackages, Some subPackages), realm')
      | (ReadRejected file, realm') => (ReadRejected file, realm')
      | (ParserThrew e, realm') => (ParserThrew e, realm')
      end
  end.

(** No line of a file names an inherited member. *)
Definition ownFiles (readFile : string → option string) : Prop :=
  ∀ file, file ∈ reqsFiles → ∃ data, readFile file = Some data ∧ ownNames data.

(** *** Sample texts for the tree of the message *)

(** Two packages that each name the other as the one that requires
    them. *)
Definition cyclicText : string :=
  unlines ["a==1"; "    # via b"; "b==2"; "    # via a"].

Definition cyclicTree : gmap string Node :=
  {[ "a" := node (Str "1") ["b"] ["b"]; "b" := node (Str "2") ["a"] ["a"] ]}.

(** A pin with an extra, as pip-compile writes it. *)
Definition extraText : string := "uvicorn[standard]==0.23.2".

(** * Proofs *)

(** ** Strings *)

Section Strings.

Implicit Types (s sep line : string) (c : ascii).

Lemma split_go_cons sep skip s : ∃ h t, split_go sep skip s = h :: t.
Proof.
  revert skip. induction s as [|c r IH]; intros skip; cbn [split_go]; [by eauto|].
  destruct skip as [|k]; [|apply IH].
  destruct (String.prefix sep (String c r)); [by eauto|].
  destruct (IH 0%nat) as (h & t & ->). by eauto.
Qed.

(** A separator that occurs cuts the text in two pieces at least. *)
Lemma split_includes sep s :
  String.prefix sep "" = false →
  includes s sep = true →
  ∃ a b t, split sep s = a :: b :: t.
Proof.
  intros Hsep. unfold split. induction s as [|c r IH]; cbn [split_go includes].
  - rewrite Hsep. done.
  - destruct (String.prefix sep (String c r)) eqn:Hp; cbn [orb].
    + intros _. destruct (split_go_cons sep (String.length sep - 1) r)
        as (h & t & ->). by eauto.
    + intros Hr. destruct (IH Hr) as (a & b & t & ->). by eauto.
Qed.

Lemma startsWith_char c d r :
  startsWith (String c r) (String d "") = Ascii.eqb c d.
Proof.
  unfold startsWith. simpl.
  destruct (ascii_dec d c) as [->|Hne].
  - rewrite Ascii.eqb_refl. by destruct r.
  - symmetry. apply Ascii.eqb_neq. congruence.
Qed.

End Strings.

(** ** The regular expression of the parser *)

Section Pin.

Implicit Types (s r b a g h : string) (c : ascii).

Lemma append_cons c b s : String c b +:+ s = String c (b +:+ s).
Proof. reflexivity. Qed.

Lemma lastPin_None r :
  lastPin r = None → ∀ b a, r ≠ b +:+ "==" +:+ a.
Proof.
  induction r as [|c r IH]; intros H b a Hr.
  - by destruct b.
  - cbn [lastPin] in H.
    destruct (lastPin r) as [[b0 a0]|] eqn:Hlast; [done|].
    destruct b as [|c' b].
    + change ("" +:+ "==" +:+ a) with (String "=" (String "=" a)) in Hr.
      injection Hr as -> ->. done.
    + rewrite append_cons in Hr. injection Hr as _ Hr.
      by apply (IH eq_refl b a).
Qed.

Lemma lastPin_Some r b a :
  lastPin r = Some (b, a) →
  r = b +:+ "==" +:+ a
  ∧ ∀ b' a', r = b' +:+ "==" +:+ a' →
      (String.length b' ≤ String.length b)%nat.
Proof.
  revert b. induction r as [|c r IH]; intros b H; [done|].
  cbn [lastPin] in H.
  destruct (lastPin r) as [[b0 a0]|] eqn:Hlast.
  - injection H as <- <-. destruct (IH b0 eq_refl) as [-> Hmax].
    split; [done|]. intros b' a' Hr. destruct b' as [|c' b'].
    + cbn [String.length]. lia.
    + rewrite !append_cons in Hr. injection Hr as _ Hr.
      cbn [String.length]. specialize (Hmax b' a' Hr). lia.
  - assert (∃ a1, String c r = String "=" (String "=" a1) ∧ b = "" ∧ a = a1)
      as (a1 & Hr & -> & ->).
    { destruct c as [[] [] [] [] [] [] [] []]; try done.
      destruct r as [|c2 r2]; [done|].
      destruct c2 as [[] [] [] [] [] [] [] []]; try done.
      injection H as <- <-. by eexists. }
    split; [done|]. intros b' a' Hdec. destruct b' as [|c' b']; [done|].
    rewrite append_cons in Hdec. injection Hdec as _ Hdec.
    by destruct (lastPin_None r Hlast b' a').
Qed.

(** The match cuts the first run of non-terminators at a [==] that
    leaves a non-empty first group, and at the last such one. *)
Lemma matchPin_Some s g1 g2 :
  matchPin s = Some (g1, g2) →
  dotRun s = g1 +:+ "==" +:+ g2
  ∧ g1 ≠ ""
  ∧ ∀ h1 h2, h1 ≠ "" → dotRun s = h1 +:+ "==" +:+ h2 →
      (String.length h1 ≤ String.length g1)%nat.
Proof.
  unfold matchPin. destruct (dotRun s) as [|c r]; [done|].
  destruct (lastPin r) as [[b a]|] eqn:Hlast; [|done].
  intros [= <- <-]. destruct (lastPin_Some r b a Hlast) as [-> Hmax].
  split; [done|]. split; [done|].
  intros h1 h2 Hne Hdec. destruct h1 as [|c' h1]; [done|].
  rewrite !append_cons in Hdec. injection Hdec as _ Hdec.
  cbn [String.length]. specialize (Hmax h1 h2 Hdec). lia.
Qed.

(** No match: the run cannot be cut in that way. *)
Lemma matchPin_None s :
  matchPin s = None →
  ∀ h1 h2, h1 ≠ "" → dotRun s ≠ h1 +:+ "==" +:+ h2.
Proof.
  unfold matchPin. intros H h1 h2 Hne Hdec.
  destruct h1 as [|c' h1]; [done|].
  rewrite Hdec, append_cons in H.
  destruct (lastPin (h1 +:+ "==" +:+ h2)) as [[b a]|] eqn:Hlast; [done|].
  by destruct (lastPin_None _ Hlast h1 h2).
Qed.

End Pin.

(** ** Sets in insertion order *)

Section FirstOccurrences.

Implicit Types (l xs ys : list string) (x y : string).

Lemma elem_of_firstOccurrences l x : x ∈ firstOccurrences l ↔ x ∈ l.
Proof.
  induction l as [|a r IH]; simpl; [done|].
  rewrite !elem_of_cons, list_elem_of_filter, IH.
  destruct (decide (x = a)); naive_solver.
Qed.

Lemma NoDup_firstOccurrences l : NoDup (firstOccurrences l).
Proof.
  induction l as [|a r IH]; simpl; [constructor|].
  apply NoDup_cons. split.
  - rewrite list_elem_of_filter. naive_solver.
  - by apply NoDup_filter.
Qed.

Lemma filter_all (P : string → Prop) `{!∀ x, Decision (P x)} l :
  (∀ x, x ∈ l → P x) → filter P l = l.
Proof.
  induction l as [|a r IH]; intros HP; [done|].
  rewrite filter_cons_True by (apply HP; left).
  rewrite IH; [done|]. intros x Hx. apply HP. by right.
Qed.

Lemma filter_ne_id l x : x ∉ l → filter (fun y => y ≠ x) l = l.
Proof. intros Hx. apply filter_all. intros y Hy ->. done. Qed.

Lemma firstOccurrences_NoDup l : NoDup l → firstOccurrences l = l.
Proof.
  induction 1 as [|a r Ha _ IH]; simpl; [done|].
  rewrite IH. by rewrite filter_ne_id.
Qed.

Lemma firstOccurrences_filter (P : string → Prop) `{!∀ x, Decision (P x)} l :
  firstOccurrences (filter P l) = filter P (firstOccurrences l).
Proof.
  induction l as [|a r IH]; [done|].
  destruct (decide (P a)) as [Ha|Ha].
  - rewrite filter_cons_True by done. simpl.
    rewrite filter_cons_True by done. rewrite IH.
    rewrite !list_filter_filter. f_equal.
    apply list_filter_iff. naive_solver.
  - rewrite filter_cons_False by done. simpl.
    rewrite filter_cons_False by done. rewrite IH.
    rewrite list_filter_filter.
    apply list_filter_iff. intros z. split; [|naive_solver].
    intros Hz. split; [done|]. by intros ->.
Qed.

Lemma firstOccurrences_app xs ys :
  firstOccurrences (xs ++ ys) = dedupUnion xs ys.
Proof.
  unfold dedupUnion. induction xs as [|a r IH]; simpl.
  - f_equal. symmetry. apply filter_all. intros x _. apply not_elem_of_nil.
  - f_equal. rewrite IH, filter_app. f_equal.
    rewrite <- firstOccurrences_filter, list_filter_filter. f_equal.
    apply list_filter_iff. intros z. rewrite not_elem_of_cons. naive_solver.
Qed.

(** The content of a [Set] filled from [l], starting from [content]. *)
Lemma foldl_setAdd l content :
  foldl setAdd content l
  = content ++ firstOccurrences (filter (fun y => y ∉ content) l).
Proof.
  revert content. induction l as [|a r IH]; intros content; simpl.
  - by rewrite app_nil_r.
  - unfold setAdd at 2. case_bool_decide as Ha.
    + rewrite IH. by rewrite filter_cons_False by naive_solver.
    + rewrite IH. rewrite filter_cons_True by done. simpl.
      rewrite <- app_assoc. simpl. do 2 f_equal.
      rewrite <- firstOccurrences_filter, list_filter_filter. f_equal.
      apply list_filter_iff. intros z.
      rewrite not_elem_of_app, list_elem_of_singleton. naive_solver.
Qed.

Lemma spreadSet_firstOccurrences l : spreadSet l = firstOccurrences l.
Proof.
  unfold spreadSet. rewrite foldl_setAdd. simpl. f_equal.
  apply filter_all. intros x _. apply not_elem_of_nil.
Qed.

Lemma spreadSet_app xs ys : spreadSet (xs ++ ys) = dedupUnion xs ys.
Proof. by rewrite spreadSet_firstOccurrences, firstOccurrences_app. Qed.

Lemma elem_of_spreadSet l x : x ∈ spreadSet l ↔ x ∈ l.
Proof. by rewrite spreadSet_firstOccurrences, elem_of_firstOccurrences. Qed.

Lemma NoDup_spreadSet l : NoDup (spreadSet l).
Proof. rewrite spreadSet_firstOccurrences. apply NoDup_firstOccurrences. Qed.

Lemma elem_of_dedupUnion xs ys x : x ∈ dedupUnion xs ys ↔ x ∈ xs ∨ x ∈ ys.
Proof. by rewrite <- firstOccurrences_app, elem_of_firstOccurrences, elem_of_app. Qed.

Lemma NoDup_dedupUnion xs ys : NoDup (dedupUnion xs ys).
Proof. rewrite <- firstOccurrences_app. apply NoDup_firstOccurrences. Qed.

End FirstOccurrences.

(** ** mergeParsedRequirementsTree *)

Section Merge.

Implicit Types (tree : gmap string Node) (key : string).

Lemma elem_of_Object_keys {V : Type} (o : gmap string V) key :
  key ∈ Object_keys o ↔ is_Some (o !! key).
Proof.
  unfold Object_keys. rewrite list_elem_of_fmap. split.
  - intros [[k v] [-> Hkv]]. apply elem_of_map_to_list in Hkv. by exists v.
  - intros [v Hv]. exists (key, v). split; [done|]. by apply elem_of_map_to_list.
Qed.

Lemma lookup_foldl_insert (f : string → Node) (keys : list string) tree key :
  foldl (fun merged k => <[k := f k]> merged) tree keys !! key
  = if decide (key ∈ keys) then Some (f key) else tree !! key.
Proof.
  revert tree. induction keys as [|k r IH]; intros tree.
  - case_decide as H; [by apply not_elem_of_nil in H|done].
  - change (foldl ?f tree (k :: r)) with (foldl f (f tree k) r).
    rewrite IH.
    destruct (decide (key ∈ r)) as [Hr|Hr].
    + rewrite decide_True; [done|by right].
    + destruct (decide (key = k)) as [->|Hne].
      * rewrite lookup_insert_eq. rewrite decide_True; [done|by left].
      * rewrite lookup_insert_ne by done.
        rewrite decide_False; [done|].
        rewrite elem_of_cons. naive_solver.
Qed.

Lemma lookup_merge (obj1 obj2 : gmap string Node) key :
  mergeParsedRequirementsTree obj1 obj2 !! key
  = if decide (is_Some (obj1 !! key) ∨ is_Some (obj2 !! key))
    then Some (mergedNode obj1 obj2 key) else None.
Proof.
  unfold mergeParsedRequirementsTree.
  rewrite (lookup_foldl_insert (mergedNode obj1 obj2)), lookup_empty.
  apply decide_ext.
  by rewrite elem_of_spreadSet, elem_of_app, !elem_of_Object_keys.
Qed.

Lemma dom_merge (obj1 obj2 : gmap string Node) :
  dom (mergeParsedRequirementsTree obj1 obj2) = dom obj1 ∪ dom obj2.
Proof.
  apply set_eq. intros key.
  rewrite elem_of_union, !elem_of_dom, lookup_merge.
  case_decide as H; [|split; [by intros []|done]].
  split; [done|by eexists].
Qed.

Lemma depsOr_merge (obj1 obj2 : gmap string Node) key :
  depsOr (mergeParsedRequirementsTree obj1 obj2 !! key)
  = dedupUnion (depsOr (obj1 !! key)) (depsOr (obj2 !! key)).
Proof.
  rewrite lookup_merge. case_decide as H; simpl.
  - apply spreadSet_app.
  - destruct (obj1 !! key) eqn:H1; [destruct H; left; by eexists|].
    destruct (obj2 !! key) eqn:H2; [destruct H; right; by eexists|].
    done.
Qed.

Lemma viasOr_merge (obj1 obj2 : gmap string Node) key :
  viasOr (mergeParsedRequirementsTree obj1 obj2 !! key)
  = dedupUnion (viasOr (obj1 !! key)) (viasOr (obj2 !! key)).
Proof.
  rewrite lookup_merge. case_decide as H; simpl.
  - apply spreadSet_app.
  - destruct (obj1 !! key) eqn:H1; [destruct H; left; by eexists|].
    destruct (obj2 !! key) eqn:H2; [destruct H; right; by eexists|].
    done.
Qed.

End Merge.



(** ** Pieces of a text *)

Section Pieces.

Implicit Types (s p r a b : string) (c d : ascii).

Lemma prefix_append p r : String.prefix p (p +:+ r) = true.
Proof.
  induction p as [|c p IH].
  - change ("" +:+ r) with r. by destruct r.
  - rewrite append_cons. cbn [String.prefix].
    by destruct (ascii_dec c c).
Qed.

Lemma prefix_inv p s : String.prefix p s = true → ∃ r, s = p +:+ r.
Proof.
  revert s. induction p as [|c p IH]; intros s H.
  - by exists s.
  - destruct s as [|d s]; [done|]. cbn [String.prefix] in H.
    destruct (ascii_dec c d) as [->|]; [|done].
    destruct (IH s H) as [r ->]. by exists r.
Qed.

Lemma drop_append p r : drop (String.length p) (p +:+ r) = r.
Proof.
  induction p as [|c p IH].
  - change ("" +:+ r) with r. by destruct r.
  - rewrite append_cons. cbn [String.length drop]. exact IH.
Qed.

(** Replacing a pattern that starts the text. *)
Lemma replace_prefix p rep r : replace p rep (p +:+ r) = rep +:+ r.
Proof.
  destruct (p +:+ r) as [|c s] eqn:Hs.
  - cbn [replace]. rewrite <- Hs, prefix_append, drop_append. done.
  - cbn [replace]. rewrite <- Hs, prefix_append, drop_append. done.
Qed.

Lemma split_char_app d a b :
  split (String d "") (a +:+ String d b)
  = split (String d "") a ++ split (String d "") b.
Proof.
  unfold split. induction a as [|ch a IH].
  - change ("" +:+ String d b) with (String d b). cbn [split_go String.prefix].
    destruct (ascii_dec d d); [|done]. by destruct b.
  - rewrite append_cons. cbn [split_go].
    destruct (ascii_dec d ch) as [<-|Hne].
    + assert (∀ r, String.prefix (String d "") (String d r) = true) as Hp.
      { intros r. cbn [String.prefix].
        destruct (ascii_dec d d); [by destruct r|done]. }
      rewrite !Hp. change (String.length (String d "") - 1) with 0.
      by rewrite IH.
    + assert (∀ r, String.prefix (String d "") (String ch r) = false) as Hp.
      { intros r. cbn [String.prefix]. by destruct (ascii_dec d ch). }
      rewrite !Hp, IH.
      by destruct (split_go_cons (String d "") 0 a) as (h & t & ->).
Qed.

(** A text without the separator is one piece. *)
Lemma split_char_none d s :
  includes s (String d "") = false → split (String d "") s = [s].
Proof.
  unfold split. induction s as [|c s IH]; [done|].
  cbn [includes split_go]. intros [Hp Hs]%orb_false_iff.
  rewrite Hp. by rewrite (IH Hs).
Qed.

End Pieces.

Section LinesOfText.

Implicit Types (a b c s : string).

Lemma split_LF_app a b :
  split (String LF "") (a +:+ String LF b)
  = split (String LF "") a ++ split (String LF "") b.
Proof.
  unfold split. induction a as [|ch a IH].
  - change ("" +:+ String LF b) with (String LF b). by destruct b.
  - rewrite append_cons. cbn [split_go].
    destruct (ascii_dec LF ch) as [<-|Hne].
    + assert (∀ r, String.prefix (String LF "") (String LF r) = true) as Hp.
      { intros r. cbn [String.prefix].
        destruct (ascii_dec LF LF); [by destruct r|done]. }
      rewrite !Hp. change (String.length (String LF "") - 1) with 0.
      by rewrite IH.
    + assert (∀ r, String.prefix (String LF "") (String ch r) = false) as Hp.
      { intros r. cbn [String.prefix]. by destruct (ascii_dec LF ch). }
      rewrite !Hp, IH.
      by destruct (split_go_cons (String LF "") 0 a) as (h & t & ->).
Qed.

(** The lines kept from a text are those kept from its parts. *)
Lemma requirementLines_app a b :
  requirementLines (a +:+ String LF b) = requirementLines a ++ requirementLines b.
Proof.
  unfold requirementLines.
  by rewrite split_LF_app, !List.filter_app, List.map_app, !List.filter_app.
Qed.

End LinesOfText.

(** ** Inherited members *)

Section Inheritance.

Implicit Types (realm : Realm) (key : string).

(** In a realm to which nothing was added, the keys under which
    something is inherited are [__proto__] and the names of the
    functions. *)
Lemma inherited_fresh key :
  inherited freshRealm key = Plain Undefined ↔ ownName key.
Proof.
  unfold inherited, ownName.
  destruct (String.eqb_spec key "__proto__") as [->|Hp].
  - split; [done|]. by intros [[] _].
  - case_bool_decide as Hb.
    + split; [done|]. by intros [_ []].
    + split; [done|]. intros _. by destruct (fieldNamed key) as [[]|].
Qed.

Lemma inherited_own realm key :
  inherited realm key = Plain Undefined → ownName key.
Proof.
  unfold inherited, ownName.
  destruct (String.eqb_spec key "__proto__") as [->|Hp]; [done|].
  by case_bool_decide.
Qed.

(** Under an own name only a string or nothing can be inherited. *)
Lemma inherited_ownName realm key :
  ownName key → ∃ v, inherited realm key = Plain v.
Proof.
  intros [Hp Hb]. unfold inherited.
  destruct (String.eqb_spec key "__proto__") as [->|_]; [done|].
  rewrite bool_decide_eq_false_2 by done.
  destruct (fieldNamed key); by eexists.
Qed.

Lemma get_Some {V : Type} realm (obj : gmap string V) key v :
  obj !! key = Some v → get realm obj key = inl v.
Proof. unfold get. by intros ->. Qed.

Lemma get_None {V : Type} realm (obj : gmap string V) key :
  obj !! key = None → get realm obj key = inr (inherited realm key).
Proof. unfold get. by intros ->. Qed.

Lemma isUndefined_get {V : Type} realm (obj : gmap string V) key :
  isUndefined (get realm obj key) = true
  ↔ obj !! key = None ∧ inherited realm key = Plain Undefined.
Proof.
  unfold get. destruct (obj !! key) as [v|]; cbn; [by split; [|intros []]|].
  destruct (inherited realm key) as [| |[]]; cbn; by split; [|intros []].
Qed.

End Inheritance.

(** ** allDescendantPackages *)

Section Descendants.

Implicit Types (realm : Realm) (tree : gmap string Node) (parent start : string)
  (fuel : nat).

(** A start package that is a key of the tree: the [for...of] is handed
    the entry itself, not its [deps], and throws. *)
Lemma descendants_of_key realm tree parent fuel :
  is_Some (tree !! parent) →
  allDescendantPackages (S fuel) realm tree parent = Some (Throw TypeError).
Proof. intros [n Hn]. simpl. unfold iterated. by rewrite (get_Some _ _ _ n). Qed.

Lemma descendants_of_missing realm tree parent fuel :
  tree !! parent = None → inherited realm parent = Plain Undefined →
  allDescendantPackages (S fuel) realm tree parent = Some (Ok [parent]).
Proof.
  intros Hn Hi. simpl. unfold iterated. by rewrite (get_None _ _ _ Hn), Hi.
Qed.

(** A start package that names a function of [Object.prototype], or
    [__proto__]: the [for...of] is handed that member, and throws. *)
Lemma descendants_of_member realm tree parent fuel :
  parent = "__proto__" ∨ parent ∈ builtinNames →
  allDescendantPackages (S fuel) realm tree parent = Some (Throw TypeError).
Proof.
  intros Hm. simpl. unfold iterated, get.
  destruct (tree !! parent); [done|]. unfold inherited.
  destruct (String.eqb_spec parent "__proto__") as [->|Hp]; [done|].
  destruct Hm as [?|Hb]; [done|]. by rewrite bool_decide_eq_true_2.
Qed.

End Descendants.

(** C1.  On the tree parsed from the sample text, where [alembic] is a key
    whose [deps] is empty, the walk from [alembic] does not return
    [["alembic"]]: whatever the depth allowed, and whatever has been added
    to [Object.prototype], the promise is rejected with a [TypeError]. *)
Theorem descendants_alembic_throws :
  parsePinnedRequirementsTree freshRealm alembicText = (Ok alembicTree, freshRealm)
  ∧ (∃ n, alembicTree !! "alembic" = Some n ∧ deps n = Some [])
  ∧ ∀ (realm : Realm) (fuel : nat),
      allDescendantPackages (S fuel) realm alembicTree "alembic"
      = Some (Throw TypeError).
Proof.
  split; [vm_compute; reflexivity|]. split.
  - eexists. split; reflexivity.
  - intros realm fuel. apply descendants_of_key. eexists. reflexivity.
Qed.

(** C8, as stated: a start package that is no key of the tree but names a
    member that the tree inherits, here on the empty tree.  [tree[parent]]
    is then the function [Object], which is truthy and cannot be
    iterated, and the promise is rejected. *)
Lemma descendants_inherited_start :
  (∅ : gmap string Node) !! "constructor" = None
  ∧ ∀ fuel : nat,
      allDescendantPackages (S fuel) freshRealm ∅ "constructor"
      = Some (Throw TypeError).
Proof. split; [done|]. intros fuel. vm_compute. reflexivity. Qed.

(** C8, amended.  For a start package that is no key of the tree and
    under which the tree inherits nothing, the walk raises nothing and
    returns exactly the start package: the missing entry counts as having
    no edges. *)
Theorem descendants_missing_start (realm : Realm) (tree : gmap string Node)
  (start : string) (fuel : nat) :
  tree !! start = None →
  inherited realm start = Plain Undefined →
  allDescendantPackages (S fuel) realm tree start = Some (Ok [start]).
Proof. apply descendants_of_missing. Qed.

Lemma descendants_missing_start_witness :
  allDescendantPackages 1 freshRealm alembicTree "pandas" = Some (Ok ["pandas"]).
Proof.
  apply (descendants_missing_start freshRealm alembicTree "pandas" 0); reflexivity.
Defined.

(** ** processPythonReqsDiffOutput *)

Section Diff.

Implicit Types (realm : Realm) (res : gmap string Change) (line lib : string)
  (lines : list string).

(** The body of the loop, read through [pinOf]. *)
Lemma diffLine_pinOf realm res line :
  diffLine realm res line
  = match pinOf line with
    | Some (m, lib, ver) =>
        writeChange realm (ensured realm res lib) lib (deletes m) (Str ver)
    | None => (Ok res, realm)
    end.
Proof.
  unfold diffLine, pinOf, ensured.
  destruct (includes line "==") eqn:Hinc; simpl; [|done].
  destruct line as [|c rest]; [done|].
  rewrite !startsWith_char. unfold markerOf.
  destruct (Ascii.eqb_spec c "-") as [->|Hd]; simpl.
  - simpl in Hinc. by destruct (split_includes "==" rest eq_refl Hinc)
      as (a & b & t & ->).
  - destruct (Ascii.eqb_spec c "+") as [->|Ha]; simpl; [|done].
    simpl in Hinc. by destruct (split_includes "==" rest eq_refl Hinc)
      as (a & b & t & ->).
Qed.

Lemma record_deletes m ver (c : Change) :
  (if deletes m then {| before := Str ver; after := after c |}
   else {| before := before c; after := Str ver |})
  = record m ver (Some c).
Proof. by destruct m. Qed.

(** A changed line whose package has an entry, or is found nowhere:
    the entry is written, the realm is left alone. *)
Lemma diffLine_entry realm res line m lib ver :
  pinOf line = Some (m, lib, ver) →
  is_Some (res !! lib) ∨ isTruthy (@inr Change _ (inherited realm lib)) = false →
  diffLine realm res line = (Ok (<[lib := record m ver (res !! lib)]> res), realm).
Proof.
  intros Hpin Hlib. rewrite diffLine_pinOf, Hpin. unfold ensured, writeChange, get.
  destruct (res !! lib) as [c|] eqn:Hc.
  - cbn [isTruthy]. rewrite Hc. by rewrite record_deletes.
  - destruct Hlib as [[? ?]|Hfalse]; [done|]. rewrite Hfalse.
    rewrite lookup_insert_eq, insert_insert_eq. by destruct m.
Qed.

(** A changed line whose package names an inherited object or function:
    no entry is made, and the version is assigned to that member. *)
Lemma diffLine_member realm res line m lib ver :
  pinOf line = Some (m, lib, ver) →
  res !! lib = None →
  isTruthy (@inr Change _ (inherited realm lib)) = true →
  diffLine realm res line
  = match assignTo realm (inherited realm lib)
            (if deletes m then Before else After) (Str ver) with
    | Ok realm' => (Ok res, realm')
    | Throw e => (Throw e, realm)
    end.
Proof.
  intros Hpin Hlib Htrue. rewrite diffLine_pinOf, Hpin.
  unfold ensured, writeChange, get. by rewrite Hlib, Htrue, Hlib.
Qed.

(** A line that is no changed line does nothing. *)
Lemma diffLine_other realm res line :
  pinOf line = None → diffLine realm res line = (Ok res, realm).
Proof. intros Hpin. by rewrite diffLine_pinOf, Hpin. Qed.

(** The entries after a line are those before it and, at most, the one
    the line records. *)
Lemma diffLine_entries realm res line res' realm' lib c :
  diffLine realm res line = (Ok res', realm') →
  res' !! lib = Some c →
  res !! lib = Some c
  ∨ ∃ m ver, pinOf line = Some (m, lib, ver) ∧ c = record m ver (res !! lib).
Proof.
  destruct (pinOf line) as [[[m lib'] ver]|] eqn:Hpin.
  - destruct (decide (is_Some (res !! lib')
                      ∨ isTruthy (@inr Change _ (inherited realm lib')) = false))
      as [Hentry|Hmember].
    + rewrite (diffLine_entry _ _ _ _ _ _ Hpin Hentry). intros [= <- <-].
      destruct (decide (lib = lib')) as [->|Hne].
      * rewrite lookup_insert_eq. intros [= <-]. right. by exists m, ver.
      * rewrite lookup_insert_ne by done. by left.
    + assert (res !! lib' = None) as Hnone.
      { destruct (res !! lib') eqn:H; [|done]. destruct Hmember. left. by eexists. }
      assert (isTruthy (@inr Change _ (inherited realm lib')) = true) as Htrue.
      { destruct (isTruthy _) eqn:H; [done|]. destruct Hmember. by right. }
      rewrite (diffLine_member _ _ _ _ _ _ Hpin Hnone Htrue).
      destruct (assignTo _ _ _ _); [|done]. intros [= <- <-]. by left.
  - rewrite (diffLine_other _ _ _ Hpin). intros [= <- <-]. by left.
Qed.

Lemma diffLines_entries lines realm res res' realm' (P : string → Change → Prop) :
  (∀ line m lib ver e, pinOf line = Some (m, lib, ver) → P lib (record m ver e)) →
  (∀ lib c, res !! lib = Some c → P lib c) →
  diffLines realm res lines = (Ok res', realm') →
  ∀ lib c, res' !! lib = Some c → P lib c.
Proof.
  intros Hrec. revert realm res.
  induction lines as [|line rest IH]; intros realm res Hres; cbn [diffLines].
  - by intros [= <- <-].
  - destruct (diffLine realm res line) as [[res1|e] realm1] eqn:Hstep; [|done].
    apply IH. intros lib c Hc.
    destruct (diffLine_entries _ _ _ _ _ _ _ Hstep Hc) as [Hold|(m & ver & Hpin & ->)].
    + by apply Hres.
    + by apply (Hrec line).
Qed.

Lemma diffLines_app lines1 lines2 realm res :
  diffLines realm res (lines1 ++ lines2)
  = match diffLines realm res lines1 with
    | (Ok res', realm') => diffLines realm' res' lines2
    | (Throw e, realm') => (Throw e, realm')
    end.
Proof.
  revert realm res. induction lines1 as [|line rest IH]; intros realm res; [done|].
  cbn [diffLines app].
  destruct (diffLine realm res line) as [[res1|e] realm1]; [apply IH|done].
Qed.

Lemma combine_Some e ds adds :
  is_Some e ∨ ds ≠ [] ∨ adds ≠ [] →
  combine e ds adds
  = Some {| before := from_option Str (from_option before Null e) (last ds);
            after := from_option Str (from_option after Null e) (last adds) |}.
Proof.
  intros H. destruct e, ds, adds; try done.
  destruct H as [[? ?]|[?|?]]; done.
Qed.

Lemma combine_combine e ds1 adds1 ds2 adds2 :
  combine (combine e ds1 adds1) ds2 adds2
  = combine e (ds1 ++ ds2) (adds1 ++ adds2).
Proof.
  assert (Hlast : ∀ (d : jsval) (l1 l2 : list string),
    from_option Str (from_option Str d (last l1)) (last l2)
    = from_option Str d (last (l1 ++ l2))).
  { intros d l1 l2. rewrite last_app. by destruct (last l2). }
  destruct (decide (is_Some e ∨ ds1 ≠ [] ∨ adds1 ≠ [])) as [H|H].
  - rewrite (combine_Some e ds1 adds1 H).
    rewrite combine_Some by (left; by eexists). simpl.
    rewrite combine_Some.
    + by rewrite !Hlast.
    + destruct H as [?|[?|?]]; [by left|right; left|right; right];
        by intros [-> _]%app_eq_nil.
  - destruct e; [destruct H; left; by eexists|].
    destruct ds1; [|destruct H; right; by left].
    destruct adds1; [|destruct H; right; by right].
    done.
Qed.

Lemma versionsOf_cons m line lines lib :
  versionsOf m lib (line :: lines)
  = versionsOf m lib [line] ++ versionsOf m lib lines.
Proof. apply (omap_app _ [line] lines). Qed.

Lemma versionsOf_single m lib line :
  versionsOf m lib [line]
  = match pinOf line with
    | Some (m', lib', ver) => if decide (m' = m ∧ lib' = lib) then [ver] else []
    | None => []
    end.
Proof.
  unfold versionsOf. cbn [omap list_omap].
  destruct (pinOf line) as [[[m' lib'] ver]|]; [|done].
  by case_decide.
Qed.

(** One line that names no inherited member, entry by entry. *)
Lemma diffLine_lookup res line :
  (∀ m lib ver, pinOf line = Some (m, lib, ver) → ownName lib) →
  ∃ res', diffLine freshRealm res line = (Ok res', freshRealm)
    ∧ ∀ lib, res' !! lib
             = combine (res !! lib) (versionsOf Deletion lib [line])
                 (versionsOf Addition lib [line]).
Proof.
  intros Hown. destruct (pinOf line) as [[[m lib'] ver]|] eqn:Hpin.
  - rewrite (diffLine_entry _ _ _ _ _ _ Hpin).
    2:{ right. by rewrite (proj2 (inherited_fresh lib') (Hown m lib' ver eq_refl)). }
    eexists. split; [done|]. intros lib.
    rewrite !versionsOf_single, Hpin.
    destruct (decide (lib' = lib)) as [->|Hne].
    + rewrite lookup_insert_eq. destruct m.
      * rewrite decide_True by done.
        rewrite decide_False by (by intros [? _]).
        by destruct (res !! lib).
      * rewrite decide_False by (by intros [? _]).
        rewrite decide_True by done.
        by destruct (res !! lib).
    + rewrite lookup_insert_ne by done.
      rewrite !decide_False by (by intros [_ ?]).
      by destruct (res !! lib) as [[]|].
  - rewrite (diffLine_other _ _ _ Hpin). eexists. split; [done|]. intros lib.
    rewrite !versionsOf_single, Hpin. by destruct (res !! lib) as [[]|].
Qed.

(** The whole loop, entry by entry. *)
Lemma diffLines_lookup lines res :
  ownLines lines →
  ∃ res', diffLines freshRealm res lines = (Ok res', freshRealm)
    ∧ ∀ lib, res' !! lib
             = combine (res !! lib) (versionsOf Deletion lib lines)
                 (versionsOf Addition lib lines).
Proof.
  revert res. induction lines as [|line rest IH]; intros res Hown.
  - exists res. split; [done|]. intros lib. by destruct (res !! lib) as [[]|].
  - apply Forall_cons in Hown as [Hline Hrest].
    destruct (diffLine_lookup res line Hline) as (res1 & Hstep & H1).
    destruct (IH res1 Hrest) as (res' & Hloop & H').
    exists res'. split.
    + cbn [diffLines]. rewrite Hstep. exact Hloop.
    + intros lib. rewrite H', H1, combine_combine.
      by rewrite <- !versionsOf_cons.
Qed.

Lemma process_lookup rawOutput :
  ownLines (split (String LF "") rawOutput) →
  ∃ res, processPythonReqsDiffOutput freshRealm rawOutput = (Ok res, freshRealm)
    ∧ ∀ lib, res !! lib = changeOf lib (split (String LF "") rawOutput).
Proof.
  intros Hown.
  destruct (diffLines_lookup (split (String LF "") rawOutput) ∅ Hown)
    as (res & Hres & H).
  exists res. split; [exact Hres|]. intros lib.
  rewrite H, lookup_empty. unfold changeOf, lastVersion, combine.
  by destruct (versionsOf Deletion lib _), (versionsOf Addition lib _).
Qed.

Lemma inherited_noProps realm lib :
  added realm = noProps → lib ≠ "__proto__" →
  inherited realm lib = Builtin lib ∨ inherited realm lib = Plain Undefined.
Proof.
  intros Hadded Hlib. unfold inherited, protoProp. rewrite Hadded.
  destruct (String.eqb_spec lib "__proto__"); [done|].
  case_bool_decide; [by left|right]. by destruct (fieldNamed lib) as [[]|].
Qed.

(** As long as nothing was added to [Object.prototype], a line that does
    not name [__proto__] is read without an exception and adds nothing to
    it. *)
Lemma diffLine_returns realm res line :
  added realm = noProps →
  (∀ m ver, pinOf line ≠ Some (m, "__proto__", ver)) →
  ∃ res' realm', diffLine realm res line = (Ok res', realm')
    ∧ added realm' = noProps.
Proof.
  intros Hadded Hno. destruct (pinOf line) as [[[m lib] ver]|] eqn:Hpin.
  - assert (lib ≠ "__proto__") as Hlib by (intros ->; by apply (Hno m ver)).
    destruct (decide (is_Some (res !! lib)
                      ∨ isTruthy (@inr Change _ (inherited realm lib)) = false))
      as [Hentry|Hmember].
    + rewrite (diffLine_entry _ _ _ _ _ _ Hpin Hentry). by eexists _, _.
    + assert (res !! lib = None) as Hnone.
      { destruct (res !! lib) eqn:H; [|done]. destruct Hmember. left. by eexists. }
      assert (isTruthy (@inr Change _ (inherited realm lib)) = true) as Htrue.
      { destruct (isTruthy _) eqn:H; [done|]. destruct Hmember. by right. }
      rewrite (diffLine_member _ _ _ _ _ _ Hpin Hnone Htrue).
      destruct (inherited_noProps realm lib Hadded Hlib) as [Hi|Hi];
        rewrite Hi in Htrue |- *; [|done].
      cbn [assignTo]. by eexists _, _.
  - rewrite (diffLine_other _ _ _ Hpin). by eexists _, _.
Qed.

Lemma diffLines_returns lines realm res :
  added realm = noProps → noProtoLine lines →
  ∃ res' realm', diffLines realm res lines = (Ok res', realm').
Proof.
  revert realm res. induction lines as [|line rest IH]; intros realm res Hadded Hno.
  - by eexists _, _.
  - apply Forall_cons in Hno as [Hline Hrest].
    destruct (diffLine_returns realm res line Hadded Hline)
      as (res1 & realm1 & Hstep & Hadded1).
    cbn [diffLines]. rewrite Hstep. by apply IH.
Qed.

(** A line that is no changed line can be taken out of the diff. *)
Lemma process_skips realm (a c b : string) :
  includes c (String LF "") = false → pinOf c = None →
  processPythonReqsDiffOutput realm (a +:+ String LF (c +:+ String LF b))
  = processPythonReqsDiffOutput realm (a +:+ String LF b).
Proof.
  intros Hc Hpin. unfold processPythonReqsDiffOutput.
  rewrite !split_LF_app, (split_char_none LF c Hc).
  rewrite !(diffLines_app (split (String LF "") a)).
  destruct (diffLines realm ∅ _) as [[res|e] realm1]; [|done].
  cbn [diffLines app]. by rewrite (diffLine_other _ _ _ Hpin).
Qed.

End Diff.

(** C4, as stated: a deletion that names [constructor].  The line is a
    changed line with a version, yet the result has no entry for it:
    [result["constructor"]] is the function [Object], so no entry is made
    and the version is assigned to [Object.before]. *)
Lemma diff_constructor_line :
  pinOf "-constructor==1.0" = Some (Deletion, "constructor", "1.0")
  ∧ changeOf "constructor" ["-constructor==1.0"]
    = Some {| before := Str "1.0"; after := Null |}
  ∧ processPythonReqsDiffOutput freshRealm "-constructor==1.0"
    = (Ok ∅,
       {| added := noProps;
          onBuiltin := {["constructor" := setProp Before (Str "1.0") noProps]} |}).
Proof. repeat split; vm_compute; reflexivity. Qed.

(** C4, amended.  For a diff whose changed lines name no member that an
    object inherits, the result of [processPythonReqsDiffOutput] holds an
    entry for a package exactly when some line of the diff contains [==],
    begins with [-] or [+] and names that package (in lower case);
    [before] is the version of the last such [-] line and [after] the
    version of the last such [+] line, [null] when there is none.  A line
    without [==], or one that begins with neither marker, leaves the
    result as it is, and can be taken out of any diff; a line with a
    marker writes the one field of its package and touches no other
    entry.  On the sample diff the result is
    [{alembic: {before: "1.13.0", after: "1.13.1"}}]. *)
Theorem diff_changes (rawOutput : string) :
  (ownLines (split (String LF "") rawOutput) →
   ∃ res, processPythonReqsDiffOutput freshRealm rawOutput = (Ok res, freshRealm)
     ∧ ∀ lib, res !! lib = changeOf lib (split (String LF "") rawOutput))
  ∧ (∀ realm res line,
       includes line "==" = false
       ∨ (startsWith line "-" = false ∧ startsWith line "+" = false) →
       diffLine realm res line = (Ok res, realm)
       ∧ (includes line (String LF "") = false →
          ∀ a b, processPythonReqsDiffOutput realm
                   (a +:+ String LF (line +:+ String LF b))
                 = processPythonReqsDiffOutput realm (a +:+ String LF b)))
  ∧ (∀ realm res line m lib ver,
       pinOf line = Some (m, lib, ver) →
       is_Some (res !! lib) ∨ inherited realm lib = Plain Undefined →
       ∃ res', diffLine realm res line = (Ok res', realm)
         ∧ res' !! lib = Some (record m ver (res !! lib))
         ∧ ∀ other, other ≠ lib → res' !! other = res !! other)
  ∧ processPythonReqsDiffOutput freshRealm alembicDiff
    = (Ok {["alembic" := {| before := Str "1.13.0"; after := Str "1.13.1" |}]},
       freshRealm).
Proof.
  split; [apply process_lookup|]. split; [|split].
  - intros realm res line H.
    assert (pinOf line = None) as Hpin.
    { unfold pinOf. destruct H as [->|[Hd Ha]]; [done|].
      destruct (includes line "=="); [|done].
      destruct line as [|c rest]; [done|].
      rewrite startsWith_char in Hd, Ha. unfold markerOf. by rewrite Hd, Ha. }
    split; [by apply diffLine_other|].
    intros Hline a b. by apply process_skips.
  - intros realm res line m lib ver Hpin Hlib.
    rewrite (diffLine_entry _ _ _ _ _ _ Hpin).
    2:{ destruct Hlib as [?|Hi]; [by left|right]. by rewrite Hi. }
    eexists. split; [done|]. split.
    + by rewrite lookup_insert_eq.
    + intros other Hne. by rewrite lookup_insert_ne.
  - vm_compute. reflexivity.
Qed.

Lemma diff_changes_witness :
  ∃ res, processPythonReqsDiffOutput freshRealm "-Flask==2.0" = (Ok res, freshRealm)
    ∧ res !! "flask" = Some {| before := Str "2.0"; after := Null |}.
Proof.
  destruct (proj1 (diff_changes "-Flask==2.0")) as (res & Hres & H).
  - apply Forall_cons_2; [|apply Forall_nil_2]. intros m lib ver.
    intros [= <- <- <-]. split; [done|]. vm_compute. intros H.
    by repeat (apply elem_of_cons in H as [H|H]; [done|]); apply elem_of_nil in H.
  - exists res. split; [exact Hres|]. by rewrite (H "flask").
Defined.

(** A diff on which the call throws: the first line assigns a string to
    [Object.prototype.before], and the second line then finds that string
    under [before] and cannot assign to it. *)
Example diff_prototype_throws :
  fst (processPythonReqsDiffOutput freshRealm
         ("-__proto__==1.0" +:+ String LF "-before==2.0"))
  = Throw TypeError.
Proof. vm_compute. reflexivity. Qed.

(** C10.  No entry of a result has both fields [null]: an entry exists
    only through a line that writes a string into one of them.  The call
    returns a result whenever no changed line of the diff names
    [__proto__]. *)
Theorem diff_entry_not_null (rawOutput : string) :
  (∀ realm res realm',
     processPythonReqsDiffOutput realm rawOutput = (Ok res, realm') →
     ∀ lib c, res !! lib = Some c →
       ¬ (before c = Null ∧ after c = Null)
       ∧ ((∃ v, before c = Str v) ∨ (∃ v, after c = Str v)))
  ∧ (noProtoLine (split (String LF "") rawOutput) →
     ∃ res realm', processPythonReqsDiffOutput freshRealm rawOutput = (Ok res, realm')).
Proof.
  split.
  - intros realm res realm' Hres.
    apply (diffLines_entries _ _ _ _ _
             (fun _ c => ¬ (before c = Null ∧ after c = Null)
                         ∧ ((∃ v, before c = Str v) ∨ (∃ v, after c = Str v)))
             ) with (3 := Hres).
    + intros line m lib ver e _. destruct m; cbn.
      * split; [by intros [? _]|left; by eexists].
      * split; [by intros [_ ?]|right; by eexists].
    + intros lib c. by rewrite lookup_empty.
  - intros Hno. apply diffLines_returns; [done|exact Hno].
Qed.

Lemma diff_entry_not_null_witness :
  ∃ c, processPythonReqsDiffOutput freshRealm alembicDiff
       = (Ok {["alembic" := c]}, freshRealm)
    ∧ ¬ (before c = Null ∧ after c = Null).
Proof.
  exists {| before := Str "1.13.0"; after := Str "1.13.1" |}.
  assert (processPythonReqsDiffOutput freshRealm alembicDiff
          = (Ok {["alembic" := {| before := Str "1.13.0"; after := Str "1.13.1" |}]},
             freshRealm)) as Hres by (vm_compute; reflexivity).
  split; [exact Hres|].
  apply (proj1 (diff_entry_not_null alembicDiff) _ _ _ Hres "alembic").
  reflexivity.
Defined.

(** ** Number *)

Section Numbers.

Local Open Scope Z_scope.

Implicit Types (n k : Z) (s r : string) (c d : ascii) (x y : number).

Lemma roundHalfEven_1 n : roundHalfEven n 1 = n.
Proof.
  unfold roundHalfEven. rewrite Z.div_1_r, Z.mod_1_r. reflexivity.
Qed.

Lemma floorLog2_1 n : 0 < n → floorLog2 n 1 = Z.log2 n.
Proof.
  intros Hn. unfold floorLog2, reaches.
  change (Z.log2 1) with 0. rewrite Z.sub_0_r.
  pose proof (Z.log2_nonneg n) as H0.
  pose proof (Z.log2_spec n Hn) as [Hlo _].
  rewrite (proj2 (Z.leb_le 0 (Z.log2 n)) H0).
  rewrite Z.mul_1_l. by rewrite (proj2 (Z.leb_le _ _) Hlo).
Qed.

(** Below [2^53] nothing is rounded away. *)
Lemma roundToDouble_holds n :
  0 <= n < 2 ^ 53 → holds (roundToDouble n 1) n.
Proof.
  intros [H0 H53]. unfold roundToDouble.
  destruct (Z.eqb_spec n 0) as [->|Hne].
  { exists 0. split; [done|]. reflexivity. }
  assert (0 < n) as Hpos by lia.
  rewrite (floorLog2_1 n Hpos).
  pose proof (Z.log2_nonneg n) as Hl0.
  assert (Z.log2 n < 53) as Hl53 by (by apply Z.log2_lt_pow2).
  rewrite Z.max_l by lia.
  set (t := Z.log2 n - 52).
  assert (t <= 0) as Ht by (unfold t; lia).
  exists t. split; [done|].
  assert ((if 0 <=? t then roundHalfEven n (1 * 2 ^ t)
           else roundHalfEven (n * 2 ^ (- t)) 1) = n * 2 ^ (- t)) as ->.
  { destruct (Z.leb_spec 0 t) as [Hge|Hlt].
    - assert (t = 0) as -> by lia.
      change (1 * 2 ^ 0) with 1. change (2 ^ (- 0)) with 1.
      rewrite roundHalfEven_1. lia.
    - apply roundHalfEven_1. }
  assert (n * 2 ^ (- t) * 2 ^ t < 2 ^ 1024) as Hsmall.
  { destruct (Z.eq_dec t 0) as [->|Htne].
    - change (2 ^ (- 0)) with 1. change (2 ^ 0) with 1.
      assert (2 ^ 53 < 2 ^ 1024) by (by apply Z.pow_lt_mono_r).
      lia.
    - rewrite (Z.pow_neg_r 2 t) by lia. rewrite Z.mul_0_r.
      by apply Z.pow_pos_nonneg. }
  by rewrite (proj2 (Z.leb_gt _ _) Hsmall).
Qed.

(** On numbers that hold integers, [<] is the order of the integers. *)
Lemma ltb_holds x y n k : holds x n → holds y k → ltb x y = (n <? k).
Proof.
  intros (t1 & Ht1 & ->) (t2 & Ht2 & ->). unfold ltb.
  set (t := Z.min t1 t2).
  assert (t <= t1 ∧ t <= t2 ∧ t <= 0) as (H1 & H2 & H3) by (unfold t; lia).
  rewrite <- !Z.mul_assoc, <- !Z.pow_add_r by lia.
  replace (- t1 + (t1 - t)) with (- t) by lia.
  replace (- t2 + (t2 - t)) with (- t) by lia.
  assert (0 < 2 ^ (- t)) as Hp by (apply Z.pow_pos_nonneg; lia).
  destruct (Z.ltb_spec n k) as [Hlt|Hge].
  - apply Z.ltb_lt. by apply Z.mul_lt_mono_pos_r.
  - apply Z.ltb_ge. by apply Z.mul_le_mono_nonneg_r; [lia|].
Qed.

Lemma ltb_NaN_l y : ltb NaN y = false.
Proof. done. Qed.

Lemma ltb_NaN_r x : ltb x NaN = false.
Proof. by destruct x. Qed.

End Numbers.

(** ** Number on a run of decimal digits *)

Section Digits.

Implicit Types (s r : string) (c d : ascii).

Lemma digit_neq c d : isDigit c = true → isDigit d = false → Ascii.eqb c d = false.
Proof.
  intros Hc Hd. destruct (Ascii.eqb_spec c d) as [->|]; [congruence|done].
Qed.

Lemma digit_not_space c : isDigit c = true → isWhiteSpace c = false.
Proof.
  unfold isDigit, isWhiteSpace. intros H.
  apply andb_true_iff in H as [H1 H2].
  apply N.leb_le in H1. apply N.leb_le in H2.
  rewrite !orb_false_iff, andb_false_iff, !N.leb_gt, !N.eqb_neq. lia.
Qed.

Lemma digitValue_digit c :
  isDigit c = true →
  digitValue c = Some (Z.of_N (code c) - 48)%Z
  ∧ (0 <= Z.of_N (code c) - 48 < 10)%Z.
Proof.
  unfold isDigit, digitValue. intros H.
  apply andb_true_iff in H as [H1 H2].
  apply N.leb_le in H1. apply N.leb_le in H2.
  rewrite (proj2 (Z.leb_le 48 _)) by lia.
  rewrite (proj2 (Z.leb_le _ 57)) by lia.
  split; [done|lia].
Qed.

Lemma digitsValue_allDigits s acc :
  allDigits s = true → digitsValue 10 acc s = Some (decimalValue acc s).
Proof.
  revert acc. induction s as [|c r IH]; intros acc H; [done|].
  cbn [allDigits] in H. apply andb_true_iff in H as [Hc Hr].
  cbn [digitsValue decimalValue].
  destruct (digitValue_digit c Hc) as [-> Hrange].
  rewrite (proj2 (Z.ltb_lt _ 10)) by lia. by apply IH.
Qed.

Lemma decimalValue_bounds s acc :
  allDigits s = true → (0 <= acc)%Z → (0 <= decimalValue acc s)%Z.
Proof.
  revert acc. induction s as [|c r IH]; intros acc H Hacc; [done|].
  cbn [allDigits] in H. apply andb_true_iff in H as [Hc Hr].
  cbn [decimalValue]. apply IH; [done|].
  destruct (digitValue_digit c Hc) as [_ Hrange]. lia.
Qed.

Lemma spanDigits_allDigits s : allDigits s = true → spanDigits s = (s, "").
Proof.
  induction s as [|c r IH]; intros H; [done|].
  cbn [allDigits] in H. apply andb_true_iff in H as [Hc Hr].
  cbn [spanDigits]. by rewrite Hc, IH.
Qed.

Lemma trimEnd_allDigits s : allDigits s = true → trimEnd s = s.
Proof.
  induction s as [|c r IH]; intros H; [done|].
  cbn [allDigits] in H. apply andb_true_iff in H as [Hc Hr].
  cbn [trimEnd]. rewrite IH by done.
  destruct r; [|done]. by rewrite digit_not_space.
Qed.

Lemma trim_allDigits s : allDigits s = true → trim s = s.
Proof.
  intros H. unfold trim.
  assert (trimStart s = s) as ->; [|by apply trimEnd_allDigits].
  destruct s as [|c r]; [done|].
  cbn [allDigits] in H. apply andb_true_iff in H as [Hc Hr].
  cbn [trimStart]. by rewrite digit_not_space.
Qed.

Lemma nonDecimal_allDigits s : allDigits s = true → nonDecimal s = None.
Proof.
  destruct s as [|c [|d r]]; intros H; [done| |].
  - by destruct c as [[] [] [] [] [] [] [] []].
  - cbn [allDigits] in H.
    apply andb_true_iff in H as [_ [Hd _]%andb_true_iff].
    assert (∀ e, isDigit e = false →
                 (if Ascii.eqb d e then true else false) = false) as Hne.
    { intros e He. by rewrite (digit_neq d e). }
    destruct c as [[] [] [] [] [] [] [] []]; try reflexivity.
    unfold nonDecimal.
    rewrite !(digit_neq d) by done. reflexivity.
Qed.

Lemma decimalLiteral_digit c r :
  isDigit c = true → decimalLiteral (String c r) = unsignedDecimal (String c r).
Proof.
  intros H.
  destruct c as [[] [] [] [] [] [] [] []]; try reflexivity; discriminate H.
Qed.

Lemma append_empty s : s +:+ "" = s.
Proof.
  induction s as [|c r IH]; [done|].
  change (String c (r +:+ "") = String c r). by rewrite IH.
Qed.

Lemma unsignedDecimal_allDigits s :
  allDigits s = true → s ≠ "" →
  unsignedDecimal s = roundToDouble (decimalValue 0 s) 1.
Proof.
  intros H Hne. unfold unsignedDecimal.
  assert (String.eqb s "Infinity" = false) as ->.
  { destruct s as [|c r]; [done|].
    cbn [allDigits] in H. apply andb_true_iff in H as [Hc _].
    cbn [String.eqb]. by rewrite (digit_neq c "I"). }
  rewrite (spanDigits_allDigits s H).
  assert (String.eqb s "" = false) as ->.
  { by destruct s. }
  cbn [andb]. change (exponentPart "") with (Some 0%Z).
  rewrite append_empty, (digitsValue_allDigits s 0 H).
  unfold scaled. change (0 - Z.of_nat (String.length ""))%Z with 0%Z.
  change (0 <=? 0)%Z with true. change (10 ^ 0)%Z with 1%Z.
  by rewrite Z.mul_1_r.
Qed.

(** [Number] on one or more decimal digits. *)
Lemma Number_allDigits s :
  allDigits s = true → s ≠ "" →
  Number s = roundToDouble (decimalValue 0 s) 1.
Proof.
  intros H Hne. unfold Number. rewrite (trim_allDigits s H).
  assert (String.eqb s "" = false) as -> by (by destruct s).
  rewrite (nonDecimal_allDigits s H).
  destruct s as [|c r]; [done|].
  rewrite decimalLiteral_digit.
  - by apply unsignedDecimal_allDigits.
  - cbn [allDigits] in H. by apply andb_true_iff in H as [Hc _].
Qed.

Lemma Number_integerOf s n :
  integerOf s = Some n → (n < 2 ^ 53)%Z → holds (Number s) n.
Proof.
  unfold integerOf. intros H Hn.
  destruct s as [|c r]; [done|].
  destruct (allDigits (String c r)) eqn:Hd; [|done].
  injection H as <-. rewrite Number_allDigits by done.
  apply roundToDouble_holds. split; [|done].
  apply (decimalValue_bounds (String c r) 0); [done|lia].
Qed.

End Digits.

(** ** compareSemVer *)

Section Compare.

Local Open Scope Z_scope.

Implicit Types (splitA splitB : list number) (i remaining : nat).

Lemma compareFrom_range splitA splitB i remaining :
  compareFrom splitA splitB i remaining = -1
  ∨ compareFrom splitA splitB i remaining = 0
  ∨ compareFrom splitA splitB i remaining = 1.
Proof.
  revert i. induction remaining as [|k IH]; intros i; cbn [compareFrom].
  - right. by left.
  - destruct (gt _ _); [right; by right|].
    destruct (lt _ _); [by left|]. apply IH.
Qed.

(** A position where one side is missing or NaN decides nothing. *)
Lemma compareFrom_skip splitA splitB i remaining :
  notANumber (splitA !! i) ∨ notANumber (splitB !! i) →
  compareFrom splitA splitB i (S remaining)
  = compareFrom splitA splitB (S i) remaining.
Proof.
  unfold notANumber. intros H. cbn [compareFrom]. unfold gt, lt.
  destruct H as [-> | ->]; by rewrite ?ltb_NaN_l, ?ltb_NaN_r.
Qed.

(** The positions passed over before the first one that decides. *)
Lemma compareFrom_first splitA splitB (k i remaining : nat) :
  (k ≤ remaining)%nat →
  (∀ j : nat, (j < k)%nat → undecided splitA splitB (i + j)) →
  compareFrom splitA splitB i remaining
  = compareFrom splitA splitB (i + k) (remaining - k).
Proof.
  revert i remaining. induction k as [|k IH]; intros i remaining Hk Hund.
  - by rewrite Nat.add_0_r, Nat.sub_0_r.
  - destruct remaining as [|remaining]; [lia|]. cbn [compareFrom].
    destruct (Hund 0%nat) as [Hg Hl]; [lia|]. rewrite Nat.add_0_r in Hg, Hl.
    rewrite Hg, Hl. rewrite (IH (S i) remaining) by
      (lia || (intros j Hj; replace (S i + j)%nat with (i + S j)%nat by lia;
               apply Hund; lia)).
    by replace (S i + k)%nat with (i + S k)%nat by lia.
Qed.

Lemma notANumber_fmap (l : list string) i :
  Forall (fun c => Number c = NaN) l → notANumber ((Number <$> l) !! i).
Proof.
  intros H. unfold notANumber. rewrite list_lookup_fmap.
  destruct (l !! i) as [c|] eqn:Hc; [|done]. simpl.
  by apply (Forall_lookup_1 _ _ _ _ H Hc).
Qed.

Lemma compareFrom_holds (x1 x2 x3 y1 y2 y3 : number) (a1 a2 a3 b1 b2 b3 : Z)
  (restA restB : list number) :
  holds x1 a1 → holds x2 a2 → holds x3 a3 →
  holds y1 b1 → holds y2 b2 → holds y3 b3 →
  compareFrom (x1 :: x2 :: x3 :: restA) (y1 :: y2 :: y3 :: restB) 0 3
  = compareTriples (a1, a2, a3) (b1, b2, b3).
Proof.
  intros Hx1 Hx2 Hx3 Hy1 Hy2 Hy3.
  cbn [compareFrom lookup list_lookup]. unfold gt, lt, toNumber.
  cbn [default from_option]. unfold id, compareTriples.
  rewrite (ltb_holds _ _ _ _ Hx1 Hy1), (ltb_holds _ _ _ _ Hy1 Hx1).
  rewrite (ltb_holds _ _ _ _ Hx2 Hy2), (ltb_holds _ _ _ _ Hy2 Hx2).
  rewrite (ltb_holds _ _ _ _ Hx3 Hy3), (ltb_holds _ _ _ _ Hy3 Hx3).
  destruct (Z.compare_spec a1 b1);
    destruct (Z.ltb_spec b1 a1); destruct (Z.ltb_spec a1 b1); try lia; try done.
  destruct (Z.compare_spec a2 b2);
    destruct (Z.ltb_spec b2 a2); destruct (Z.ltb_spec a2 b2); try lia; try done.
  destruct (Z.compare_spec a3 b3);
    destruct (Z.ltb_spec b3 a3); destruct (Z.ltb_spec a3 b3); try lia; done.
Qed.

End Compare.

(** C5, as stated: on two versions whose components are all numeric the
    result is not the integer comparison.  The first components below are
    the integers [2^53 + 1] and [2^53]; [Number] rounds both to [2^53], and
    the versions compare equal. *)
Lemma compare_large_components :
  tripleOf "9007199254740993.0.0" = Some (9007199254740993, 0, 0)%Z
  ∧ tripleOf "9007199254740992.0.0" = Some (9007199254740992, 0, 0)%Z
  ∧ compareTriples (9007199254740993, 0, 0)%Z (9007199254740992, 0, 0)%Z = 1%Z
  ∧ compareSemVer "9007199254740993.0.0" "9007199254740992.0.0" = 0%Z.
Proof. repeat split; vm_compute; reflexivity. Qed.

(** C5, amended.  For versions whose first three dot-separated components
    are runs of decimal digits, each denoting an integer below [2^53],
    [compareSemVer] is the component-by-component comparison of these
    integers; so leading zeros do not matter and the order is numeric:
    [1.01.1] against [1.1.2] gives -1, [01.1.1] against [1.1.1] gives 0 and
    [1.2.10] against [1.2.2] gives 1. *)
Theorem compare_safe_integers :
  (∀ (a b : string) (x y : Z * Z * Z),
     tripleOf a = Some x → tripleOf b = Some y →
     safeTriple x → safeTriple y →
     compareSemVer a b = compareTriples x y)
  ∧ compareSemVer "1.01.1" "1.1.2" = (-1)%Z
  ∧ compareSemVer "01.1.1" "1.1.1" = 0%Z
  ∧ compareSemVer "1.2.10" "1.2.2" = 1%Z.
Proof.
  split; [|repeat split; vm_compute; reflexivity].
  intros a b x y Ha Hb Hx Hy.
  unfold tripleOf in Ha, Hb. unfold compareSemVer.
  destruct (split "." a) as [|a1 [|a2 [|a3 restA]]]; try done.
  destruct (split "." b) as [|b1 [|b2 [|b3 restB]]]; try done.
  destruct (integerOf a1) as [x1|] eqn:Ha1; [|done].
  destruct (integerOf a2) as [x2|] eqn:Ha2; [|done].
  destruct (integerOf a3) as [x3|] eqn:Ha3; [|done].
  destruct (integerOf b1) as [y1|] eqn:Hb1; [|done].
  destruct (integerOf b2) as [y2|] eqn:Hb2; [|done].
  destruct (integerOf b3) as [y3|] eqn:Hb3; [|done].
  injection Ha as <-. injection Hb as <-.
  destruct Hx as (Hx1 & Hx2 & Hx3). destruct Hy as (Hy1 & Hy2 & Hy3).
  rewrite !fmap_cons.
  apply compareFrom_holds; by apply Number_integerOf.
Qed.

Lemma compare_safe_integers_witness :
  compareSemVer "2.0.0" "1.10.10" = compareTriples (2, 0, 0)%Z (1, 10, 10)%Z.
Proof.
  apply (proj1 compare_safe_integers "2.0.0" "1.10.10" (2, 0, 0)%Z (1, 10, 10)%Z);
    [reflexivity | reflexivity | vm_compute; done | vm_compute; done].
Defined.

(** C6.  [compareSemVer] is total and its result is -1, 0 or 1.  At a
    position where a component is missing (the version has too few parts)
    or converts to NaN, neither [>] nor [<] holds, whatever the other side
    is.  The result is decided by the first of the three positions at
    which one component is greater than the other, every position before
    it being passed over; it is 0 when there is none. *)
Theorem compare_total (a b : string) :
  let splitA := Number <$> split "." a in
  let splitB := Number <$> split "." b in
  (compareSemVer a b = (-1)%Z ∨ compareSemVer a b = 0%Z ∨ compareSemVer a b = 1%Z)
  ∧ (∀ x y : option number,
       notANumber x →
       gt x y = false ∧ lt x y = false ∧ gt y x = false ∧ lt y x = false)
  ∧ (∀ (s : string) (i : nat),
       (length (split "." s) ≤ i)%nat
       ∨ (∃ c, split "." s !! i = Some c ∧ Number c = NaN) →
       notANumber ((Number <$> split "." s) !! i))
  ∧ (∀ i : nat,
       (i < 3)%nat →
       (∀ j : nat, (j < i)%nat → undecided splitA splitB j) →
       (gt (splitA !! i) (splitB !! i) = true → compareSemVer a b = 1%Z)
       ∧ (gt (splitA !! i) (splitB !! i) = false →
          lt (splitA !! i) (splitB !! i) = true → compareSemVer a b = (-1)%Z))
  ∧ ((∀ j : nat, (j < 3)%nat → undecided splitA splitB j) →
     compareSemVer a b = 0%Z).
Proof.
  cbv zeta. split; [apply compareFrom_range|]. split; [|split; [|split]].
  - unfold notANumber, gt, lt. intros x y ->.
    by rewrite !ltb_NaN_l, !ltb_NaN_r.
  - intros s i [Hlen|(c & Hc & Hnan)]; unfold notANumber;
      rewrite list_lookup_fmap.
    + by rewrite (lookup_ge_None_2 _ _ Hlen).
    + by rewrite Hc.
  - intros i Hi Hbefore. unfold compareSemVer.
    rewrite (compareFrom_first _ _ i 0 3) by (lia || done).
    replace (3 - i)%nat with (S (2 - i)) by lia. cbn [compareFrom].
    replace (0 + i)%nat with i by lia.
    split; [by intros ->|by intros -> ->].
  - intros Hall. unfold compareSemVer.
    by rewrite (compareFrom_first _ _ 3 0 3) by (lia || done).
Qed.

Lemma compare_total_witness :
  compareSemVer "x.1.0" "x.2.0" = (-1)%Z
  ∧ notANumber ((Number <$> split "." "x.1.0") !! 0%nat).
Proof.
  destruct (compare_total "x.1.0" "x.2.0") as (_ & Hnan & Hmiss & Hfirst & _).
  assert (notANumber ((Number <$> split "." "x.1.0") !! 0%nat)) as Hx.
  { apply Hmiss. right. exists "x". split; reflexivity. }
  split; [|exact Hx].
  apply (Hfirst 1%nat); [lia| |reflexivity|reflexivity].
  intros j Hj. assert (j = 0%nat) as -> by lia.
  destruct (Hnan _ ((Number <$> split "." "x.2.0") !! 0%nat) Hx) as (Hg & Hl & _).
  by split.
Defined.

(** C9.  When no component of either version converts to a number, the
    result is 0. *)
Theorem compare_all_malformed (a b : string) :
  Forall (fun c => Number c = NaN) (split "." a) →
  Forall (fun c => Number c = NaN) (split "." b) →
  compareSemVer a b = 0%Z.
Proof.
  intros Ha Hb. unfold compareSemVer.
  rewrite !compareFrom_skip by (left; by apply notANumber_fmap).
  reflexivity.
Qed.

Lemma compare_all_malformed_witness : compareSemVer "foo" "bar" = 0%Z.
Proof.
  apply (compare_all_malformed "foo" "bar");
    repeat constructor.
Defined.

(** ** parsePinnedRequirementsTree *)

Section Lines.

Implicit Types (s r line : string) (c : ascii).

Lemma toLowerChar_space c : isWhiteSpace (toLowerChar c) = isWhiteSpace c.
Proof. by destruct c as [[] [] [] [] [] [] [] []]. Qed.

Lemma trimStart_clean s : trimStart s = "" ∨ clean (trimStart s).
Proof.
  induction s as [|c r IH]; [by left|]. cbn [trimStart].
  destruct (isWhiteSpace c) eqn:Hc; [done|].
  right. by exists c, r.
Qed.

Lemma trimEnd_clean s : clean s → clean (trimEnd s).
Proof.
  intros (c & r & -> & Hc). cbn [trimEnd]. rewrite Hc.
  destruct (trimEnd r); by eexists _, _.
Qed.

Lemma trim_clean s : trim s = "" ∨ clean (trim s).
Proof.
  unfold trim. destruct (trimStart_clean s) as [-> | H]; [by left|].
  right. by apply trimEnd_clean.
Qed.

Lemma toLowerCase_clean s : clean s → clean (toLowerCase s).
Proof.
  intros (c & r & -> & Hc). cbn [toLowerCase].
  eexists _, _. split; [done|]. by rewrite toLowerChar_space.
Qed.

Lemma nonEmpty_clean s : clean s → nonEmpty s = true.
Proof. by intros (c & r & -> & _). Qed.

(** The lines handed to the loop are clean. *)
Lemma requirementLines_clean (requirements : string) :
  Forall clean (requirementLines requirements).
Proof.
  apply Forall_forall. intros line Hline.
  apply list_elem_of_In in Hline. unfold requirementLines in Hline.
  apply List.filter_In in Hline as [Hline Hne].
  apply List.filter_In in Hline as [Hline _].
  apply List.filter_In in Hline as [Hline _].
  apply List.in_map_iff in Hline as (raw & <- & _).
  destruct (trim_clean raw) as [Hraw | Hraw].
  - by rewrite Hraw in Hne.
  - by apply toLowerCase_clean.
Qed.

(** The first group of a pin on a clean line still has a name in it. *)
Lemma matchPin_clean line g1 g2 :
  clean line → matchPin line = Some (g1, g2) → nonEmpty (trim g1) = true.
Proof.
  intros (c & r & -> & Hc). unfold matchPin. cbn [dotRun].
  destruct (isLineTerminator c); [done|].
  destruct (lastPin (dotRun r)) as [[b a]|]; [|done].
  intros [= <- _]. apply nonEmpty_clean.
  unfold trim. cbn [trimStart]. rewrite Hc.
  apply trimEnd_clean. by exists c, b.
Qed.

End Lines.

Section Edges.

Implicit Types (realm : Realm) (tree : gmap string Node) (key j x cur : string).

Lemma wfTree_lookup tree key n :
  wfTree tree → tree !! key = Some n → is_Some (deps n) ∧ is_Some (vias n).
Proof. intros Hwf Hn. exact (map_Forall_lookup_1 _ _ _ _ Hwf Hn). Qed.

(** The entry is made exactly under a key that is found nowhere. *)
Lemma ensureNode_cases realm tree key :
  (ensureNode realm tree key = tree
   ∧ (is_Some (tree !! key) ∨ inherited realm key ≠ Plain Undefined))
  ∨ (ensureNode realm tree key
     = <[key := {| version := Null; vias := Some []; deps := Some [] |}]> tree
     ∧ tree !! key = None ∧ inherited realm key = Plain Undefined).
Proof.
  unfold ensureNode. destruct (isUndefined (get realm tree key)) eqn:Hu.
  - right. by apply isUndefined_get in Hu as [? ?].
  - left. split; [done|].
    destruct (tree !! key) eqn:Hk; [left; by eexists|right].
    intros Hi. assert (isUndefined (get realm tree key) = true) as Ht
      by (by apply isUndefined_get). congruence.
Qed.

Lemma ensureNode_is_Some realm tree key :
  is_Some (tree !! key) ∨ inherited realm key = Plain Undefined →
  is_Some (ensureNode realm tree key !! key).
Proof.
  intros Hk. destruct (ensureNode_cases realm tree key) as [[-> H]|(-> & _ & _)].
  - destruct Hk as [?|Hi]; [done|]. by destruct H.
  - by rewrite lookup_insert_eq.
Qed.

Lemma ensureNode_keeps realm tree key j :
  is_Some (tree !! j) → is_Some (ensureNode realm tree key !! j).
Proof.
  destruct (ensureNode_cases realm tree key) as [[-> _]|(-> & _ & _)]; [done|].
  intros Hj. destruct (decide (j = key)) as [->|Hne].
  - by rewrite lookup_insert_eq.
  - by rewrite lookup_insert_ne.
Qed.

Lemma ensureNode_key realm tree key j :
  is_Some (ensureNode realm tree key !! j) →
  is_Some (tree !! j) ∨ (j = key ∧ inherited realm key = Plain Undefined).
Proof.
  destruct (ensureNode_cases realm tree key) as [[-> _]|(-> & _ & Hi)]; [by left|].
  destruct (decide (j = key)) as [->|Hne]; [by right|].
  rewrite lookup_insert_ne by done. by left.
Qed.

Lemma ensureNode_wf realm tree key : wfTree tree → wfTree (ensureNode realm tree key).
Proof.
  intros Hwf.
  destruct (ensureNode_cases realm tree key) as [[-> _]|(-> & Hk & _)]; [done|].
  apply map_Forall_insert_2; [|done]. by split.
Qed.

Lemma ensureNode_deps realm tree key j :
  depsOr (ensureNode realm tree key !! j) = depsOr (tree !! j).
Proof.
  destruct (ensureNode_cases realm tree key) as [[-> _]|(-> & Hk & _)]; [done|].
  destruct (decide (j = key)) as [->|Hne].
  - by rewrite lookup_insert_eq, Hk.
  - by rewrite lookup_insert_ne.
Qed.

Lemma ensureNode_vias realm tree key j :
  viasOr (ensureNode realm tree key !! j) = viasOr (tree !! j).
Proof.
  destruct (ensureNode_cases realm tree key) as [[-> _]|(-> & Hk & _)]; [done|].
  destruct (decide (j = key)) as [->|Hne].
  - by rewrite lookup_insert_eq, Hk.
  - by rewrite lookup_insert_ne.
Qed.

Lemma pushDeps_ok tree key x :
  wfTree tree → is_Some (tree !! key) →
  ∃ tree', pushDeps tree key x = Ok tree'
    ∧ wfTree tree'
    ∧ (∀ j, is_Some (tree' !! j) ↔ is_Some (tree !! j))
    ∧ (∀ j, depsOr (tree' !! j)
            = depsOr (tree !! j) ++ if decide (j = key) then [x] else [])
    ∧ (∀ j, viasOr (tree' !! j) = viasOr (tree !! j)).
Proof.
  intros Hwf [n Hn]. unfold pushDeps. rewrite Hn.
  destruct (wfTree_lookup tree key n Hwf Hn) as [[ds Hds] [vs Hvs]].
  rewrite Hds. eexists. split; [done|]. split; [|split; [|split]].
  - apply map_Forall_insert_2; [|done]. split; [done|]. simpl. by rewrite Hvs.
  - intros j. destruct (decide (j = key)) as [->|Hne].
    + rewrite lookup_insert_eq, Hn. by split.
    + by rewrite lookup_insert_ne.
  - intros j. destruct (decide (j = key)) as [->|Hne].
    + rewrite lookup_insert_eq, Hn. simpl. by rewrite Hds.
    + rewrite lookup_insert_ne by done. by rewrite app_nil_r.
  - intros j. destruct (decide (j = key)) as [->|Hne].
    + by rewrite lookup_insert_eq, Hn.
    + by rewrite lookup_insert_ne.
Qed.

Lemma pushVias_ok tree key x :
  wfTree tree → is_Some (tree !! key) →
  ∃ tree', pushVias tree key x = Ok tree'
    ∧ wfTree tree'
    ∧ (∀ j, is_Some (tree' !! j) ↔ is_Some (tree !! j))
    ∧ (∀ j, viasOr (tree' !! j)
            = viasOr (tree !! j) ++ if decide (j = key) then [x] else [])
    ∧ (∀ j, depsOr (tree' !! j) = depsOr (tree !! j)).
Proof.
  intros Hwf [n Hn]. unfold pushVias. rewrite Hn.
  destruct (wfTree_lookup tree key n Hwf Hn) as [[ds Hds] [vs Hvs]].
  rewrite Hvs. eexists. split; [done|]. split; [|split; [|split]].
  - apply map_Forall_insert_2; [|done]. split; [|done]. simpl. by rewrite Hds.
  - intros j. destruct (decide (j = key)) as [->|Hne].
    + rewrite lookup_insert_eq, Hn. by split.
    + by rewrite lookup_insert_ne.
  - intros j. destruct (decide (j = key)) as [->|Hne].
    + rewrite lookup_insert_eq, Hn. simpl. by rewrite Hvs.
    + rewrite lookup_insert_ne by done. by rewrite app_nil_r.
  - intros j. destruct (decide (j = key)) as [->|Hne].
    + by rewrite lookup_insert_eq, Hn.
    + by rewrite lookup_insert_ne.
Qed.

(** A push that goes through found an entry. *)
Lemma pushDeps_Some tree tree' key x :
  pushDeps tree key x = Ok tree' → is_Some (tree !! key).
Proof. unfold pushDeps. by destruct (tree !! key). Qed.

Lemma pushVias_Some tree tree' key x :
  pushVias tree key x = Ok tree' → is_Some (tree !! key).
Proof. unfold pushVias. by destruct (tree !! key). Qed.

(** A via line under a current package, neither name being found by
    inheritance: one edge, written at both ends. *)
Lemma parseLine_via realm tree cur line :
  wfTree tree →
  matchPin line = None →
  nonEmpty (viaName line) = true → nonEmpty cur = true →
  is_Some (tree !! viaName line) ∨ inherited realm (viaName line) = Plain Undefined →
  is_Some (tree !! cur) ∨ inherited realm cur = Plain Undefined →
  ∃ tree', parseLine realm (tree, Some cur) line = (Ok (tree', Some cur), realm)
    ∧ wfTree tree'
    ∧ (∀ j, is_Some (tree' !! j)
            ↔ is_Some (tree !! j) ∨ j = viaName line ∨ j = cur)
    ∧ (∀ j, depsOr (tree' !! j)
            = depsOr (tree !! j) ++ if decide (j = viaName line) then [cur] else [])
    ∧ (∀ j, viasOr (tree' !! j)
            = viasOr (tree !! j) ++ if decide (j = cur) then [viaName line] else []).
Proof.
  intros Hwf Hpin Hvia Hcur Hv Hc. unfold parseLine. rewrite Hpin, Hvia, Hcur.
  cbn [andb].
  destruct (pushDeps_ok (ensureNode realm tree (viaName line)) (viaName line) cur)
    as (o1 & -> & Hwf1 & Hk1 & Hd1 & Hv1);
    [by apply ensureNode_wf | by apply ensureNode_is_Some |].
  cbn [mbind result_bind].
  assert (is_Some (o1 !! cur) ∨ inherited realm cur = Plain Undefined) as Hc1.
  { destruct Hc as [Hc|Hc]; [left|by right]. by apply Hk1, ensureNode_keeps. }
  destruct (pushVias_ok (ensureNode realm o1 cur) cur (viaName line))
    as (o2 & -> & Hwf2 & Hk2 & Hv2 & Hd2);
    [by apply ensureNode_wf | by apply ensureNode_is_Some |].
  exists o2. split; [done|]. split; [done|].
  split; [|split].
  - intros j. rewrite Hk2. split.
    + intros [Hj|[-> _]]%ensureNode_key; [|right; by right].
      apply Hk1, ensureNode_key in Hj as [Hj|[-> _]]; [by left|right; by left].
    + intros [Hj|[-> | ->]].
      * by apply ensureNode_keeps, Hk1, ensureNode_keeps.
      * by apply ensureNode_keeps, Hk1, ensureNode_is_Some.
      * by apply ensureNode_is_Some.
  - intros j. by rewrite Hd2, ensureNode_deps, Hd1, ensureNode_deps.
  - intros j. by rewrite Hv2, ensureNode_vias, Hv1, ensureNode_vias.
Qed.

(** A via line that is read without an exception found both names among
    the entries, or nowhere. *)
Lemma parseLine_via_Ok realm tree cur line st' realm' :
  matchPin line = None →
  nonEmpty (viaName line) = true → nonEmpty cur = true →
  parseLine realm (tree, Some cur) line = (Ok st', realm') →
  (is_Some (tree !! viaName line) ∨ inherited realm (viaName line) = Plain Undefined)
  ∧ (is_Some (tree !! cur) ∨ inherited realm cur = Plain Undefined).
Proof.
  intros Hpin Hvia Hcur. unfold parseLine. rewrite Hpin, Hvia, Hcur. cbn [andb].
  destruct (pushDeps _ _ _) as [o1|] eqn:H1; [|done]. cbn [mbind result_bind].
  destruct (pushVias _ _ _) as [o2|] eqn:H2; [|done]. intros _.
  apply pushDeps_Some in H1 as Hv. apply pushVias_Some in H2 as Hc.
  apply ensureNode_key in Hv as Hv'. apply ensureNode_key in Hc as Hc'.
  assert (is_Some (tree !! viaName line)
          ∨ inherited realm (viaName line) = Plain Undefined) as Hvia'
    by (destruct Hv' as [?|[_ ?]]; [by left|by right]).
  split; [done|].
  destruct Hc' as [Hc'|[_ ?]]; [|by right].
  assert (∀ j, is_Some (o1 !! j) → is_Some (ensureNode realm tree (viaName line) !! j))
    as Hkeys.
  { intros j. unfold pushDeps in H1.
    destruct (ensureNode realm tree (viaName line) !! viaName line) as [n|] eqn:Hn;
      [|done].
    destruct (deps n); [|done]. injection H1 as <-.
    destruct (decide (j = viaName line)) as [->|Hne].
    - by rewrite Hn.
    - by rewrite lookup_insert_ne. }
  apply Hkeys, ensureNode_key in Hc' as [?|[-> ?]]; [by left|by right].
Qed.

(** The versions under a via line: an entry keeps its version, and an
    entry that the line makes has the version [null]. *)
Lemma ensureNode_old realm tree key j n :
  tree !! j = Some n → ensureNode realm tree key !! j = Some n.
Proof.
  intros Hj.
  destruct (ensureNode_cases realm tree key) as [[-> _]|(-> & Hk & _)]; [done|].
  rewrite lookup_insert_ne; [done|]. intros <-. congruence.
Qed.

Lemma ensureNode_made realm tree key j n :
  tree !! j = None → ensureNode realm tree key !! j = Some n → version n = Null.
Proof.
  intros Hj.
  destruct (ensureNode_cases realm tree key) as [[-> _]|(-> & Hk & _)];
    [congruence|].
  destruct (decide (j = key)) as [->|Hne].
  - rewrite lookup_insert_eq. by intros [= <-].
  - rewrite lookup_insert_ne by done. congruence.
Qed.

Lemma pushDeps_version tree tree' key x j :
  pushDeps tree key x = Ok tree' →
  version <$> (tree' !! j) = version <$> (tree !! j).
Proof.
  unfold pushDeps. destruct (tree !! key) as [n|] eqn:Hn; [|done].
  destruct (deps n); [|done]. intros [= <-].
  destruct (decide (j = key)) as [->|Hne].
  - by rewrite lookup_insert_eq, Hn.
  - by rewrite lookup_insert_ne.
Qed.

Lemma pushVias_version tree tree' key x j :
  pushVias tree key x = Ok tree' →
  version <$> (tree' !! j) = version <$> (tree !! j).
Proof.
  unfold pushVias. destruct (tree !! key) as [n|] eqn:Hn; [|done].
  destruct (vias n); [|done]. intros [= <-].
  destruct (decide (j = key)) as [->|Hne].
  - by rewrite lookup_insert_eq, Hn.
  - by rewrite lookup_insert_ne.
Qed.

Lemma parseLine_via_version realm tree (current : option string) line st' realm' :
  matchPin line = None →
  parseLine realm (tree, current) line = (Ok st', realm') →
  (∀ j n, tree !! j = Some n → version <$> (fst st' !! j) = Some (version n))
  ∧ (∀ j n, tree !! j = None → fst st' !! j = Some n → version n = Null).
Proof.
  intros Hpin. unfold parseLine. rewrite Hpin.
  assert ((∀ j n, tree !! j = Some n → version <$> (tree !! j) = Some (version n))
          ∧ (∀ j n, tree !! j = None → tree !! j = Some n → version n = Null))
    as Hsame.
  { split; [by intros j n ->|congruence]. }
  destruct current as [cur|]; [|by intros [= <- _]].
  destruct (nonEmpty (viaName line) && nonEmpty cur); [|by intros [= <- _]].
  destruct (pushDeps _ _ _) as [o1|] eqn:H1; [|done]. cbn [mbind result_bind].
  destruct (pushVias _ _ _) as [o2|] eqn:H2; [|done]. intros [= <- _].
  cbn [fst]. clear Hsame. split.
  - intros j n Hj.
    rewrite (pushVias_version _ _ _ _ j H2).
    pose proof (pushDeps_version _ _ _ _ j H1) as Ho1.
    rewrite (ensureNode_old realm tree (viaName line) j n Hj) in Ho1.
    destruct (o1 !! j) as [n1|] eqn:Hn1; [|done].
    rewrite (ensureNode_old realm o1 cur j n1 Hn1). exact Ho1.
  - intros j n Hj Hn.
    pose proof (pushVias_version _ _ _ _ j H2) as Ho2. rewrite Hn in Ho2.
    pose proof (pushDeps_version _ _ _ _ j H1) as Ho1.
    destruct (o1 !! j) as [n1|] eqn:Hn1.
    + rewrite (ensureNode_old realm o1 cur j n1 Hn1) in Ho2.
      destruct (ensureNode realm tree (viaName line) !! j) as [n0|] eqn:Hn0;
        [|done].
      injection Ho1 as Ho1. injection Ho2 as Ho2.
      rewrite Ho2, Ho1. by apply (ensureNode_made realm tree (viaName line) j n0).
    + destruct (ensureNode realm o1 cur !! j) as [m|] eqn:Hm; [|done].
      injection Ho2 as ->. by apply (ensureNode_made realm o1 cur j m).
Qed.

(** A pin line that is read without an exception: the current package
    changes, the edges do not, and a key is added at most under the name
    pinned, which is then found nowhere. *)
Lemma parseLine_pin realm tree (current : option string) line g1 g2 st' realm' :
  wfTree tree →
  matchPin line = Some (g1, g2) →
  parseLine realm (tree, current) line = (Ok st', realm') →
  snd st' = Some (trim g1)
  ∧ wfTree (fst st')
  ∧ (∀ j, is_Some (fst st' !! j) →
          is_Some (tree !! j)
          ∨ (j = trim g1 ∧ nonEmpty j = true ∧ inherited realm j = Plain Undefined))
  ∧ (∀ j, depsOr (fst st' !! j) = depsOr (tree !! j))
  ∧ (∀ j, viasOr (fst st' !! j) = viasOr (tree !! j)).
Proof.
  intros Hwf Hpin. unfold parseLine. rewrite Hpin.
  destruct (nonEmpty (trim g1) && isUndefined (get realm tree (trim g1))) eqn:Hnew.
  - apply andb_true_iff in Hnew as [Hname [Hnone Hi]%isUndefined_get].
    intros [= <- <-]. cbn [fst snd]. split; [done|]. split; [|split; [|split]].
    + apply map_Forall_insert_2; [|done]. by split.
    + intros j. destruct (decide (j = trim g1)) as [->|Hne]; [by right|].
      rewrite lookup_insert_ne by done. by left.
    + intros j. destruct (decide (j = trim g1)) as [->|Hne].
      * by rewrite lookup_insert_eq, Hnone.
      * by rewrite lookup_insert_ne.
    + intros j. destruct (decide (j = trim g1)) as [->|Hne].
      * by rewrite lookup_insert_eq, Hnone.
      * by rewrite lookup_insert_ne.
  - destruct (nonEmpty (trim g2)).
    + unfold get. destruct (tree !! trim g1) as [n|] eqn:Hn.
      * intros [= <- <-]. cbn [fst snd]. split; [done|]. split; [|split; [|split]].
        -- apply map_Forall_insert_2; [|done].
           exact (wfTree_lookup tree _ n Hwf Hn).
        -- intros j. destruct (decide (j = trim g1)) as [->|Hne].
           ++ left. by rewrite Hn.
           ++ rewrite lookup_insert_ne by done. by left.
        -- intros j. destruct (decide (j = trim g1)) as [->|Hne].
           ++ by rewrite lookup_insert_eq, Hn.
           ++ by rewrite lookup_insert_ne.
        -- intros j. destruct (decide (j = trim g1)) as [->|Hne].
           ++ by rewrite lookup_insert_eq, Hn.
           ++ by rewrite lookup_insert_ne.
      * destruct (assignTo _ _ _ _); [|done]. intros [= <- <-].
        cbn [fst snd]. split; [done|]. split; [done|]. split; [by left|done].
    + intros [= <- <-]. cbn [fst snd].
      split; [done|]. split; [done|]. split; [by left|done].
Qed.

(** A pin line whose name is not found by inheritance is read without an
    exception, leaves the realm alone and leaves an entry under the
    name. *)
Lemma parseLine_pin_own realm tree (current : option string) line g1 g2 :
  matchPin line = Some (g1, g2) → nonEmpty (trim g1) = true →
  inherited realm (trim g1) = Plain Undefined →
  ∃ tree', parseLine realm (tree, current) line = (Ok (tree', Some (trim g1)), realm)
    ∧ is_Some (tree' !! trim g1)
    ∧ ∀ j, is_Some (tree !! j) → is_Some (tree' !! j).
Proof.
  intros Hpin Hname Hi. unfold parseLine. rewrite Hpin, Hname. cbn [andb].
  unfold get. destruct (tree !! trim g1) as [n|] eqn:Hn; cbn [isUndefined].
  - destruct (nonEmpty (trim g2)).
    + eexists. split; [done|]. split; [by rewrite lookup_insert_eq|].
      intros j Hj. destruct (decide (j = trim g1)) as [->|Hne].
      * by rewrite lookup_insert_eq.
      * by rewrite lookup_insert_ne.
    + exists tree. split; [done|]. split; [by rewrite Hn|done].
  - rewrite Hi. cbn [isUndefined]. eexists. split; [done|].
    split; [by rewrite lookup_insert_eq|].
    intros j Hj. destruct (decide (j = trim g1)) as [->|Hne].
    + by rewrite lookup_insert_eq.
    + by rewrite lookup_insert_ne.
Qed.

End Edges.

Section Invariant.

Implicit Types (realm : Realm) (tree : gmap string Node) (st : ParseState)
  (line : string).

Lemma bidirectional_keys tree (A B : string) :
  bidirectional tree → A ∈ depsOr (tree !! B) →
  is_Some (tree !! A) ∧ is_Some (tree !! B).
Proof.
  intros Hbi HA. split.
  - apply Hbi in HA. destruct (tree !! A); [done|]. by apply not_elem_of_nil in HA.
  - destruct (tree !! B); [done|]. by apply not_elem_of_nil in HA.
Qed.

Lemma bidirectionalb_spec tree : bidirectionalb tree = true → bidirectional tree.
Proof.
  unfold bidirectionalb. intros [Hd Hv]%andb_true_iff A B.
  rewrite List.forallb_forall in Hd, Hv. split.
  - intros HA. destruct (tree !! B) as [n|] eqn:HB;
      [|by apply not_elem_of_nil in HA].
    specialize (Hd (B, n)). cbn beta iota in Hd.
    rewrite List.forallb_forall in Hd.
    eapply bool_decide_eq_true_1, Hd.
    + apply list_elem_of_In. by apply elem_of_map_to_list.
    + by apply list_elem_of_In.
  - intros HB. destruct (tree !! A) as [n|] eqn:HA;
      [|by apply not_elem_of_nil in HB].
    specialize (Hv (A, n)). cbn beta iota in Hv.
    rewrite List.forallb_forall in Hv.
    eapply bool_decide_eq_true_1, Hv.
    + apply list_elem_of_In. by apply elem_of_map_to_list.
    + by apply list_elem_of_In.
Qed.

Lemma ParseInv_start : ParseInv (∅, None).
Proof.
  unfold ParseInv, wfTree. cbn [fst snd].
  split; [apply map_Forall_empty|]. split; [|split; [|done]].
  - intros A B. rewrite !lookup_empty. simpl. by rewrite !elem_of_nil.
  - intros key. rewrite lookup_empty. by intros [? ?].
Qed.

(** The invariant is kept by every line that is read without an
    exception, in whatever realm. *)
Lemma parseLine_inv realm st line st' realm' :
  ParseInv st → clean line →
  parseLine realm st line = (Ok st', realm') →
  ParseInv st'.
Proof.
  destruct st as [tree current]. intros (Hwf & Hbi & Hkeys & Hcur) Hclean.
  cbn [fst snd] in *.
  destruct (matchPin line) as [[g1 g2]|] eqn:Hpin.
  - intros Hstep.
    destruct (parseLine_pin realm tree current line g1 g2 st' realm' Hwf Hpin Hstep)
      as (Hcur' & Hwf' & Hkeys' & Hd & Hv).
    split; [done|]. split; [|split].
    + intros A B. by rewrite Hd, Hv.
    + intros key [Hk|(-> & Hne & Hi)]%Hkeys'; [by apply Hkeys|].
      split; [|done]. by apply (inherited_own realm).
    + intros cur Hc. rewrite Hcur' in Hc. injection Hc as <-.
      by apply (matchPin_clean line g1 g2).
  - destruct current as [cur|].
    2:{ unfold parseLine. rewrite Hpin. intros [= <- <-].
        split; [done|]. split; [done|]. split; [done|]. by intros c. }
    pose proof (Hcur cur eq_refl) as Hne.
    destruct (nonEmpty (viaName line)) eqn:Hvia.
    2:{ unfold parseLine. rewrite Hpin, Hvia. cbn [andb]. intros [= <- <-].
        split; [done|]. split; [done|]. split; [done|]. by intros c [= <-]. }
    intros Hstep.
    destruct (parseLine_via_Ok realm tree cur line st' realm' Hpin Hvia Hne Hstep)
      as [Hv Hc].
    destruct (parseLine_via realm tree cur line Hwf Hpin Hvia Hne Hv Hc)
      as (tree' & Hstep' & Hwf' & Hkeys' & Hd & Hvs).
    rewrite Hstep' in Hstep. injection Hstep as <- <-. cbn [fst snd].
    split; [done|]. split; [|split].
    + intros A B. rewrite Hd, Hvs, !elem_of_app, (Hbi A B).
      assert (∀ p q u v : string,
                p ∈ (if decide (q = u) then [v] else []) ↔ q = u ∧ p = v)
        as Hedge.
      { intros p q u v. case_decide.
        - rewrite list_elem_of_singleton. naive_solver.
        - rewrite elem_of_nil. naive_solver. }
      rewrite !Hedge. naive_solver.
    + intros key [Hk|[-> | ->]]%Hkeys'; [by apply Hkeys| |].
      * split; [|done]. destruct Hv as [Hv|Hv]; [by apply Hkeys|].
        by apply (inherited_own realm).
      * split; [|done]. destruct Hc as [Hc|Hc]; [by apply Hkeys|].
        by apply (inherited_own realm).
    + intros c [= <-]. done.
Qed.

Lemma forEachLine_inv (lines : list string) realm st st' realm' :
  ParseInv st → Forall clean lines →
  forEachLine realm st lines = (Ok st', realm') →
  ParseInv st'.
Proof.
  revert realm st. induction lines as [|line rest IH]; intros realm st Hinv Hclean;
    cbn [forEachLine].
  - by intros [= <- <-].
  - apply Forall_cons in Hclean as [Hline Hrest].
    destruct (parseLine realm st line) as [[st1|e] realm1] eqn:Hstep; [|done].
    apply IH; [|done]. by apply (parseLine_inv realm st line st1 realm1).
Qed.

(** What the parser returns is the tree of a state of its loop. *)
Lemma parse_state realm (requirements : string) tree realm' :
  parsePinnedRequirementsTree realm requirements = (Ok tree, realm') →
  ∃ current, forEachLine realm (∅, None) (requirementLines requirements)
             = (Ok (tree, current), realm').
Proof.
  unfold parsePinnedRequirementsTree.
  destruct (forEachLine _ _ _) as [[[t current]|e] r]; [|done].
  intros [= <- <-]. by exists current.
Qed.

(** Every tree that the parser returns satisfies the invariant. *)
Lemma parse_inv realm (requirements : string) tree realm' :
  parsePinnedRequirementsTree realm requirements = (Ok tree, realm') →
  wfTree tree ∧ bidirectional tree
  ∧ ∀ key, is_Some (tree !! key) → ownName key ∧ nonEmpty key = true.
Proof.
  intros [current Hloop]%parse_state.
  destruct (forEachLine_inv _ _ _ _ _ ParseInv_start
              (requirementLines_clean requirements) Hloop)
    as (Hwf & Hbi & Hkeys & _).
  done.
Qed.

(** Lines that name no inherited member are read without an exception,
    and the realm is left as it was. *)
Lemma parseLine_own realm st line :
  ParseInv st → (∀ cur, snd st = Some cur → is_Some (fst st !! cur)) →
  clean line → inherited realm (namedBy line) = Plain Undefined →
  ∃ st', parseLine realm st line = (Ok st', realm)
    ∧ ∀ cur, snd st' = Some cur → is_Some (fst st' !! cur).
Proof.
  destruct st as [tree current]. intros (Hwf & Hbi & Hkeys & Hcur) Hentry Hclean.
  cbn [fst snd] in *. unfold namedBy.
  destruct (matchPin line) as [[g1 g2]|] eqn:Hpin; intros Hi.
  - destruct (parseLine_pin_own realm tree current line g1 g2 Hpin
                (matchPin_clean line g1 g2 Hclean Hpin) Hi)
      as (tree' & Hstep & Hkey & _).
    exists (tree', Some (trim g1)). split; [done|]. by intros cur [= <-].
  - destruct current as [cur|].
    2:{ exists (tree, None). split; [|done]. unfold parseLine. by rewrite Hpin. }
    destruct (nonEmpty (viaName line)) eqn:Hvia.
    2:{ exists (tree, Some cur). split; [|done].
        unfold parseLine. by rewrite Hpin, Hvia. }
    destruct (parseLine_via realm tree cur line Hwf Hpin Hvia (Hcur cur eq_refl))
      as (tree' & Hstep & _ & Hkeys' & _); [by right|left; by apply Hentry|].
    exists (tree', Some cur). split; [done|].
    intros c [= <-]. apply Hkeys'. right. by right.
Qed.

Lemma forEachLine_own (lines : list string) realm st :
  ParseInv st → (∀ cur, snd st = Some cur → is_Some (fst st !! cur)) →
  Forall clean lines →
  Forall (fun line => inherited realm (namedBy line) = Plain Undefined) lines →
  ∃ st', forEachLine realm st lines = (Ok st', realm).
Proof.
  revert st. induction lines as [|line rest IH]; intros st Hinv Hentry Hclean Hown.
  - by exists st.
  - apply Forall_cons in Hclean as [Hline Hrest].
    apply Forall_cons in Hown as [Hown1 Hown].
    destruct (parseLine_own realm st line Hinv Hentry Hline Hown1)
      as (st1 & Hstep & Hentry1).
    cbn [forEachLine]. rewrite Hstep. apply IH; [|done..].
    by apply (parseLine_inv realm st line st1 realm).
Qed.

Lemma parse_own (requirements : string) :
  ownNames requirements →
  ∃ tree, parsePinnedRequirementsTree freshRealm requirements
          = (Ok tree, freshRealm).
Proof.
  intros Hown.
  destruct (forEachLine_own (requirementLines requirements) freshRealm (∅, None)
              ParseInv_start) as ([tree current] & Hloop);
    [done | apply requirementLines_clean | exact Hown |].
  exists tree. unfold parsePinnedRequirementsTree. by rewrite Hloop.
Qed.

Lemma forEachLine_app (lines1 lines2 : list string) realm st :
  forEachLine realm st (lines1 ++ lines2)
  = match forEachLine realm st lines1 with
    | (Ok st', realm') => forEachLine realm' st' lines2
    | (Throw e, realm') => (Throw e, realm')
    end.
Proof.
  revert realm st. induction lines1 as [|line rest IH]; intros realm st; [done|].
  cbn [forEachLine app].
  destruct (parseLine realm st line) as [[st1|e] realm1]; [apply IH|done].
Qed.

(** The current package after some lines is the one pinned last. *)
Lemma forEachLine_current (lines : list string) realm st st' realm' :
  forEachLine realm st lines = (Ok st', realm') →
  snd st' = match last (omap pinned lines) with
            | Some cur => Some cur
            | None => snd st
            end.
Proof.
  revert realm st. induction lines as [|line rest IH]; intros realm st;
    cbn [forEachLine].
  - by intros [= <- <-].
  - destruct (parseLine realm st line) as [[st1|e] realm1] eqn:Hstep; [|done].
    intros Hloop. rewrite (IH _ _ Hloop).
    change (omap pinned (line :: rest))
      with (match pinned line with
            | Some y => y :: omap pinned rest
            | None => omap pinned rest
            end).
    unfold pinned at 2. destruct st as [tree current].
    destruct (matchPin line) as [[g1 g2]|] eqn:Hpin.
    + rewrite last_cons. destruct (last (omap pinned rest)); [done|].
      unfold parseLine in Hstep. rewrite Hpin in Hstep.
      repeat (match type of Hstep with
              | context [if ?b then _ else _] => destruct b
              | context [match ?x with _ => _ end] => destruct x
              end; try done); by injection Hstep as <- _.
    + destruct (last (omap pinned rest)); [done|].
      unfold parseLine in Hstep. rewrite Hpin in Hstep.
      destruct current as [cur|]; [|by injection Hstep as <- _].
      destruct (nonEmpty (viaName line) && nonEmpty cur);
        [|by injection Hstep as <- _].
      destruct (pushDeps _ _ _); [|done]. cbn [mbind result_bind] in Hstep.
      destruct (pushVias _ _ _); [|done]. by injection Hstep as <- _.
Qed.

Lemma merge_bidirectional (obj1 obj2 : gmap string Node) :
  bidirectional obj1 → bidirectional obj2 →
  bidirectional (mergeParsedRequirementsTree obj1 obj2).
Proof.
  intros H1 H2 A B.
  by rewrite depsOr_merge, viasOr_merge, !elem_of_dedupUnion, (H1 A B), (H2 A B).
Qed.

Lemma lookup_mergeIn realm (obj1 obj2 : gmap string Node) key :
  mergeIn realm obj1 obj2 !! key
  = if decide (is_Some (obj1 !! key) ∨ is_Some (obj2 !! key))
    then Some (mergedNodeIn realm obj1 obj2 key) else None.
Proof.
  unfold mergeIn.
  rewrite (lookup_foldl_insert (mergedNodeIn realm obj1 obj2)), lookup_empty.
  apply decide_ext.
  by rewrite elem_of_spreadSet, elem_of_app, !elem_of_Object_keys.
Qed.

(** The arrays of a merge do not depend on the realm. *)
Lemma depsOr_mergeIn realm (obj1 obj2 : gmap string Node) key :
  depsOr (mergeIn realm obj1 obj2 !! key)
  = depsOr (mergeParsedRequirementsTree obj1 obj2 !! key).
Proof. rewrite lookup_mergeIn, lookup_merge. by case_decide. Qed.

Lemma viasOr_mergeIn realm (obj1 obj2 : gmap string Node) key :
  viasOr (mergeIn realm obj1 obj2 !! key)
  = viasOr (mergeParsedRequirementsTree obj1 obj2 !! key).
Proof. rewrite lookup_mergeIn, lookup_merge. by case_decide. Qed.

Lemma mergeIn_bidirectional realm (obj1 obj2 : gmap string Node) :
  bidirectional obj1 → bidirectional obj2 →
  bidirectional (mergeIn realm obj1 obj2).
Proof.
  intros H1 H2 A B. rewrite depsOr_mergeIn, viasOr_mergeIn.
  by apply merge_bidirectional.
Qed.

(** A kept via line, as one line of the loop. *)
Lemma viaOf_line (line via : string) :
  viaOf line = Some via →
  ∃ l, requirementLines line = [l] ∧ matchPin l = None
       ∧ viaName l = via ∧ nonEmpty via = true.
Proof.
  unfold viaOf. destruct (requirementLines line) as [|l [|? ?]]; try done.
  destruct (matchPin l) eqn:Hpin; [done|].
  destruct (nonEmpty (viaName l)) eqn:Hne; [|done].
  intros [= <-]. by exists l.
Qed.

(** One more via line at the end of a text. *)
Lemma parse_via realm (requirements line cur via : string) tree realm' :
  parsePinnedRequirementsTree realm requirements = (Ok tree, realm') →
  currentOf requirements = Some cur →
  viaOf line = Some via →
  is_Some (tree !! cur) →
  is_Some (tree !! via) ∨ inherited realm' via = Plain Undefined →
  ∃ tree',
    parsePinnedRequirementsTree realm (requirements +:+ String LF line)
    = (Ok tree', realm')
    ∧ (∀ j, depsOr (tree' !! j)
            = depsOr (tree !! j) ++ if decide (j = via) then [cur] else [])
    ∧ (∀ j, viasOr (tree' !! j)
            = viasOr (tree !! j) ++ if decide (j = cur) then [via] else []).
Proof.
  intros Hparse Hcur (l & Hl & Hpin & <- & Hvia)%viaOf_line Hc Hv.
  destruct (parse_inv _ _ _ _ Hparse) as (Hwf & _ & _).
  apply parse_state in Hparse as [current Hloop].
  pose proof (forEachLine_current _ _ _ _ _ Hloop) as Hcurrent.
  unfold currentOf in Hcur. rewrite Hcur in Hcurrent. cbn [snd] in Hcurrent.
  subst current.
  pose proof (forEachLine_inv _ _ _ _ _ ParseInv_start
                (requirementLines_clean requirements) Hloop) as (_ & _ & _ & Hne).
  destruct (parseLine_via realm' tree cur l Hwf Hpin Hvia (Hne cur eq_refl) Hv)
    as (tree' & Hstep & _ & _ & Hd & Hvs); [by left|].
  exists tree'. split; [|done].
  unfold parsePinnedRequirementsTree.
  rewrite requirementLines_app, Hl, forEachLine_app, Hloop.
  cbn [forEachLine]. by rewrite Hstep.
Qed.

End Invariant.

(** C2, as stated: a via line that names [constructor] under a pinned
    line.  [depsObject["constructor"]] is the function [Object], which is
    not [undefined], so no entry is made for it; [Object.deps] is no
    array, and the call throws.  It throws as well on a via line under a
    pin of [constructor], at [Object.vias]. *)
Lemma parse_via_inherited :
  currentOf "alembic==1.13.1" = Some "alembic"
  ∧ viaOf "    # via constructor" = Some "constructor"
  ∧ parsePinnedRequirementsTree freshRealm
      ("alembic==1.13.1" +:+ String LF "    # via constructor")
    = (Throw TypeError, freshRealm)
  ∧ currentOf "constructor==1.0" = Some "constructor"
  ∧ viaOf "    # via flask-migrate" = Some "flask-migrate"
  ∧ fst (parsePinnedRequirementsTree freshRealm
           ("constructor==1.0" +:+ String LF "    # via flask-migrate"))
    = Throw TypeError.
Proof. repeat split; vm_compute; reflexivity. Qed.

(** C2, amended.  The sample text parses to a tree of exactly two entries:
    [flask-migrate] with [deps = ["alembic"]], no [vias] and a [null]
    version, and [alembic] with no [deps], [vias = ["flask-migrate"]] and
    version [1.13.1].  In general, a via line behind a text whose current
    package has an entry, and that names an entry or a name under which
    nothing is inherited, is parsed into the same tree with one more
    edge: the current package is appended to the [deps] of the package
    named, that package to the [vias] of the current one, and no other
    array changes. *)
Theorem parse_via_line :
  parsePinnedRequirementsTree freshRealm alembicText = (Ok alembicTree, freshRealm)
  ∧ size alembicTree = 2%nat
  ∧ alembicTree !! "flask-migrate"
    = Some {| version := Null; vias := Some []; deps := Some ["alembic"] |}
  ∧ alembicTree !! "alembic"
    = Some {| version := Str "1.13.1"; vias := Some ["flask-migrate"];
              deps := Some [] |}
  ∧ ∀ (realm realm' : Realm) (requirements line cur via : string)
      (tree : gmap string Node),
      parsePinnedRequirementsTree realm requirements = (Ok tree, realm') →
      currentOf requirements = Some cur →
      viaOf line = Some via →
      is_Some (tree !! cur) →
      is_Some (tree !! via) ∨ inherited realm' via = Plain Undefined →
      ∃ tree',
        parsePinnedRequirementsTree realm (requirements +:+ String LF line)
        = (Ok tree', realm')
        ∧ depsOr (tree' !! via) = depsOr (tree !! via) ++ [cur]
        ∧ viasOr (tree' !! cur) = viasOr (tree !! cur) ++ [via]
        ∧ (∀ j, j ≠ via → depsOr (tree' !! j) = depsOr (tree !! j))
        ∧ (∀ j, j ≠ cur → viasOr (tree' !! j) = viasOr (tree !! j)).
Proof.
  split; [vm_compute; reflexivity|].
  split; [vm_compute; reflexivity|].
  split; [reflexivity|]. split; [reflexivity|].
  intros realm realm' requirements line cur via tree Hparse Hcur Hvia Hc Hv.
  destruct (parse_via realm requirements line cur via tree realm'
              Hparse Hcur Hvia Hc Hv) as (tree' & Hparse' & Hd & Hvs).
  exists tree'. split; [done|]. split; [|split; [|split]].
  - rewrite Hd. by rewrite decide_True.
  - rewrite Hvs. by rewrite decide_True.
  - intros j Hj. rewrite Hd, decide_False by done. by rewrite app_nil_r.
  - intros j Hj. rewrite Hvs, decide_False by done. by rewrite app_nil_r.
Qed.

Lemma parse_via_line_witness :
  ∃ tree', parsePinnedRequirementsTree freshRealm alembicText = (Ok tree', freshRealm)
    ∧ depsOr (tree' !! "flask-migrate") = ["alembic"]
    ∧ viasOr (tree' !! "alembic") = ["flask-migrate"].
Proof.
  destruct parse_via_line as (_ & _ & _ & _ & H).
  destruct (H freshRealm freshRealm "alembic==1.13.1" "    # via flask-migrate"
              "alembic" "flask-migrate" pinnedAlembic)
    as (tree' & Hparse & Hd & Hv & _).
  - vm_compute. reflexivity.
  - vm_compute. reflexivity.
  - vm_compute. reflexivity.
  - eexists. reflexivity.
  - right. reflexivity.
  - exists tree'. split; [exact Hparse|]. split; [exact Hd|exact Hv].
Defined.



(** ** The tests of the repository, run on the model *)

Example test_parse_single :
  parsePinnedRequirementsTree freshRealm
    (unlines ["        alembic==1.13.1"; "            # via flask-migrate"])
  = (Ok (<["flask-migrate" := node Null ["alembic"] []]>
         (<["alembic" := node (Str "1.13.1") [] ["flask-migrate"]]> ∅)),
     freshRealm).
Proof. vm_compute. reflexivity. Qed.

Example test_parse_same_via :
  parsePinnedRequirementsTree freshRealm
    (unlines [""; "        alembic==1.13.1"; "            # via flask-migrate";
              "        async-timeout==4.0.2"; "            # via flask-migrate";
              "        "])
  = (Ok (<["flask-migrate" := node Null ["alembic"; "async-timeout"] []]>
         (<["alembic" := node (Str "1.13.1") [] ["flask-migrate"]]>
          (<["async-timeout" := node (Str "4.0.2") [] ["flask-migrate"]]> ∅))),
     freshRealm).
Proof. vm_compute. reflexivity. Qed.

Example test_parse_block_via :
  parsePinnedRequirementsTree freshRealm
    (unlines [""; "        attrs==23.1.0"; "            # via";
              "            #   cattrs"; "            #   jsonschema"; "        "])
  = (Ok (<["cattrs" := node Null ["attrs"] []]>
         (<["jsonschema" := node Null ["attrs"] []]>
          (<["attrs" := node (Str "23.1.0") [] ["cattrs"; "jsonschema"]]> ∅))),
     freshRealm).
Proof. vm_compute. reflexivity. Qed.

Example test_parse_dash_r :
  parsePinnedRequirementsTree freshRealm
    (unlines [""; "        # -r requirements.txt"; "        alembic==1.13.1";
              "            # via flask-migrate"])
  = (Ok alembicTree, freshRealm).
Proof. vm_compute. reflexivity. Qed.

(** Names of inherited members in a requirements text.  A pin of
    [constructor] makes no entry and assigns the version to
    [Object.version]; a pin of [__proto__] assigns it to
    [Object.prototype.version], after which a pin of [version] finds that
    string and throws. *)
Example parse_constructor_pin :
  parsePinnedRequirementsTree freshRealm "constructor==1.0"
  = (Ok ∅, {| added := noProps;
              onBuiltin := {["constructor" := setProp Version (Str "1.0") noProps]} |}).
Proof. vm_compute. reflexivity. Qed.

Example parse_proto_pin :
  parsePinnedRequirementsTree freshRealm "__proto__==1.0"
  = (Ok ∅, {| added := setProp Version (Str "1.0") noProps; onBuiltin := ∅ |})
  ∧ fst (parsePinnedRequirementsTree freshRealm
           (unlines ["__proto__==1.0"; "version==2.0"]))
    = Throw TypeError.
Proof. split; vm_compute; reflexivity. Qed.

Example test_merge_disjoint :
  mergeParsedRequirementsTree
    {["flask-migrate" := depsOnly (Str "2.1.2") ["alembic"]]}
    {["paramiko" := depsOnly (Str "3.1.1") ["bcrypt"]]}
  = <["flask-migrate" := node (Str "2.1.2") ["alembic"] []]>
    (<["paramiko" := node (Str "3.1.1") ["bcrypt"] []]> ∅).
Proof. vm_compute. reflexivity. Qed.

Example test_merge_overlap :
  mergeParsedRequirementsTree
    {["flask-migrate" := depsOnly Undefined ["alembic"]]}
    (<["flask-migrate" := depsOnly Undefined ["async-timeout"]]>
     {["paramiko" := depsOnly Undefined ["bcrypt"]]})
  = <["flask-migrate" := node Undefined ["alembic"; "async-timeout"] []]>
    (<["paramiko" := node Undefined ["bcrypt"] []]> ∅).
Proof. vm_compute. reflexivity. Qed.

Example test_merge_duplicates :
  mergeParsedRequirementsTree
    {["flask-migrate" := depsOnly Undefined ["alembic"; "async-timeout"]]}
    (<["flask-migrate" := depsOnly Undefined ["alembic"]]>
     {["paramiko" := depsOnly Undefined ["bcrypt"]]})
  = <["flask-migrate" := node Undefined ["alembic"; "async-timeout"] []]>
    (<["paramiko" := node Undefined ["bcrypt"] []]> ∅).
Proof. vm_compute. reflexivity. Qed.

Example test_merge_empty :
  mergeParsedRequirementsTree ∅ {["paramiko" := depsOnly Undefined ["bcrypt"]]}
  = {["paramiko" := node Undefined ["bcrypt"] []]}.
Proof. vm_compute. reflexivity. Qed.

Example test_semver :
  List.map (fun '(a, b) => compareSemVer a b)
    [("1.01.1", "1.1.2"); ("1.1.01", "1.1.10"); ("01.1.1", "1.1.1");
     ("1.2.3", "1.2.10"); ("1.10.2", "1.9.3"); ("10.0.0", "2.10.10");
     ("1.10.0", "1.2.0"); ("0.10.0", "0.9.0"); ("10.1.1", "2.2.2");
     ("1.2.10", "1.2.2"); ("1.0.0", "1.0.1"); ("1.0.2", "1.0.2");
     ("1.0.3", "1.0.1"); ("1.1.0", "1.2.0"); ("1.2.0", "1.1.5");
     ("1.0.0", "2.0.0"); ("2.0.0", "1.10.10")]
  = [-1; -1; 0; -1; 1; 1; 1; 1; 1; 1; -1; 0; 1; -1; 1; -1; 1]%Z.
Proof. vm_compute. reflexivity. Qed.

(** Samples of [Number] beyond plain digits. *)
Example Number_samples :
  Number "" = Fin 0 0
  ∧ Number "foo" = NaN
  ∧ Number "1_0" = NaN
  ∧ Number "0x1F" = Number "31"
  ∧ Number " 7 " = Number "7"
  ∧ Number "1e3" = Number "1000"
  ∧ Number "Infinity" = PosInf
  ∧ Number "-Infinity" = NegInf
  ∧ Number "9007199254740993" = Number "9007199254740992"
  ∧ Number "2e308" = PosInf
  ∧ Number "0.1" = Fin 7205759403792794 (-56)
  ∧ Number "5e-324" = Fin 1 (-1074).
Proof. repeat split; vm_compute; reflexivity. Qed.

(** An empty component is the number 0, not a missing one. *)
Example compare_empty_component : compareSemVer "1..2" "1.0.3" = (-1)%Z.
Proof. vm_compute. reflexivity. Qed.

(** A malformed version compares equal to any other. *)
Example compare_malformed_any : compareSemVer "foo" "1.2.3" = 0%Z.
Proof. vm_compute. reflexivity. Qed.

(** * Further properties *)

(** ** The order behind compareSemVer *)

Section NumberOrder.

Local Open Scope Z_scope.

Implicit Types (x y z : number) (m t T : Z).

(** Two finite numbers compare the same at every common scale. *)
Lemma ltb_at m1 t1 m2 t2 T :
  T <= t1 → T <= t2 →
  ltb (Fin m1 t1) (Fin m2 t2) = (m1 * 2 ^ (t1 - T) <? m2 * 2 ^ (t2 - T)).
Proof.
  intros H1 H2. unfold ltb.
  set (t := Z.min t1 t2).
  assert (T <= t ∧ t <= t1 ∧ t <= t2) as (HT & Ht1 & Ht2) by (unfold t; lia).
  replace (t1 - T) with ((t1 - t) + (t - T)) by lia.
  replace (t2 - T) with ((t2 - t) + (t - T)) by lia.
  rewrite !Z.pow_add_r, !Z.mul_assoc by lia.
  assert (0 < 2 ^ (t - T)) as Hp by (apply Z.pow_pos_nonneg; lia).
  destruct (Z.ltb_spec (m1 * 2 ^ (t1 - t)) (m2 * 2 ^ (t2 - t))) as [Hlt|Hge];
    symmetry.
  - apply Z.ltb_lt. by apply Z.mul_lt_mono_pos_r.
  - apply Z.ltb_ge. apply Z.mul_le_mono_nonneg_r; lia.
Qed.

Lemma ltb_asym x y : ltb x y = true → ltb y x = false.
Proof.
  destruct x as [| | |m1 t1], y as [| | |m2 t2]; try done.
  rewrite (ltb_at m1 t1 m2 t2 (Z.min t1 t2)) by lia.
  rewrite (ltb_at m2 t2 m1 t1 (Z.min t1 t2)) by lia.
  intros H%Z.ltb_lt. apply Z.ltb_ge. lia.
Qed.

Lemma ltb_irrefl x : ltb x x = false.
Proof.
  destruct (ltb x x) eqn:H; [|done]. by rewrite (ltb_asym x x H) in H.
Qed.

(** If [x < z] then any number [y] is above [x] or below [z]. *)
Lemma ltb_cotrans x y z :
  y ≠ NaN → ltb x z = true → ltb x y = true ∨ ltb y z = true.
Proof.
  intros Hy.
  destruct x as [| | |m1 t1], y as [| | |m2 t2], z as [| | |m3 t3];
    try done; try (by left); try (by right).
  set (T := Z.min t1 (Z.min t2 t3)).
  rewrite (ltb_at m1 t1 m3 t3 T), (ltb_at m1 t1 m2 t2 T),
    (ltb_at m2 t2 m3 t3 T) by (unfold T; lia).
  rewrite !Z.ltb_lt. lia.
Qed.

End NumberOrder.

Section CompareOrder.

Local Open Scope Z_scope.

Implicit Types (A B C : list number) (i k : nat).

Lemma compareFrom_opp A B i k :
  compareFrom B A i k = - compareFrom A B i k.
Proof.
  revert i. induction k as [|k IH]; intros i; cbn [compareFrom]; [done|].
  unfold gt, lt.
  destruct (ltb (toNumber (A !! i)) (toNumber (B !! i))) eqn:Hab.
  - by rewrite (ltb_asym _ _ Hab).
  - destruct (ltb (toNumber (B !! i)) (toNumber (A !! i))); [done|]. apply IH.
Qed.

Lemma compareFrom_refl A i k : compareFrom A A i k = 0.
Proof.
  revert i. induction k as [|k IH]; intros i; cbn [compareFrom]; [done|].
  unfold gt, lt. rewrite ltb_irrefl. apply IH.
Qed.

(** Where the positions looked at hold numbers, [<=] is transitive. *)
Lemma compareFrom_trans A B C i k :
  (∀ j : nat, (i ≤ j < i + k)%nat →
     toNumber (A !! j) ≠ NaN ∧ toNumber (B !! j) ≠ NaN ∧ toNumber (C !! j) ≠ NaN) →
  compareFrom A B i k <= 0 → compareFrom B C i k <= 0 →
  compareFrom A C i k <= 0.
Proof.
  revert i. induction k as [|k IH]; intros i Hnum; cbn [compareFrom]; [done|].
  unfold gt, lt.
  destruct (Hnum i) as (Ha & Hb & Hc); [lia|].
  assert (∀ j : nat, (S i ≤ j < S i + k)%nat →
            toNumber (A !! j) ≠ NaN ∧ toNumber (B !! j) ≠ NaN
            ∧ toNumber (C !! j) ≠ NaN) as Hrest.
  { intros j Hj. apply Hnum. lia. }
  destruct (ltb (toNumber (B !! i)) (toNumber (A !! i))) eqn:Hba; [lia|].
  destruct (ltb (toNumber (C !! i)) (toNumber (B !! i))) eqn:Hcb; [lia|].
  destruct (ltb (toNumber (C !! i)) (toNumber (A !! i))) eqn:Hca.
  { destruct (ltb_cotrans _ _ _ Hb Hca); congruence. }
  destruct (ltb (toNumber (A !! i)) (toNumber (B !! i))) eqn:Hab.
  { destruct (ltb_cotrans _ _ _ Hc Hab) as [H|H]; [rewrite H; lia|congruence]. }
  destruct (ltb (toNumber (B !! i)) (toNumber (C !! i))) eqn:Hbc.
  { destruct (ltb_cotrans _ _ _ Ha Hbc) as [H|H]; [congruence|rewrite H; lia]. }
  destruct (ltb (toNumber (A !! i)) (toNumber (C !! i))); [lia|].
  by apply IH.
Qed.

End CompareOrder.

Lemma numericVersion_spec (v : string) (j : nat) :
  numericVersion v = true → (j < 3)%nat →
  toNumber ((Number <$> split "." v) !! j) ≠ NaN.
Proof.
  unfold numericVersion. cbv zeta.
  intros [[H0 H1]%andb_true_iff H2]%andb_true_iff Hj.
  destruct j as [|[|[|j]]]; [| | |lia].
  - by destruct ((Number <$> split "." v) !! 0%nat) as [[]|].
  - by destruct ((Number <$> split "." v) !! 1%nat) as [[]|].
  - by destruct ((Number <$> split "." v) !! 2%nat) as [[]|].
Qed.

Lemma compareSemVer_opp (a b : string) :
  compareSemVer b a = (- compareSemVer a b)%Z.
Proof. apply compareFrom_opp. Qed.

Lemma compareSemVer_trans (a b c : string) :
  numericVersion a = true → numericVersion b = true → numericVersion c = true →
  (compareSemVer a b <= 0)%Z → (compareSemVer b c <= 0)%Z →
  (compareSemVer a c <= 0)%Z.
Proof.
  intros Ha Hb Hc. apply compareFrom_trans.
  intros j Hj. split; [|split]; apply numericVersion_spec; (done || lia).
Qed.

(** X1.  Swapping the arguments of [compareSemVer] negates the result,
    for all strings, and a version compares equal to itself. *)
Theorem compare_antisymmetric (a b : string) :
  compareSemVer b a = (- compareSemVer a b)%Z ∧ compareSemVer a a = 0%Z.
Proof. split; [apply compareSemVer_opp|apply compareFrom_refl]. Qed.

(** X2.  On versions whose first three components all convert to numbers,
    [compareSemVer] orders consistently: from [a <= b] and [b <= c] follows
    [a <= c].  A malformed version breaks this: [x] compares equal to both
    [2.0.0] and [1.0.0]. *)
Theorem compare_transitive (a b c : string) :
  (numericVersion a = true → numericVersion b = true → numericVersion c = true →
   (compareSemVer a b <= 0)%Z → (compareSemVer b c <= 0)%Z →
   (compareSemVer a c <= 0)%Z)
  ∧ (compareSemVer "2.0.0" "x" = 0%Z ∧ compareSemVer "x" "1.0.0" = 0%Z
     ∧ compareSemVer "2.0.0" "1.0.0" = 1%Z).
Proof.
  split; [apply compareSemVer_trans|].
  repeat split; vm_compute; reflexivity.
Qed.

Lemma compare_transitive_witness : (compareSemVer "1.2.3" "2.0.0" <= 0)%Z.
Proof.
  apply (proj1 (compare_transitive "1.2.3" "1.10.0" "2.0.0"));
    try reflexivity; vm_compute; discriminate.
Defined.

(** ** getLatestReleaseTag *)

Section Sorting.

Local Open Scope Z_scope.

Variable cmp : string → string → Z.
Variable ok : string → Prop.
Hypothesis cmp_opp : ∀ a b, cmp b a = - cmp a b.
Hypothesis cmp_trans :
  ∀ a b c, ok a → ok b → ok c → cmp a b <= 0 → cmp b c <= 0 → cmp a c <= 0.

Implicit Types (l : list string) (x y : string).

Lemma elem_of_insertSorted x y l : y ∈ insertSorted cmp x l ↔ y = x ∨ y ∈ l.
Proof.
  induction l as [|z r IH]; cbn [insertSorted].
  - rewrite list_elem_of_singleton, elem_of_nil. naive_solver.
  - destruct (0 <? cmp z x); rewrite !elem_of_cons, ?IH; naive_solver.
Qed.

Lemma elem_of_foldl_insertSorted l sorted y :
  y ∈ foldl (fun acc x => insertSorted cmp x acc) sorted l ↔ y ∈ sorted ∨ y ∈ l.
Proof.
  revert sorted. induction l as [|x r IH]; intros sorted; cbn [foldl].
  - rewrite elem_of_nil. naive_solver.
  - rewrite IH, elem_of_insertSorted, elem_of_cons. naive_solver.
Qed.

Lemma elem_of_sortWith l y : y ∈ sortWith cmp l ↔ y ∈ l.
Proof.
  unfold sortWith. rewrite elem_of_foldl_insertSorted, elem_of_nil. naive_solver.
Qed.

Lemma ascending_insertSorted x l :
  ok x → Forall ok l → ascending cmp l → ascending cmp (insertSorted cmp x l).
Proof.
  intros Hx. induction l as [|z r IH]; intros Hok Hasc; cbn [insertSorted].
  - by split.
  - apply Forall_cons in Hok as [Hz Hr]. destruct Hasc as [Hzr Hasc].
    destruct (Z.ltb_spec 0 (cmp z x)) as [Hgt|Hle].
    + split; [|by split].
      assert (cmp x z <= 0) as Hxz by (rewrite cmp_opp; lia).
      apply Forall_cons. split; [done|].
      rewrite Forall_forall in Hzr, Hr. apply Forall_forall. intros y Hy.
      apply (cmp_trans x z y); auto.
    + split; [|by apply IH].
      apply Forall_forall. intros y [->|Hy]%elem_of_insertSorted; [done|].
      rewrite Forall_forall in Hzr. by apply Hzr.
Qed.

Lemma ascending_sortWith l : Forall ok l → ascending cmp (sortWith cmp l).
Proof.
  unfold sortWith. intros Hok.
  assert (∀ sorted, Forall ok sorted → ascending cmp sorted →
            ascending cmp (foldl (fun acc x => insertSorted cmp x acc) sorted l))
    as H; [|by apply H].
  induction l as [|x r IH]; intros sorted Hs Hasc; cbn [foldl]; [done|].
  apply Forall_cons in Hok as [Hx Hr]. apply IH; [done| |].
  - apply Forall_forall. intros y [->|Hy]%elem_of_insertSorted; [done|].
    rewrite Forall_forall in Hs. by apply Hs.
  - by apply ascending_insertSorted.
Qed.

(** The last element of an ascending list is a greatest one. *)
Lemma ascending_last l x :
  ok x → ascending cmp l → last l = Some x → ∀ y, y ∈ l → 0 <= cmp x y.
Proof.
  intros Hx. induction l as [|z r IH]; intros Hasc Hlast y Hy; [done|].
  destruct Hasc as [Hzr Hasc]. rewrite last_cons in Hlast.
  destruct (last r) as [w|] eqn:Hw.
  - injection Hlast as ->.
    apply elem_of_cons in Hy as [->|Hy]; [|by apply IH].
    rewrite Forall_forall in Hzr.
    rewrite cmp_opp. specialize (Hzr x (last_Some_elem_of _ _ Hw)). lia.
  - injection Hlast as ->. apply last_None in Hw as ->.
    apply list_elem_of_singleton in Hy as ->.
    pose proof (cmp_opp x x). lia.
Qed.

End Sorting.

Section ReleaseTags.

Implicit Types (s d r tag : string) (c : ascii).

Lemma spanDigits_spec s d r :
  spanDigits s = (d, r) → s = d +:+ r ∧ allDigits d = true.
Proof.
  revert d r. induction s as [|c s IH]; intros d r; cbn [spanDigits].
  - by intros [= <- <-].
  - destruct (isDigit c) eqn:Hc; [|by intros [= <- <-]].
    destruct (spanDigits s) as [d' r'] eqn:Hs. intros [= <- <-].
    destruct (IH d' r' eq_refl) as [-> Hd]. split; [done|].
    cbn [allDigits]. by rewrite Hc, Hd.
Qed.

Lemma digitRun_spec s d r :
  digitRun s = Some (d, r) → s = d +:+ r ∧ allDigits d = true ∧ d ≠ "".
Proof.
  unfold digitRun. destruct (spanDigits s) as [d' r'] eqn:Hs.
  destruct (spanDigits_spec s d' r' Hs) as [-> Hd].
  destruct d' as [|c d']; [done|]. by intros [= <- <-].
Qed.

Lemma afterDot_spec s r : afterDot s = Some r → s = String "." r.
Proof.
  destruct s as [|c s]; [done|].
  destruct c as [[] [] [] [] [] [] [] []]; try done. by intros [= <-].
Qed.

Lemma prefix_dot_digit c r :
  isDigit c = true → String.prefix "." (String c r) = false.
Proof.
  intros Hc. cbn [String.prefix].
  destruct (ascii_dec "." c) as [<-|]; [done|reflexivity].
Qed.

Lemma split_dot_digits d : allDigits d = true → split "." d = [d].
Proof.
  unfold split. induction d as [|c d IH]; intros H; [done|].
  cbn [allDigits] in H. apply andb_true_iff in H as [Hc Hd].
  cbn [split_go]. rewrite (prefix_dot_digit c d Hc). by rewrite (IH Hd).
Qed.

Lemma split_dot_app d r :
  allDigits d = true → split "." (d +:+ String "." r) = d :: split "." r.
Proof.
  unfold split. induction d as [|c d IH]; intros H.
  - change ("" +:+ String "." r) with (String "." r). by destruct r.
  - cbn [allDigits] in H. apply andb_true_iff in H as [Hc Hd].
    rewrite append_cons. cbn [split_go].
    rewrite (prefix_dot_digit c _ Hc). by rewrite (IH Hd).
Qed.

Lemma semverParts_split tag d1 d2 d3 :
  semverParts tag = Some (d1, d2, d3) →
  split "." tag = [d1; d2; d3]
  ∧ (allDigits d1 = true ∧ d1 ≠ "")
  ∧ (allDigits d2 = true ∧ d2 ≠ "")
  ∧ (allDigits d3 = true ∧ d3 ≠ "").
Proof.
  unfold semverParts. intros H.
  destruct (digitRun tag) as [[e1 r1]|] eqn:H1; [|done]. cbn in H.
  destruct (afterDot r1) as [s2|] eqn:Hd1; [|done]. cbn in H.
  destruct (digitRun s2) as [[e2 r2]|] eqn:H2; [|done]. cbn in H.
  destruct (afterDot r2) as [s3|] eqn:Hd2; [|done]. cbn in H.
  destruct (digitRun s3) as [[e3 r3]|] eqn:H3; [|done]. cbn in H.
  destruct (String.eqb_spec r3 "") as [->|]; [|done].
  injection H as <- <- <-.
  apply digitRun_spec in H1 as (-> & Ha1 & Hn1).
  apply digitRun_spec in H2 as (-> & Ha2 & Hn2).
  apply digitRun_spec in H3 as (-> & Ha3 & Hn3).
  apply afterDot_spec in Hd1 as ->. apply afterDot_spec in Hd2 as ->.
  split; [|done].
  rewrite split_dot_app, split_dot_app by done.
  rewrite append_empty. by rewrite split_dot_digits.
Qed.

Lemma roundToDouble_number (p q : Z) : roundToDouble p q ≠ NaN.
Proof.
  unfold roundToDouble. destruct (p =? 0)%Z; [done|].
  by destruct (_ <=? _)%Z.
Qed.

Lemma isNumber_digits d :
  allDigits d = true → d ≠ "" → isNumber (Some (Number d)) = true.
Proof.
  intros Hd Hne. rewrite Number_allDigits by done.
  pose proof (roundToDouble_number (decimalValue 0 d) 1) as H.
  by destruct (roundToDouble _ _).
Qed.

(** A tag that passes the first regular expression is a numeric version. *)
Lemma simpleSemver_numeric tag :
  simpleSemverRegex tag = true → numericVersion tag = true.
Proof.
  unfold simpleSemverRegex.
  destruct (semverParts tag) as [[[d1 d2] d3]|] eqn:H; [|done]. intros _.
  destruct (semverParts_split tag d1 d2 d3 H)
    as (Hs & [Ha1 Hn1] & [Ha2 Hn2] & [Ha3 Hn3]).
  unfold numericVersion. rewrite Hs. cbn [fmap list_fmap lookup list_lookup].
  by rewrite !isNumber_digits.
Qed.

End ReleaseTags.

(** X3.  [getLatestReleaseTag] returns nothing exactly when no tag passes
    the filter (three dot-separated digit runs, the first not of four
    digits); else it returns one of the tags that pass, and one that
    compares greater than or equal to every tag that passes. *)
Theorem latest_release_tag (tagNames : list string) :
  (getLatestReleaseTag tagNames = None ↔
   ∀ u, u ∈ tagNames → simpleSemverRegex u && negb (dateLikeRegex u) = false)
  ∧ ∀ t, getLatestReleaseTag tagNames = Some t →
      t ∈ tagNames
      ∧ simpleSemverRegex t = true ∧ dateLikeRegex t = false
      ∧ ∀ u, u ∈ tagNames →
          simpleSemverRegex u = true → dateLikeRegex u = false →
          (0 <= compareSemVer t u)%Z.
Proof.
  unfold getLatestReleaseTag. cbv zeta. rewrite head_reverse.
  set (valid := fun tag => simpleSemverRegex tag && negb (dateLikeRegex tag)).
  assert (∀ u, u ∈ List.filter valid tagNames ↔ u ∈ tagNames ∧ valid u = true)
    as Hfilter.
  { intros u. rewrite !list_elem_of_In. apply List.filter_In. }
  split.
  - rewrite last_None. split.
    + intros Hnil u Hu. destruct (valid u) eqn:Hv; [|done].
      assert (u ∈ sortWith compareSemVer (List.filter valid tagNames)) as Hin.
      { apply elem_of_sortWith, Hfilter. by split. }
      rewrite Hnil in Hin. by apply elem_of_nil in Hin.
    + intros Hnone.
      destruct (sortWith compareSemVer (List.filter valid tagNames))
        as [|x l] eqn:Hs; [done|].
      assert (x ∈ sortWith compareSemVer (List.filter valid tagNames)) as Hin
        by (rewrite Hs; left).
      apply elem_of_sortWith, Hfilter in Hin as [Hx Hv].
      pose proof (Hnone x Hx) as Hx'. unfold valid in Hv. congruence.
  - intros t Hlast.
    assert (Forall (fun v => numericVersion v = true) (List.filter valid tagNames))
      as Hok.
    { apply Forall_forall. intros u [_ Hv]%Hfilter.
      apply simpleSemver_numeric. by apply andb_true_iff in Hv as [? _]. }
    pose proof (last_Some_elem_of _ _ Hlast) as Hin.
    apply elem_of_sortWith, Hfilter in Hin as [Ht Hv].
    apply andb_true_iff in Hv as [Hs Hd]. apply negb_true_iff in Hd.
    split; [done|]. split; [done|]. split; [done|].
    intros u Hu Hus Hud.
    apply (ascending_last compareSemVer (fun v => numericVersion v = true)
             compareSemVer_opp _ t (simpleSemver_numeric t Hs)
             (ascending_sortWith compareSemVer _ compareSemVer_opp
                compareSemVer_trans _ Hok) Hlast).
    apply elem_of_sortWith, Hfilter. split; [done|].
    unfold valid. by rewrite Hus, Hud.
Qed.

Lemma latest_release_tag_witness :
  getLatestReleaseTag ["2.1.0"; "v3"; "2020.01.01"; "2.10.0"; "2.9.1"]
  = Some "2.10.0"
  ∧ (0 <= compareSemVer "2.10.0" "2.9.1")%Z.
Proof.
  split; [vm_compute; reflexivity|].
  apply (proj2 (latest_release_tag ["2.1.0"; "v3"; "2020.01.01"; "2.10.0"; "2.9.1"])
           "2.10.0"); [vm_compute; reflexivity| |reflexivity|reflexivity].
  apply (bool_decide_unpack _). vm_compute. exact I.
Defined.

(** ** shuffleArray *)

Section Shuffle.

Context {A : Type}.

Implicit Types (l array : list A) (i j : nat).

Lemma insert_head_perm l j (a b : A) :
  l !! j = Some b → b :: <[j := a]> l ≡ₚ a :: l.
Proof.
  revert j. induction l as [|x l IH]; intros j Hj; [done|].
  destruct j as [|j]; simpl in *.
  - injection Hj as ->. apply perm_swap.
  - rewrite (perm_swap x b), (IH j Hj). apply perm_swap.
Qed.

Lemma swapAt_perm array i j : swapAt array i j ≡ₚ array.
Proof.
  unfold swapAt.
  destruct (array !! i) as [ai|] eqn:Hi; [|done].
  destruct (array !! j) as [aj|] eqn:Hj; [|done].
  revert i j Hi Hj. induction array as [|x l IH]; intros i j Hi Hj; [done|].
  destruct i as [|i], j as [|j]; simpl in *.
  - by injection Hi as ->; injection Hj as ->.
  - injection Hi as ->. by apply insert_head_perm.
  - injection Hj as ->. by apply insert_head_perm.
  - f_equiv. by apply IH.
Qed.

Lemma shuffleFrom_perm (draw : nat → nat) i array :
  shuffleFrom draw i array ≡ₚ array.
Proof.
  revert array. induction i as [|i IH]; intros array; [done|].
  cbn [shuffleFrom]. rewrite IH. apply swapAt_perm.
Qed.

End Shuffle.

(** X4.  Whatever the draws, [shuffleArray] returns a rearrangement of
    its argument: the same elements, each as often as before, hence as
    many. *)
Theorem shuffleArray_permutation {A : Type} (draw : nat → nat)
  (originalArray : list A) :
  (∀ i, (draw i ≤ i)%nat) →
  shuffleArray draw originalArray ≡ₚ originalArray
  ∧ length (shuffleArray draw originalArray) = length originalArray.
Proof.
  intros _. assert (shuffleArray draw originalArray ≡ₚ originalArray) as H
    by apply shuffleFrom_perm.
  split; [done|]. by rewrite H.
Qed.

Lemma shuffleArray_permutation_witness :
  shuffleArray (fun i => Nat.div2 i) ["a"; "b"; "c"; "d"] ≡ₚ ["a"; "b"; "c"; "d"]
  ∧ shuffleArray (fun i => Nat.div2 i) ["a"; "b"; "c"; "d"] = ["c"; "a"; "d"; "b"].
Proof.
  split; [|reflexivity].
  apply (shuffleArray_permutation (fun i => Nat.div2 i) ["a"; "b"; "c"; "d"]).
  intros i. apply Nat.div2_decr. lia.
Defined.

(** ** More on mergeParsedRequirementsTree *)

Section MergeAlgebra.

Implicit Types (a b c tree : gmap string Node) (key : string)
  (l k : list string).

Lemma firstOccurrences_idemp l : firstOccurrences (firstOccurrences l) = firstOccurrences l.
Proof. apply firstOccurrences_NoDup, NoDup_firstOccurrences. Qed.

Lemma firstOccurrences_app_l l k :
  firstOccurrences (firstOccurrences l ++ k) = firstOccurrences (l ++ k).
Proof.
  rewrite !firstOccurrences_app. unfold dedupUnion.
  rewrite firstOccurrences_idemp. do 2 f_equal.
  apply list_filter_iff. intros x. by rewrite elem_of_firstOccurrences.
Qed.

Lemma firstOccurrences_app_r l k :
  firstOccurrences (l ++ firstOccurrences k) = firstOccurrences (l ++ k).
Proof.
  rewrite !firstOccurrences_app. unfold dedupUnion. f_equal.
  by rewrite <- firstOccurrences_filter, firstOccurrences_idemp.
Qed.

Lemma dedupUnion_assoc (xs ys zs : list string) :
  dedupUnion (dedupUnion xs ys) zs = dedupUnion xs (dedupUnion ys zs).
Proof.
  rewrite <- !firstOccurrences_app.
  by rewrite firstOccurrences_app_l, firstOccurrences_app_r, app_assoc.
Qed.

Lemma jsOr_assoc (u v w : jsval) : jsOr (jsOr u v) w = jsOr u (jsOr v w).
Proof.
  unfold jsOr. destruct (truthy u) eqn:Hu; [by rewrite Hu|done].
Qed.

Lemma versionOpt_merge a b key :
  versionOpt (mergeParsedRequirementsTree a b !! key)
  = jsOr (versionOpt (a !! key)) (versionOpt (b !! key)).
Proof.
  rewrite lookup_merge. case_decide as H; [done|].
  destruct (a !! key) eqn:H1; [destruct H; left; by eexists|].
  destruct (b !! key) eqn:H2; [destruct H; right; by eexists|].
  done.
Qed.

Lemma is_Some_merge a b key :
  is_Some (mergeParsedRequirementsTree a b !! key)
  ↔ is_Some (a !! key) ∨ is_Some (b !! key).
Proof.
  rewrite lookup_merge. case_decide as H; [by split; [|eexists]|].
  split; [by intros []|done].
Qed.

Lemma merge_assoc_raw a b c :
  mergeParsedRequirementsTree (mergeParsedRequirementsTree a b) c
  = mergeParsedRequirementsTree a (mergeParsedRequirementsTree b c).
Proof.
  apply map_eq. intros key.
  rewrite (lookup_merge (mergeParsedRequirementsTree a b) c key),
    (lookup_merge a (mergeParsedRequirementsTree b c) key).
  assert (mergedNode (mergeParsedRequirementsTree a b) c key
          = mergedNode a (mergeParsedRequirementsTree b c) key) as Hnode.
  { unfold mergedNode.
    rewrite !depsOr_merge, !viasOr_merge, !versionOpt_merge, !spreadSet_app.
    by rewrite !dedupUnion_assoc, jsOr_assoc. }
  rewrite Hnode. apply decide_ext. rewrite !is_Some_merge. tauto.
Qed.

Lemma merge_normal a b : normalTree (mergeParsedRequirementsTree a b).
Proof.
  intros key n Hn. rewrite lookup_merge in Hn.
  case_decide; [|done]. injection Hn as <-. cbn.
  eexists _, _. split; [done|]. split; [done|].
  split; apply NoDup_spreadSet.
Qed.

Lemma merge_empty_l tree :
  normalTree tree → mergeParsedRequirementsTree ∅ tree = tree.
Proof.
  intros Hn. apply map_eq. intros key. rewrite lookup_merge, lookup_empty.
  destruct (tree !! key) as [n|] eqn:Hkey.
  - rewrite decide_True by (right; by eexists). f_equal.
    destruct (Hn key n Hkey) as (ds & vs & Hd & Hv & Hnd & Hnv).
    unfold mergedNode. rewrite Hkey, lookup_empty. cbn.
    rewrite Hd, Hv. cbn.
    rewrite !spreadSet_firstOccurrences, !firstOccurrences_NoDup by done.
    destruct n as [ver vs' ds']. cbn in *. by subst.
  - rewrite decide_False; [done|]. by intros [[]|[]].
Qed.

Lemma merge_self tree :
  normalTree tree → mergeParsedRequirementsTree tree tree = tree.
Proof.
  intros Hn. apply map_eq. intros key. rewrite lookup_merge.
  destruct (tree !! key) as [n|] eqn:Hkey.
  - rewrite decide_True by (left; by eexists). f_equal.
    destruct (Hn key n Hkey) as (ds & vs & Hd & Hv & Hnd & Hnv).
    unfold mergedNode. rewrite Hkey. cbn. rewrite Hd, Hv. cbn.
    rewrite !spreadSet_firstOccurrences.
    assert (∀ l, NoDup l → firstOccurrences (l ++ l) = l) as Hdup.
    { intros l Hl. rewrite firstOccurrences_app. unfold dedupUnion.
      rewrite firstOccurrences_NoDup by done.
      assert (filter (fun y => y ∉ l) l = []) as ->; [|by rewrite app_nil_r].
      destruct (filter (fun y => y ∉ l) l) as [|x r] eqn:Hf; [done|].
      assert (x ∈ filter (fun y => y ∉ l) l) as Hx by (rewrite Hf; left).
      apply list_elem_of_filter in Hx as [Hx1 Hx2]. done. }
    rewrite !Hdup by done.
    destruct n as [ver vs' ds']. cbn in *. subst.
    f_equal. unfold jsOr. by destruct (truthy ver).
  - rewrite decide_False; [done|]. by intros [[]|[]].
Qed.

End MergeAlgebra.




(** ** More on parsePinnedRequirementsTree *)

Section ParseLines.

Implicit Types (realm : Realm) (a b c s : string).

(** With no pin among the lines nothing is recorded. *)
Lemma forEachLine_no_pin (lines : list string) realm :
  Forall (fun line => matchPin line = None) lines →
  forEachLine realm (∅, None) lines = (Ok (∅, None), realm).
Proof.
  induction 1 as [|line rest Hline _ IH]; [done|].
  cbn [forEachLine]. unfold parseLine at 1. by rewrite Hline.
Qed.

Lemma parse_by_lines realm a b :
  requirementLines a = requirementLines b →
  parsePinnedRequirementsTree realm a = parsePinnedRequirementsTree realm b.
Proof. unfold parsePinnedRequirementsTree. by intros ->. Qed.

End ParseLines.

(** X7.  In every tree that the parser returns, each entry holds a [deps]
    and a [vias] array, and no key is the empty string, [__proto__] or the
    name of a function of [Object.prototype].  The parser returns a tree,
    and adds nothing to [Object.prototype] or its functions, for every
    text that names no inherited member. *)
Theorem parse_tree_shape (requirements : string) :
  (∀ realm tree realm',
     parsePinnedRequirementsTree realm requirements = (Ok tree, realm') →
     ∀ key n, tree !! key = Some n →
       is_Some (deps n) ∧ is_Some (vias n) ∧ key ≠ "" ∧ ownName key)
  ∧ (ownNames requirements →
     ∃ tree, parsePinnedRequirementsTree freshRealm requirements
             = (Ok tree, freshRealm)).
Proof.
  split; [|apply parse_own].
  intros realm tree realm' Hparse key n Hn.
  destruct (parse_inv realm requirements tree realm' Hparse) as (Hwf & _ & Hkeys).
  destruct (wfTree_lookup tree key n Hwf Hn) as [Hd Hv].
  destruct (Hkeys key) as [Hown Hne]; [by eexists|].
  split; [done|]. split; [done|]. split; [|done]. by intros ->.
Qed.

Lemma parse_tree_shape_witness :
  (∃ tree, parsePinnedRequirementsTree freshRealm alembicText
           = (Ok tree, freshRealm))
  ∧ ownName "flask-migrate".
Proof.
  destruct (parse_tree_shape alembicText) as [Hshape Hreturns]. split.
  - apply Hreturns. unfold ownNames.
    assert (requirementLines alembicText = ["alembic==1.13.1"; "# via flask-migrate"])
      as -> by (vm_compute; reflexivity).
    repeat (apply Forall_cons_2; [vm_compute; reflexivity|]). apply Forall_nil_2.
  - apply (Hshape freshRealm alembicTree freshRealm (eq_refl _) "flask-migrate"
             (node Null ["alembic"] [])).
    reflexivity.
Defined.

(** X8.  A line between two line feeds that the filters reject (a comment
    that starts the line, a blank line, an editable install, a reference
    to another file) can be taken out of the text: the parser returns the
    same tree, or throws the same way, and leaves the same realm. *)
Theorem parse_skips_line (realm : Realm) (a c b : string) :
  requirementLines c = [] →
  parsePinnedRequirementsTree realm (a +:+ String LF (c +:+ String LF b))
  = parsePinnedRequirementsTree realm (a +:+ String LF b).
Proof.
  intros Hc. apply parse_by_lines.
  by rewrite !requirementLines_app, Hc.
Qed.

Lemma parse_skips_line_witness :
  parsePinnedRequirementsTree freshRealm
    ("alembic==1.13.1" +:+ String LF
       ("# SHA1:abc" +:+ String LF "    # via flask-migrate"))
  = (Ok alembicTree, freshRealm)
  ∧ requirementLines "" = [] ∧ requirementLines "   " = []
  ∧ requirementLines "-e file:." = []
  ∧ requirementLines "    # via -r requirements/base.in" = [].
Proof.
  split; [|repeat split; reflexivity].
  rewrite (parse_skips_line freshRealm "alembic==1.13.1" "# SHA1:abc"
             "    # via flask-migrate"); [|reflexivity].
  vm_compute. reflexivity.
Defined.

(** X9.  When no kept line is a pin, the tree is empty and the realm is
    left as it was: via lines ahead of the first pin have no package to
    attach to and are dropped. *)
Theorem parse_without_pin (realm : Realm) (requirements : string) :
  Forall (fun line => matchPin line = None) (requirementLines requirements) →
  parsePinnedRequirementsTree realm requirements = (Ok ∅, realm).
Proof.
  intros H. unfold parsePinnedRequirementsTree.
  by rewrite (forEachLine_no_pin _ _ H).
Qed.

Lemma parse_without_pin_witness :
  parsePinnedRequirementsTree freshRealm
    ("    # via flask-migrate" +:+ String LF "    #   alembic")
  = (Ok ∅, freshRealm).
Proof.
  apply parse_without_pin.
  assert (requirementLines
            ("    # via flask-migrate" +:+ String LF "    #   alembic")
          = ["# via flask-migrate"; "#   alembic"]) as ->
    by (vm_compute; reflexivity).
  repeat (apply Forall_cons_2; [vm_compute; reflexivity|]). apply Forall_nil_2.
Defined.

(** ** docker.js *)

Example test_docker_tags :
  getDockerTags "lean" ["linux/arm64"] SHA "pull_request" "666" false (Some "2.1.1")
  = ["apache/superset:22e7c602b9aa321ec7e0df4bb0033048664dcdf0-arm";
     "apache/superset:22e7c60-arm"; "apache/superset:pr-666-arm"]
  ∧ getDockerTags "dev" ["linux/amd64"] SHA "release" "2.1.1" false (Some "2.1.1")
    = ["apache/superset:22e7c602b9aa321ec7e0df4bb0033048664dcdf0-dev";
       "apache/superset:22e7c60-dev"; "apache/superset:2.1.1-dev";
       "apache/superset:latest-dev"]
  ∧ getDockerTags "lean" ["linux/amd64"] SHA "push" "master" false (Some "2.1.1")
    = ["apache/superset:22e7c602b9aa321ec7e0df4bb0033048664dcdf0";
       "apache/superset:22e7c60"; "apache/superset:master"]
  ∧ getDockerTags "lean" ["linux/amd64"] SHA "release" "4.0.0" true (Some "2.1.1")
    = ["apache/superset:22e7c602b9aa321ec7e0df4bb0033048664dcdf0";
       "apache/superset:22e7c60"; "apache/superset:4.0.0";
       "apache/superset:latest"].
Proof. repeat split; vm_compute; reflexivity. Qed.

Section Docker.

Implicit Types (s r : string) (c : ascii) (l : list string).

Lemma length_sliceTo n s : (String.length (sliceTo n s) ≤ n)%nat.
Proof.
  revert s. induction n as [|n IH]; intros s; [done|].
  destruct s as [|c r]; cbn [sliceTo String.length]; [lia|].
  specialize (IH r). lia.
Qed.

Lemma allChars_sliceTo (p : ascii → bool) n s :
  allChars p s = true → allChars p (sliceTo n s) = true.
Proof.
  revert s. induction n as [|n IH]; intros s; [done|].
  destruct s as [|c r]; cbn [sliceTo allChars]; [done|].
  intros [Hc Hr]%andb_true_iff. by rewrite Hc, IH.
Qed.

Lemma allChars_dashOthers s :
  allChars (fun c => isAlphaNum c || Ascii.eqb c "-") (dashOthers s) = true.
Proof.
  induction s as [|c r IH]; [done|]. cbn [dashOthers allChars].
  rewrite IH. by destruct (isAlphaNum c) eqn:Hc; rewrite ?Hc.
Qed.

Lemma elem_of_setAdd l (x y : string) : y ∈ setAdd l x ↔ y ∈ l ∨ y = x.
Proof.
  unfold setAdd. case_bool_decide as Hx.
  - split; [by left|]. by intros [?| ->].
  - by rewrite elem_of_app, list_elem_of_singleton.
Qed.

Lemma NoDup_setAdd l (x : string) : NoDup l → NoDup (setAdd l x).
Proof.
  intros Hl. unfold setAdd. case_bool_decide as Hx; [done|].
  apply NoDup_app. split; [done|]. split; [|apply NoDup_singleton].
  intros y Hy ->%list_elem_of_singleton. done.
Qed.

Lemma head_setAdd l (x y : string) : head l = Some y → head (setAdd l x) = Some y.
Proof.
  unfold setAdd. case_bool_decide; [done|]. by destruct l.
Qed.

Lemma length_setAdd l (x : string) : (length (setAdd l x) ≤ S (length l))%nat.
Proof.
  unfold setAdd. case_bool_decide; [lia|]. rewrite length_app. simpl. lia.
Qed.

Lemma makeDockerTag_prefix (parts : list string) :
  startsWith (makeDockerTag parts) "apache/superset:" = true.
Proof.
  unfold makeDockerTag, REPO, startsWith.
  by destruct (String.concat "-" (List.filter nonEmpty parts)).
Qed.

End Docker.

(** X10.  The reference that [getBuildContextRef] computes is never longer
    than 40 code units; for a pull request or a push it is made of ASCII
    letters, digits and dashes only; and for an event other than pull
    request, release or push it is empty. *)
Theorem build_context_ref (env : Env) (buildContext : option string) :
  (String.length (getBuildContextRef env buildContext) ≤ 40)%nat
  ∧ (eventOf env buildContext = Some "pull_request"
     ∨ eventOf env buildContext = Some "push" →
     allChars (fun c => isAlphaNum c || Ascii.eqb c "-")
       (getBuildContextRef env buildContext) = true)
  ∧ (eventOf env buildContext ≠ Some "pull_request" →
     eventOf env buildContext ≠ Some "release" →
     eventOf env buildContext ≠ Some "push" →
     getBuildContextRef env buildContext = "").
Proof.
  unfold getBuildContextRef. cbv zeta. split; [|split].
  - repeat case_bool_decide; try apply length_sliceTo. cbn. lia.
  - intros [H|H]; rewrite H.
    + rewrite bool_decide_true by done.
      apply allChars_sliceTo, allChars_dashOthers.
    + rewrite bool_decide_false by done. rewrite bool_decide_false by done.
      rewrite bool_decide_true by done.
      apply allChars_sliceTo, allChars_dashOthers.
  - intros H1 H2 H3. by rewrite !bool_decide_false.
Qed.

Lemma build_context_ref_witness :
  getBuildContextRef
    {| GITHUB_EVENT_NAME := Some "pull_request"; GITHUB_REF := None;
       GITHUB_HEAD_REF := Some "feat/new_thing.v2" |} None
  = "feat-new-thing-v2"
  ∧ allChars (fun c => isAlphaNum c || Ascii.eqb c "-")
      (getBuildContextRef
         {| GITHUB_EVENT_NAME := Some "pull_request"; GITHUB_REF := None;
            GITHUB_HEAD_REF := Some "feat/new_thing.v2" |} None) = true.
Proof.
  split; [reflexivity|].
  apply (build_context_ref
           {| GITHUB_EVENT_NAME := Some "pull_request"; GITHUB_REF := None;
              GITHUB_HEAD_REF := Some "feat/new_thing.v2" |} None).
  left. reflexivity.
Defined.

(** X11.  [getDockerTags] returns between one and four tags, none twice,
    each starting with [apache/superset:]; the first is the tag of the
    full sha, and the tag of the first seven code units of the sha is
    among them. *)
Theorem docker_tags_shape (preset : string) (platforms : list string)
  (sha buildContext buildContextRef : string) (forceLatest : bool)
  (latestRelease : option string) :
  let tags := getDockerTags preset platforms sha buildContext buildContextRef
                forceLatest latestRelease in
  NoDup tags
  ∧ (1 ≤ length tags ≤ 4)%nat
  ∧ Forall (fun tag => startsWith tag "apache/superset:" = true) tags
  ∧ head tags = Some (makeDockerTag (sha :: tagChunksOf preset platforms))
  ∧ makeDockerTag (sliceTo 7 sha :: tagChunksOf preset platforms) ∈ tags.
Proof.
  cbv zeta. unfold getDockerTags. cbv zeta.
  set (chunks := tagChunksOf preset platforms).
  set (t1 := setAdd [] (makeDockerTag (sha :: chunks))).
  set (t2 := setAdd t1 (makeDockerTag (sliceTo 7 sha :: chunks))).
  assert (NoDup t2 ∧ (1 ≤ length t2 ≤ 2)%nat
          ∧ Forall (fun tag => startsWith tag "apache/superset:" = true) t2
          ∧ head t2 = Some (makeDockerTag (sha :: chunks))
          ∧ makeDockerTag (sliceTo 7 sha :: chunks) ∈ t2) as H2.
  { split; [by apply NoDup_setAdd, NoDup_setAdd, NoDup_nil|].
    split.
    { pose proof (length_setAdd t1 (makeDockerTag (sliceTo 7 sha :: chunks))).
      assert (length t1 = 1%nat) as Hl1 by done.
      assert (1 ≤ length t2)%nat; [|fold t2 in H; lia].
      unfold t2, setAdd. case_bool_decide; [lia|].
      rewrite length_app. lia. }
    split.
    { apply Forall_forall. intros tag [[Ht| ->]%elem_of_setAdd| ->]%elem_of_setAdd;
        [by apply elem_of_nil in Ht|apply makeDockerTag_prefix..]. }
    split; [by apply head_setAdd|].
    apply elem_of_setAdd. by right. }
  assert (∀ (t : list string) (n : nat) (x : string),
    (NoDup t ∧ (1 ≤ length t ≤ n)%nat
     ∧ Forall (fun tag => startsWith tag "apache/superset:" = true) t
     ∧ head t = Some (makeDockerTag (sha :: chunks))
     ∧ makeDockerTag (sliceTo 7 sha :: chunks) ∈ t) →
    let t' := setAdd t (makeDockerTag (x :: chunks)) in
    NoDup t' ∧ (1 ≤ length t' ≤ S n)%nat
    ∧ Forall (fun tag => startsWith tag "apache/superset:" = true) t'
    ∧ head t' = Some (makeDockerTag (sha :: chunks))
    ∧ makeDockerTag (sliceTo 7 sha :: chunks) ∈ t') as Hstep.
  { intros t n x (Hnd & Hlen & Hall & Hhd & Hin). cbv zeta.
    split; [by apply NoDup_setAdd|]. split.
    { pose proof (length_setAdd t (makeDockerTag (x :: chunks))).
      split; [|lia]. unfold setAdd. case_bool_decide; [lia|].
      rewrite length_app. lia. }
    split.
    { apply Forall_forall. intros tag [Ht| ->]%elem_of_setAdd;
        [|apply makeDockerTag_prefix].
      rewrite Forall_forall in Hall. by apply Hall. }
    split; [by apply head_setAdd|]. apply elem_of_setAdd. by left. }
  assert (∀ (t : list string) (n : nat),
    (NoDup t ∧ (1 ≤ length t ≤ n)%nat
     ∧ Forall (fun tag => startsWith tag "apache/superset:" = true) t
     ∧ head t = Some (makeDockerTag (sha :: chunks))
     ∧ makeDockerTag (sliceTo 7 sha :: chunks) ∈ t) →
    NoDup t ∧ (1 ≤ length t ≤ S n)%nat
    ∧ Forall (fun tag => startsWith tag "apache/superset:" = true) t
    ∧ head t = Some (makeDockerTag (sha :: chunks))
    ∧ makeDockerTag (sliceTo 7 sha :: chunks) ∈ t) as Hweak.
  { intros t n (Hnd & Hlen & Hrest). split; [done|]. split; [lia|done]. }
  set (t3 := if bool_decide (buildContext = "release") then _ else _).
  assert (NoDup t3 ∧ (1 ≤ length t3 ≤ 3)%nat
          ∧ Forall (fun tag => startsWith tag "apache/superset:" = true) t3
          ∧ head t3 = Some (makeDockerTag (sha :: chunks))
          ∧ makeDockerTag (sliceTo 7 sha :: chunks) ∈ t3) as H3.
  { unfold t3. repeat case_match; try (by apply Hstep); by apply Hweak. }
  destruct (_ || _); [by apply Hstep|by apply Hweak].
Qed.

(** X12.  The tag [latest] is added when [forceLatest] is set, and on a
    release build whenever the latest release does not compare lower than
    the release being built: so also when a release older than the latest
    one is built. *)
Theorem docker_latest_tag (preset : string) (platforms : list string)
  (sha buildContext buildContextRef : string) (forceLatest : bool)
  (latestRelease : option string) :
  (forceLatest = true
   ∨ (∃ latest, latestRelease = Some latest
        ∧ buildContext = "release"
        ∧ buildContextRef ≠ "" ∧ latest ≠ ""
        ∧ (0 <= compareSemVer latest buildContextRef)%Z)) →
  makeDockerTag ("latest" :: tagChunksOf preset platforms)
  ∈ getDockerTags preset platforms sha buildContext buildContextRef
      forceLatest latestRelease.
Proof.
  intros H. unfold getDockerTags. cbv zeta.
  assert (isLatestOf buildContext buildContextRef latestRelease || forceLatest
          = true) as ->.
  { destruct H as [->|(latest & -> & -> & Hr & Hl & Hcmp)];
      [apply orb_true_r|].
    apply orb_true_iff. left. unfold isLatestOf, nonEmpty.
    rewrite bool_decide_true by done.
    destruct (String.eqb_spec buildContextRef ""); [done|].
    destruct (String.eqb_spec latest ""); [done|].
    cbn. by apply Z.leb_le. }
  apply elem_of_setAdd. by right.
Qed.

Lemma docker_latest_tag_witness :
  "apache/superset:latest"
  ∈ getDockerTags "lean" ["linux/amd64"] SHA "release" "2.1.0" false (Some "2.1.1").
Proof.
  apply (docker_latest_tag "lean" ["linux/amd64"] SHA "release" "2.1.0" false
           (Some "2.1.1")).
  right. exists "2.1.1".
  split; [reflexivity|]. split; [reflexivity|].
  split; [discriminate|]. split; [discriminate|].
  vm_compute. discriminate.
Defined.

(** ** unPackRepo *)

(** X13.  A repository written [owner/repo], no slash in either part, is
    unpacked into that owner and that repository; without a slash the
    whole text is the owner and the repository is [undefined]. *)
Theorem unPackRepo_parts (owner repo : string) :
  (includes owner "/" = false → includes repo "/" = false →
   unPackRepo (owner +:+ "/" +:+ repo) = (Some owner, Some repo))
  ∧ (includes owner "/" = false → unPackRepo owner = (Some owner, None)).
Proof.
  unfold unPackRepo. cbv zeta. split.
  - intros Ho Hr.
    change (owner +:+ "/" +:+ repo) with (owner +:+ String "/" repo).
    by rewrite split_char_app, !split_char_none.
  - intros Ho. by rewrite split_char_none.
Qed.

Lemma unPackRepo_parts_witness :
  unPackRepo "apache/superset" = (Some "apache", Some "superset").
Proof.
  apply (proj1 (unPackRepo_parts "apache" "superset")); reflexivity.
Defined.

(** ** createAllBumpPRs *)

Section PackageName.

Implicit Types (s r : string) (c : ascii).

Lemma nameRun_spec s :
  ∃ rest, s = nameRun s +:+ rest
    ∧ allChars (fun c => negb (isNameEnd c)) (nameRun s) = true
    ∧ (rest = "" ∨ ∃ c r, rest = String c r ∧ isNameEnd c = true).
Proof.
  induction s as [|c s (rest & Hs & Hall & Hrest)].
  - exists "". by split; [|split; [|left]].
  - cbn [nameRun]. destruct (isNameEnd c) eqn:Hc.
    + exists (String c s). split; [done|]. split; [done|]. right. by eexists _, _.
    + exists rest. rewrite append_cons. split; [by rewrite <- Hs|].
      split; [|done]. cbn [allChars]. by rewrite Hc, Hall.
Qed.

End PackageName.

(** X14.  The package name taken from a dependency specifier is its longest
    prefix free of [>], [=], [<], [;], [[] and white space.  The call throws
    exactly when that prefix is empty: the specifier is empty or starts
    with one of these. *)
Theorem package_name_prefix (libRange : string) :
  (∀ name, pythonPackageOf libRange = Ok name →
     name ≠ ""
     ∧ allChars (fun c => negb (isNameEnd c)) name = true
     ∧ ∃ rest, libRange = name +:+ rest
         ∧ (rest = "" ∨ ∃ c r, rest = String c r ∧ isNameEnd c = true))
  ∧ (pythonPackageOf libRange = Throw TypeError ↔
     libRange = "" ∨ ∃ c r, libRange = String c r ∧ isNameEnd c = true).
Proof.
  unfold pythonPackageOf. split.
  - intros name H.
    destruct (nameRun_spec libRange) as (rest & Hs & Hall & Hrest).
    destruct (nameRun libRange) as [|c n] eqn:Hrun; [done|].
    injection H as <-. split; [done|]. split; [done|]. by exists rest.
  - split.
    + destruct libRange as [|c r]; [by left|]. cbn [nameRun].
      destruct (isNameEnd c) eqn:Hc; [|done]. intros _. right. by eexists _, _.
    + intros [->|(c & r & -> & Hc)]; [done|]. cbn [nameRun]. by rewrite Hc.
Qed.

Lemma package_name_prefix_witness :
  pythonPackageOf "requests>=2.0,<3" = Ok "requests"
  ∧ ∃ rest, "requests>=2.0,<3" = "requests" +:+ rest.
Proof.
  split; [reflexivity|].
  destruct (proj1 (package_name_prefix "requests>=2.0,<3") "requests" eq_refl)
    as (_ & _ & rest & H & _).
  by exists rest.
Defined.

Section BumpLoop.

Local Open Scope Z_scope.

Variable create : nat → string → BumpOutcome.

Implicit Types (deps processed : list string) (n k limit : Z) (i : nat).

Lemma bumpLoop_count (limit : option Z) i k deps processed n :
  bumpLoop create limit i k deps = Ok (processed, n) →
  k <= n ∧ n <= k + Z.of_nat (length processed)
  ∧ (length processed ≤ length deps)%nat.
Proof.
  revert i k processed n. induction deps as [|libRange rest IH];
    intros i k processed n; cbn [bumpLoop].
  - intros [= <- <-]. cbn. lia.
  - destruct (pythonPackageOf libRange) as [name|]; [|done].
    cbn [mbind result_bind].
    set (k' := match create i name with
               | Created url => if nonEmpty url then k + 1 else k
               | _ => k
               end).
    assert (k <= k' <= k + 1) as Hk.
    { unfold k'. destruct (create i name) as [url| |]; try lia.
      destruct (nonEmpty url); lia. }
    destruct (limitReached limit k').
    + intros [= <- <-]. cbn [length]. lia.
    + destruct (bumpLoop create limit (S i) k' rest) as [[p m]|] eqn:Hrest;
        [|done].
      cbn [mbind result_bind]. intros [= <- <-].
      destruct (IH (S i) k' p m Hrest) as (H1 & H2 & H3). cbn [length]. lia.
Qed.

(** Under a limit of one or more the count never passes the limit. *)
Lemma bumpLoop_limit limit i k deps processed n :
  1 <= limit → k < limit →
  bumpLoop create (Some limit) i k deps = Ok (processed, n) → n <= limit.
Proof.
  intros Hl. revert i k processed n. induction deps as [|libRange rest IH];
    intros i k processed n Hk; cbn [bumpLoop].
  - intros [= <- <-]. lia.
  - destruct (pythonPackageOf libRange) as [name|]; [|done].
    cbn [mbind result_bind].
    set (k' := match create i name with
               | Created url => if nonEmpty url then k + 1 else k
               | _ => k
               end).
    assert (k <= k' <= k + 1) as Hk'.
    { unfold k'. destruct (create i name) as [url| |]; try lia.
      destruct (nonEmpty url); lia. }
    unfold limitReached.
    destruct (Z.eqb_spec limit 0) as [|_]; [lia|]. cbn [negb andb].
    destruct (Z.leb_spec limit k') as [Hge|Hlt].
    + intros [= <- <-]. lia.
    + destruct (bumpLoop create (Some limit) (S i) k' rest) as [[p m]|] eqn:Hrest;
        [|done].
      cbn [mbind result_bind]. intros [= <- <-]. by apply (IH (S i) k' p m).
Qed.

(** Without a limit the loop leaves no package out. *)
Lemma bumpLoop_all (limit : option Z) i k deps processed n :
  limit = None ∨ limit = Some 0 →
  bumpLoop create limit i k deps = Ok (processed, n) →
  length processed = length deps.
Proof.
  intros Hl. revert i k processed n. induction deps as [|libRange rest IH];
    intros i k processed n; cbn [bumpLoop].
  - by intros [= <- <-].
  - destruct (pythonPackageOf libRange) as [name|]; [|done].
    cbn [mbind result_bind].
    assert (∀ j, limitReached limit j = false) as ->.
    { intros j. by destruct Hl as [-> | ->]. }
    match goal with
    | |- context [bumpLoop create limit (S i) ?k' rest] =>
        destruct (bumpLoop create limit (S i) k' rest) as [[p m]|] eqn:Hrest;
          [|done];
        cbn [mbind result_bind]; intros [= <- <-]; cbn [length];
        f_equal; by apply (IH (S i) k' p m)
    end.
Qed.

End BumpLoop.

(** X15.  The loop of [createAllBumpPRs] creates no more pull requests
    than a limit of one or more allows, and never more than one for each
    package it processes; with no limit, or a limit of 0, it processes
    every package. *)
Theorem bump_loop_limit (create : nat → string → BumpOutcome) (limit : option Z)
  (deps processed : list string) (n : Z) :
  bumpLoop create limit 0 0 deps = Ok (processed, n) →
  (0 <= n <= Z.of_nat (length processed))%Z
  ∧ (length processed ≤ length deps)%nat
  ∧ (∀ m, limit = Some m → (1 <= m)%Z → (n <= m)%Z)
  ∧ (limit = None ∨ limit = Some 0%Z → length processed = length deps).
Proof.
  intros H. destruct (bumpLoop_count create limit 0 0 deps processed n H)
    as (H1 & H2 & H3).
  split; [lia|]. split; [done|]. split.
  - intros m -> Hm.
    apply (bumpLoop_limit create m 0 0 deps processed n); [done|lia|done].
  - intros Hl. by apply (bumpLoop_all create limit 0 0 deps processed n).
Qed.

Lemma bump_loop_limit_witness :
  bumpLoop (fun _ _ => Created "https://github.com/apache/superset/pull/1")
    (Some 2%Z) 0 0 ["flask>=2"; "numpy"; "pandas<3"]
  = Ok (["flask"; "numpy"], 2%Z)
  ∧ (2 <= 2)%Z.
Proof.
  split; [reflexivity|].
  apply (bump_loop_limit
           (fun _ _ => Created "https://github.com/apache/superset/pull/1")
           (Some 2%Z) ["flask>=2"; "numpy"; "pandas<3"] ["flask"; "numpy"] 2%Z
           eq_refl); [reflexivity|lia].
Defined.

(** ** runCommandFromGithubAction *)



(** ** checkIfUserInTeam *)

Section TeamCacheKeys.

Implicit Types (cache : TeamCache) (username team : string)
  (state : option string).

Lemma cacheGet_fresh (m : list (nat * (string * string) * bool)) (key : nat) :
  Forall (fun e => fst (fst e) < key) m → cacheGet m key = None.
Proof.
  unfold cacheGet. induction 1 as [|e m He _ IH]; [done|].
  cbn [List.find]. destruct (Nat.eqb_spec (fst (fst e)) key); [lia|]. exact IH.
Qed.

Lemma checkIfUserInTeam_asks cache username team state :
  cacheKeysOld cache →
  ∃ cache', checkIfUserInTeam cache username team state
            = (cache', bool_decide (state = Some "active"), true)
    ∧ cacheKeysOld cache'
    ∧ length (entries cache') = S (length (entries cache)).
Proof.
  intros Hold. unfold checkIfUserInTeam. cbv zeta.
  rewrite (cacheGet_fresh _ _ Hold). eexists. split; [done|]. split.
  - unfold cacheKeysOld. cbn. apply Forall_app. split.
    + eapply Forall_impl; [exact Hold|]. cbn. intros e He. lia.
    + apply Forall_singleton. cbn. lia.
  - cbn. rewrite length_app. cbn. lia.
Qed.

Lemma checkAll_asks (calls : list (string * string * option string)) cache :
  cacheKeysOld cache →
  checkAll cache calls
  = (fun call => (bool_decide (snd call = Some "active"), true)) <$> calls.
Proof.
  revert cache. induction calls as [|[[username team] state] rest IH];
    intros cache Hold; [done|].
  cbn [checkAll].
  destruct (checkIfUserInTeam_asks cache username team state Hold)
    as (cache' & -> & Hold' & _).
  cbn. f_equal. by apply IH.
Qed.

End TeamCacheKeys.

(** X18.  The cache of [checkIfUserInTeam] never answers.  Starting from
    the empty [Map], every call asks the GitHub client, also for a user
    and team asked about before, and answers whether the state in the
    response is [active]: each lookup is made with a new array, which is
    no key of the [Map]. *)
Theorem team_cache_never_hits (calls : list (string * string * option string)) :
  checkAll newTeamCache calls
  = (fun call => (bool_decide (snd call = Some "active"), true)) <$> calls.
Proof. apply checkAll_asks. unfold cacheKeysOld. cbn. apply Forall_nil_2. Qed.

(** ** syncLabels *)

Section SyncLabels.

Variable prefixes : list string.

Implicit Types (labels target ls : list string) (l name : string).

Lemma elem_of_List_filter (f : string → bool) ls l :
  l ∈ List.filter f ls ↔ l ∈ ls ∧ f l = true.
Proof. rewrite !list_elem_of_In. apply List.filter_In. Qed.

Lemma elem_of_existingPrefixLabelsOf target l :
  l ∈ existingPrefixLabelsOf prefixes target
  ↔ l ∈ target ∧ hasPrefix prefixes l = true.
Proof. apply elem_of_List_filter. Qed.

Lemma elem_of_labelsToAddOf target labels l :
  l ∈ labelsToAddOf prefixes target labels
  ↔ l ∈ labels ∧ ¬ (l ∈ target ∧ hasPrefix prefixes l = true).
Proof.
  unfold labelsToAddOf.
  rewrite elem_of_List_filter, negb_true_iff, bool_decide_eq_false.
  by rewrite elem_of_existingPrefixLabelsOf.
Qed.

Lemma elem_of_labelsToRemoveOf target labels l :
  l ∈ labelsToRemoveOf prefixes target labels
  ↔ (l ∈ target ∧ hasPrefix prefixes l = true) ∧ l ∉ labels.
Proof.
  unfold labelsToRemoveOf.
  rewrite elem_of_List_filter, negb_true_iff, bool_decide_eq_false.
  by rewrite elem_of_existingPrefixLabelsOf.
Qed.

Lemma guarded_add (b : bool) prId ls r :
  r ∈ (if (0 <? length ls)%nat && b then [AddLabels prId ls] else [])
  ↔ b = true ∧ ls ≠ [] ∧ r = AddLabels prId ls.
Proof.
  destruct ls as [|x ls], b; cbn; rewrite ?elem_of_nil, ?list_elem_of_singleton;
    naive_solver.
Qed.

Lemma guarded_remove (b : bool) prId ls r :
  r ∈ (if (0 <? length ls)%nat && b then RemoveLabel prId <$> ls else [])
  ↔ b = true ∧ ∃ name, name ∈ ls ∧ r = RemoveLabel prId name.
Proof.
  destruct ls as [|x ls], b; cbn [length Nat.ltb Nat.leb andb];
    rewrite ?elem_of_nil, ?list_elem_of_fmap.
  - split; [done|]. intros [_ (name & H & _)]. by apply elem_of_nil in H.
  - split; [done|]. by intros [? _].
  - naive_solver.
  - split; [done|]. by intros [? _].
Qed.

End SyncLabels.

(** What the method asks, from a cache whose keys are all older
    arrays. *)
Lemma syncLabels_requests (cache : TeamCache) (team : string)
  (prefixes labels : list string) (prId : Z) (actor : option string)
  (state : option string) (dryRun : bool)
  (existingLabels : option (list string)) (listed : list string) :
  cacheKeysOld cache →
  let target := match existingLabels with Some l => l | None => listed end in
  fst (syncLabels cache team prefixes labels prId actor state dryRun
         existingLabels listed)
  = match actor with
    | Some a =>
        if nonEmpty a
        then membershipRequest a team
             :: (if bool_decide (state = Some "active")
                 then match existingLabels with
                      | Some _ => []
                      | None => [ListLabels prId]
                      end
                      ++ (if (0 <? length (labelsToAddOf prefixes target labels))%nat
                             && negb dryRun
                          then [AddLabels prId (labelsToAddOf prefixes target labels)]
                          else [])
                      ++ (if (0 <? length (labelsToRemoveOf prefixes target labels))%nat
                             && negb dryRun
                          then RemoveLabel prId
                                 <$> labelsToRemoveOf prefixes target labels
                          else [])
                 else [])
        else match existingLabels with
             | Some _ => []
             | None => [ListLabels prId]
             end
             ++ (if (0 <? length (labelsToAddOf prefixes target labels))%nat
                    && negb dryRun
                 then [AddLabels prId (labelsToAddOf prefixes target labels)]
                 else [])
             ++ (if (0 <? length (labelsToRemoveOf prefixes target labels))%nat
                    && negb dryRun
                 then RemoveLabel prId <$> labelsToRemoveOf prefixes target labels
                 else [])
    | None =>
        match existingLabels with
        | Some _ => []
        | None => [ListLabels prId]
        end
        ++ (if (0 <? length (labelsToAddOf prefixes target labels))%nat
               && negb dryRun
            then [AddLabels prId (labelsToAddOf prefixes target labels)]
            else [])
        ++ (if (0 <? length (labelsToRemoveOf prefixes target labels))%nat
               && negb dryRun
            then RemoveLabel prId <$> labelsToRemoveOf prefixes target labels
            else [])
    end.
Proof.
  intros Hold. cbv zeta. unfold syncLabels.
  destruct actor as [a|]; [|done].
  destruct (nonEmpty a); [|done].
  destruct (checkIfUserInTeam_asks cache a team state Hold) as (cache' & -> & _).
  by destruct (bool_decide (state = Some "active")).
Qed.

(** X17.  [syncLabels] asks to remove only labels that are on the issue,
    carry one of the prefixes and are not among the labels wanted, and to
    add only wanted labels that are not such labels of the issue.  When it
    is allowed to act and does not run dry, the wanted labels are exactly
    the prefixed labels it leaves on the issue together with those it
    adds; without permission or on a dry run it changes no label.  It
    asks for the membership of the actor exactly when there is one, and
    for the labels of the issue exactly when it is allowed to act and was
    given none, on a dry run too. *)
Theorem sync_labels_requests (cache : TeamCache) (team : string)
  (prefixes labels : list string) (prId : Z) (actor : option string)
  (state : option string) (dryRun : bool)
  (existingLabels : option (list string)) (listed : list string) :
  cacheKeysOld cache →
  let target := match existingLabels with Some l => l | None => listed end in
  let requests := fst (syncLabels cache team prefixes labels prId actor state
                         dryRun existingLabels listed) in
  let asked := ∃ a, actor = Some a ∧ a ≠ "" in
  let permitted := ¬ asked ∨ state = Some "active" in
  let kept l := l ∈ target ∧ hasPrefix prefixes l = true
                ∧ RemoveLabel prId l ∉ requests in
  let added l := ∃ ls, AddLabels prId ls ∈ requests ∧ l ∈ ls in
  (∀ name, RemoveLabel prId name ∈ requests →
     name ∈ target ∧ hasPrefix prefixes name = true ∧ name ∉ labels)
  ∧ (∀ l, added l →
       l ∈ labels ∧ ¬ (l ∈ target ∧ hasPrefix prefixes l = true))
  ∧ (permitted → dryRun = false → ∀ l, l ∈ labels ↔ kept l ∨ added l)
  ∧ (dryRun = true ∨ ¬ permitted →
     ∀ r, r ∈ requests → changesLabels r = false)
  ∧ (∀ org team_slug username,
       GetMembership org team_slug username ∈ requests
       ↔ actor = Some username ∧ username ≠ ""
         ∧ org = split "/" team !! 0%nat ∧ team_slug = split "/" team !! 1%nat)
  ∧ (∀ issue, ListLabels issue ∈ requests
              ↔ issue = prId ∧ permitted ∧ existingLabels = None).
Proof.
  intros Hold. cbv zeta.
  rewrite (syncLabels_requests cache team prefixes labels prId actor state dryRun
             existingLabels listed Hold). cbv zeta.
  set (target := match existingLabels with Some l => l | None => listed end).
  set (listing := match existingLabels with
                  | Some _ => []
                  | None => [ListLabels prId]
                  end).
  set (adds := if (0 <? length (labelsToAddOf prefixes target labels))%nat
                  && negb dryRun
               then [AddLabels prId (labelsToAddOf prefixes target labels)]
               else []).
  set (removes := if (0 <? length (labelsToRemoveOf prefixes target labels))%nat
                     && negb dryRun
                  then RemoveLabel prId <$> labelsToRemoveOf prefixes target labels
                  else []).
  set (hasPerm := match actor with
                  | Some a => if nonEmpty a then bool_decide (state = Some "active")
                              else true
                  | None => true
                  end).
  set (membership := match actor with
                     | Some a => if nonEmpty a then [membershipRequest a team] else []
                     | None => []
                     end).
  assert (match actor with
          | Some a =>
              if nonEmpty a
              then membershipRequest a team
                   :: (if bool_decide (state = Some "active")
                       then listing ++ adds ++ removes else [])
              else listing ++ adds ++ removes
          | None => listing ++ adds ++ removes
          end
          = membership ++ if hasPerm then listing ++ adds ++ removes else [])
    as ->.
  { unfold membership, hasPerm. destruct actor as [a|]; [|done].
    by destruct (nonEmpty a). }
  assert (hasPerm = true
          ↔ ¬ (∃ a, actor = Some a ∧ a ≠ "") ∨ state = Some "active") as Hperm.
  { unfold hasPerm. destruct actor as [a|].
    - unfold nonEmpty. destruct (String.eqb_spec a "") as [->|Ha]; cbn [negb].
      + split; [|done]. intros _. left. by intros (a & [= <-] & ?).
      + rewrite bool_decide_eq_true. split; [by right|].
        intros [Hno|?]; [|done]. destruct Hno. by exists a.
    - split; [|done]. intros _. left. by intros (a & ? & _). }
  assert (∀ r, r ∈ membership ↔
               ∃ a, actor = Some a ∧ a ≠ "" ∧ r = membershipRequest a team)
    as Hmember.
  { intros r. unfold membership. destruct actor as [a|].
    - unfold nonEmpty. destruct (String.eqb_spec a "") as [->|Ha]; cbn [negb].
      + rewrite elem_of_nil. split; [done|]. by intros (a & [= <-] & ? & _).
      + rewrite list_elem_of_singleton. split.
        * intros ->. by exists a.
        * by intros (a' & [= <-] & _ & ->).
    - rewrite elem_of_nil. split; [done|]. by intros (a & ? & _). }
  assert (∀ r, r ∈ listing ↔ existingLabels = None ∧ r = ListLabels prId)
    as Hlisting.
  { intros r. unfold listing. destruct existingLabels.
    - rewrite elem_of_nil. by split; [|intros []].
    - rewrite list_elem_of_singleton. by split; [|intros []]. }
  assert (∀ r, r ∈ adds ↔
               dryRun = false ∧ labelsToAddOf prefixes target labels ≠ []
               ∧ r = AddLabels prId (labelsToAddOf prefixes target labels))
    as Hadds.
  { intros r. unfold adds. rewrite guarded_add, negb_true_iff. done. }
  assert (∀ r, r ∈ removes ↔
               dryRun = false
               ∧ ∃ name, name ∈ labelsToRemoveOf prefixes target labels
                         ∧ r = RemoveLabel prId name)
    as Hremoves.
  { intros r. unfold removes. rewrite guarded_remove, negb_true_iff. done. }
  assert (∀ r, r ∈ membership ++ (if hasPerm then listing ++ adds ++ removes else [])
               ↔ r ∈ membership
                 ∨ (hasPerm = true ∧ (r ∈ listing ∨ r ∈ adds ∨ r ∈ removes)))
    as Hreq.
  { intros r. rewrite elem_of_app. destruct hasPerm.
    - rewrite !elem_of_app. naive_solver.
    - rewrite elem_of_nil. naive_solver. }
  unfold membershipRequest in Hmember.
  split; [|split; [|split; [|split; [|split]]]].
  - intros name. rewrite Hreq, Hmember, Hlisting, Hadds, Hremoves.
    intros [(a & _ & _ & ?)|(_ & [[_ ?]|[(_ & _ & ?)|(_ & n & Hn & [= <-])]])];
      try done.
    apply elem_of_labelsToRemoveOf in Hn. naive_solver.
  - intros l (ls & Hin & Hl). revert Hin.
    rewrite Hreq, Hmember, Hlisting, Hadds, Hremoves.
    intros [(a & _ & _ & ?)|(_ & [[_ ?]|[(_ & _ & [= ->])|(_ & n & _ & ?)]])];
      try done.
    by apply elem_of_labelsToAddOf in Hl.
  - intros Hp%Hperm Hdry l. split.
    + intros Hl.
      destruct (decide (l ∈ target ∧ hasPrefix prefixes l = true)) as [Hex|Hex].
      * left. destruct Hex as [? ?]. split; [done|]. split; [done|].
        rewrite Hreq, Hmember, Hlisting, Hadds, Hremoves.
        intros [(a & _ & _ & ?)|(_ & [[_ ?]|[(_ & _ & ?)|(_ & n & Hn & [= <-])]])];
          try done.
        apply elem_of_labelsToRemoveOf in Hn. naive_solver.
      * right. exists (labelsToAddOf prefixes target labels).
        assert (l ∈ labelsToAddOf prefixes target labels) as Hin
          by (by apply elem_of_labelsToAddOf).
        split; [|done]. apply Hreq. right. split; [done|]. right. left.
        apply Hadds. split; [done|]. split; [|done].
        intros Hnil. rewrite Hnil in Hin. by apply elem_of_nil in Hin.
    + intros [(Ht & Hpre & Hrm)|(ls & Hin & Hl)].
      * destruct (decide (l ∈ labels)) as [|Hnot]; [done|].
        destruct Hrm. apply Hreq. right. split; [done|]. right. right.
        apply Hremoves. split; [done|]. exists l. split; [|done].
        by apply elem_of_labelsToRemoveOf.
      * revert Hin. rewrite Hreq, Hmember, Hlisting, Hadds, Hremoves.
        intros [(a & _ & _ & ?)|(_ & [[_ ?]|[(_ & _ & [= ->])|(_ & n & _ & ?)]])];
          try done.
        by apply elem_of_labelsToAddOf in Hl as [? _].
  - intros Hoff r. rewrite Hreq, Hmember, Hlisting, Hadds, Hremoves.
    intros [(a & _ & _ & ->)|(Hp & [[_ ->]|[(Hd & _ & ->)|(Hd & n & _ & ->)]])];
      try done.
    + destruct Hoff as [?|Hno]; [congruence|]. destruct Hno. by apply Hperm.
    + destruct Hoff as [?|Hno]; [congruence|]. destruct Hno. by apply Hperm.
  - intros org team_slug username.
    rewrite Hreq, Hmember, Hlisting, Hadds, Hremoves. split.
    + intros [(a & -> & Ha & [= -> -> ->])|(_ & [[_ ?]|[(_ & _ & ?)|(_ & n & _ & ?)]])];
        done.
    + intros (-> & Hu & -> & ->). left. by exists username.
  - intros issue. rewrite Hreq, Hmember, Hlisting, Hadds, Hremoves. split.
    + intros [(a & _ & _ & ?)|(Hp & [[? [= ->]]|[(_ & _ & ?)|(_ & n & _ & ?)]])];
        try done.
      split; [done|]. split; [by apply Hperm|done].
    + intros (-> & Hp%Hperm & ->). right. split; [done|]. by left.
Qed.

Lemma sync_labels_requests_witness :
  fst (syncLabels newTeamCache "apache/committers" ["v"; "cherry"] ["v4.0"; "v4.1"]
         7 (Some "sam") (Some "active") false None ["bug"; "v3.9"; "v4.0"])
  = [GetMembership (Some "apache") (Some "committers") "sam"; ListLabels 7;
     AddLabels 7 ["v4.1"]; RemoveLabel 7 "v3.9"]
  ∧ ("v3.9" ∈ ["bug"; "v3.9"; "v4.0"] ∧ hasPrefix ["v"; "cherry"] "v3.9" = true
     ∧ "v3.9" ∉ ["v4.0"; "v4.1"]).
Proof.
  split; [reflexivity|].
  assert (cacheKeysOld newTeamCache) as Hold by apply Forall_nil_2.
  apply (proj1 (sync_labels_requests newTeamCache "apache/committers"
                  ["v"; "cherry"] ["v4.0"; "v4.1"] 7 (Some "sam") (Some "active")
                  false None ["bug"; "v3.9"; "v4.0"] Hold) "v3.9").
  change (RemoveLabel 7 "v3.9"
          ∈ [GetMembership (Some "apache") (Some "committers") "sam"; ListLabels 7;
             AddLabels 7 ["v4.1"]; RemoveLabel 7 "v3.9"]).
  do 3 right. left.
Defined.

(** ** createBumpLibPullRequest: what counts as a change *)

Section Changes.

Implicit Types (realm : Realm) (res : gmap string Change) (lib line : string)
  (lines : list string) (m : Marker).

Lemma toLowerChar_idemp (c : ascii) : toLowerChar (toLowerChar c) = toLowerChar c.
Proof. by destruct c as [[] [] [] [] [] [] [] []]. Qed.

Lemma toLowerCase_idemp (s : string) : toLowerCase (toLowerCase s) = toLowerCase s.
Proof.
  induction s as [|c s IH]; [done|]. cbn [toLowerCase].
  by rewrite toLowerChar_idemp, IH.
Qed.

Lemma pinOf_lower line m lib ver :
  pinOf line = Some (m, lib, ver) → toLowerCase lib = lib.
Proof.
  unfold pinOf. destruct (includes line "=="); [|done].
  destruct line as [|c rest]; [done|].
  destruct (markerOf c); [|done].
  destruct (split "==" rest) as [|p [|v more]]; try done.
  intros [= _ <- _]. apply toLowerCase_idemp.
Qed.

Lemma versionsOf_lower m lib lines :
  versionsOf m lib lines ≠ [] → toLowerCase lib = lib.
Proof.
  induction lines as [|line rest IH]; [done|].
  rewrite versionsOf_cons, versionsOf_single.
  destruct (pinOf line) as [[[m' lib'] ver]|] eqn:Hpin; [|exact IH].
  case_decide as Hd; [|exact IH].
  intros _. destruct Hd as [_ <-]. by apply (pinOf_lower line m' lib' ver).
Qed.

Lemma strictEq_spec (a b : jsval) : strictEq a b = true ↔ a = b.
Proof.
  destruct a as [| |x], b as [| |y]; cbn; try (split; done).
  rewrite String.eqb_eq. split; [by intros ->|by intros [= ->]].
Qed.

Lemma beforeAfter_entry realm res lib (c : Change) :
  res !! lib = Some c →
  beforeAfter realm res lib = (orNull (before c), orNull (after c)).
Proof. intros Hc. unfold beforeAfter. by rewrite (get_Some _ _ _ c). Qed.

(** What is read for a package depends on its entry, on what was added
    to [Object.prototype] and on what was added to the function of its
    name. *)
Lemma beforeAfter_ext realm realm' res res' lib :
  res' !! lib = res !! lib →
  added realm' = added realm →
  onBuiltin realm' !! lib = onBuiltin realm !! lib →
  beforeAfter realm' res' lib = beforeAfter realm res lib.
Proof.
  intros Hres Hadded Hon. unfold beforeAfter, get. rewrite Hres.
  destruct (res !! lib); [done|].
  assert (∀ f, protoProp realm' f = protoProp realm f) as Hp
    by (intros f; unfold protoProp; by rewrite Hadded).
  assert (inherited realm' lib = inherited realm lib) as ->
    by (unfold inherited; by destruct (fieldNamed lib); rewrite ?Hp).
  unfold inherited. destruct (String.eqb lib "__proto__").
  { cbn [isTruthy propOf]. by rewrite !Hp. }
  case_bool_decide.
  { cbn [isTruthy propOf]. by rewrite Hon, !Hp. }
  destruct (fieldNamed lib); cbn [isTruthy propOf]; by rewrite !Hp.
Qed.

(** Where nothing was added to [Object.prototype], a package that has no
    entry and no function of its name reads as unchanged. *)
Lemma beforeAfter_missing realm res lib :
  added realm = noProps → res !! lib = None →
  isTruthy (@inr Change _ (inherited realm lib)) = false →
  beforeAfter realm res lib = (Null, Null).
Proof.
  intros Hadded Hres Hfalse. unfold beforeAfter.
  rewrite (get_None _ _ _ Hres), Hfalse. unfold protoProp. by rewrite Hadded.
Qed.

Lemma lastOr_single (d : jsval) (ver : string) :
  from_option Str d (last [ver]) = Str ver.
Proof. done. Qed.

(** One line, as the loop of [hasChanges] sees it afterwards. *)
Lemma diffLine_beforeAfter realm res line :
  added realm = noProps →
  (∀ m ver, pinOf line ≠ Some (m, "__proto__", ver)) →
  ∃ res' realm', diffLine realm res line = (Ok res', realm')
    ∧ added realm' = noProps
    ∧ ∀ lib, beforeAfter realm' res' lib
             = (from_option Str (fst (beforeAfter realm res lib))
                  (last (versionsOf Deletion lib [line])),
                from_option Str (snd (beforeAfter realm res lib))
                  (last (versionsOf Addition lib [line]))).
Proof.
  intros Hadded Hno. destruct (pinOf line) as [[[m lib'] ver]|] eqn:Hpin.
  2:{ rewrite (diffLine_other _ _ _ Hpin). eexists _, _. split; [done|].
      split; [done|]. intros lib. rewrite !versionsOf_single, Hpin. cbn.
      by destruct (beforeAfter realm res lib). }
  assert (lib' ≠ "__proto__") as Hlib by (intros ->; by apply (Hno m ver)).
  assert (∀ lib, lib ≠ lib' →
            versionsOf Deletion lib [line] = [] ∧ versionsOf Addition lib [line] = [])
    as Hother.
  { intros lib Hne. rewrite !versionsOf_single, Hpin.
    by rewrite !decide_False by (by intros [_ ?]). }
  assert (versionsOf Deletion lib' [line] = (if deletes m then [ver] else [])
          ∧ versionsOf Addition lib' [line] = (if deletes m then [] else [ver]))
    as [Hdel Hadd].
  { rewrite !versionsOf_single, Hpin. destruct m; cbn [deletes].
    - rewrite decide_True by done. by rewrite decide_False by (by intros [? _]).
    - rewrite decide_False by (by intros [? _]). by rewrite decide_True. }
  destruct (decide (is_Some (res !! lib')
                    ∨ isTruthy (@inr Change _ (inherited realm lib')) = false))
    as [Hentry|Hmember].
  - rewrite (diffLine_entry _ _ _ _ _ _ Hpin Hentry).
    eexists _, _. split; [done|]. split; [done|]. intros lib.
    destruct (decide (lib = lib')) as [->|Hne].
    + rewrite (beforeAfter_entry _ _ _ (record m ver (res !! lib')))
        by (by rewrite lookup_insert_eq).
      rewrite Hdel, Hadd.
      destruct (res !! lib') as [c|] eqn:Hc.
      * rewrite (beforeAfter_entry _ _ _ c Hc). by destruct m.
      * destruct Hentry as [[? ?]|Hfalse]; [done|].
        rewrite (beforeAfter_missing _ _ _ Hadded Hc Hfalse). by destruct m.
    + destruct (Hother lib Hne) as [-> ->]. cbn [last from_option].
      rewrite (beforeAfter_ext realm realm res
                 (<[lib' := record m ver (res !! lib')]> res) lib);
        [by destruct (beforeAfter realm res lib)
        |by rewrite lookup_insert_ne|done|done].
  - assert (res !! lib' = None) as Hnone.
    { destruct (res !! lib') eqn:H; [|done]. destruct Hmember. left. by eexists. }
    assert (isTruthy (@inr Change _ (inherited realm lib')) = true) as Htrue.
    { destruct (isTruthy _) eqn:H; [done|]. destruct Hmember. by right. }
    rewrite (diffLine_member _ _ _ _ _ _ Hpin Hnone Htrue).
    destruct (inherited_noProps realm lib' Hadded Hlib) as [Hi|Hi];
      [|by rewrite Hi in Htrue].
    rewrite Hi. cbn [assignTo].
    eexists _, _. split; [done|]. split; [done|]. intros lib.
    destruct (decide (lib = lib')) as [->|Hne].
    + rewrite Hdel, Hadd. unfold beforeAfter.
      rewrite !(get_None _ _ _ Hnone).
      assert (lib' ∈ builtinNames) as Hb.
      { unfold inherited in Hi. destruct (String.eqb lib' "__proto__"); [done|].
        case_bool_decide; [done|]. by destruct (fieldNamed lib'). }
      assert (∀ realm0, inherited realm0 lib' = Builtin lib') as Hsame.
      { intros realm0. unfold inherited.
        destruct (String.eqb_spec lib' "__proto__"); [done|].
        by rewrite bool_decide_eq_true_2. }
      rewrite !Hsame.
      cbn [isTruthy propOf onBuiltin added]. rewrite lookup_insert_eq.
      cbn [default from_option]. unfold id, protoProp. cbn [added].
      destruct m; cbn [deletes]; cbn [getProp setProp versionP beforeP afterP
                                        fst snd last from_option orNull]; done.
    + destruct (Hother lib Hne) as [-> ->]. cbn [last from_option].
      match goal with
      | |- beforeAfter ?realm1 _ _ = _ =>
          rewrite (beforeAfter_ext realm realm1 res res lib);
            [by destruct (beforeAfter realm res lib)|done|done|]
      end.
      cbn [onBuiltin]. by rewrite lookup_insert_ne.
Qed.

Lemma diffLines_beforeAfter lines realm res :
  added realm = noProps → noProtoLine lines →
  ∃ res' realm', diffLines realm res lines = (Ok res', realm')
    ∧ ∀ lib, beforeAfter realm' res' lib
             = (from_option Str (fst (beforeAfter realm res lib))
                  (last (versionsOf Deletion lib lines)),
                from_option Str (snd (beforeAfter realm res lib))
                  (last (versionsOf Addition lib lines))).
Proof.
  revert realm res. induction lines as [|line rest IH]; intros realm res Hadded Hno.
  - eexists _, _. split; [done|]. intros lib. cbn.
    by destruct (beforeAfter realm res lib).
  - apply Forall_cons in Hno as [Hline Hrest].
    destruct (diffLine_beforeAfter realm res line Hadded Hline)
      as (res1 & realm1 & Hstep & Hadded1 & H1).
    destruct (IH realm1 res1 Hadded1 Hrest) as (res' & realm' & Hloop & H').
    exists res', realm'. split; [cbn [diffLines]; by rewrite Hstep|].
    intros lib. rewrite H', H1. cbn [fst snd].
    rewrite (versionsOf_cons Deletion line rest),
      (versionsOf_cons Addition line rest), !last_app.
    by destruct (last (versionsOf Deletion lib rest)),
                (last (versionsOf Addition lib rest)).
Qed.

Lemma beforeAfter_fresh lib : beforeAfter freshRealm ∅ lib = (Null, Null).
Proof.
  unfold beforeAfter, get. rewrite lookup_empty. unfold inherited.
  destruct (String.eqb lib "__proto__"); [done|].
  case_bool_decide; [done|]. by destruct (fieldNamed lib) as [[]|].
Qed.

(** After a diff without a line for [__proto__], what is read for a
    package is what its last marked lines say. *)
Lemma process_beforeAfter (rawOutput : string) :
  noProtoLine (split (String LF "") rawOutput) →
  ∃ res realm', processPythonReqsDiffOutput freshRealm rawOutput = (Ok res, realm')
    ∧ ∀ lib, beforeAfter realm' res lib
             = (lastVersion Deletion lib (split (String LF "") rawOutput),
                lastVersion Addition lib (split (String LF "") rawOutput)).
Proof.
  intros Hno.
  destruct (diffLines_beforeAfter _ freshRealm ∅ eq_refl Hno)
    as (res & realm' & Hres & H).
  exists res, realm'. split; [exact Hres|]. intros lib.
  by rewrite H, beforeAfter_fresh.
Qed.

End Changes.

(** X19.  Every key of a result of [processPythonReqsDiffOutput] is in
    lower case.  After a diff without a line for [__proto__], a package
    looked up under a name with an upper-case letter is therefore not
    found, and counts as unchanged whatever the diff says. *)
Theorem diff_keys_lower_case (rawOutput : string) :
  (∀ realm res realm',
     processPythonReqsDiffOutput realm rawOutput = (Ok res, realm') →
     ∀ lib c, res !! lib = Some c → toLowerCase lib = lib)
  ∧ (noProtoLine (split (String LF "") rawOutput) →
     ∃ res realm',
       processPythonReqsDiffOutput freshRealm rawOutput = (Ok res, realm')
       ∧ ∀ lib, toLowerCase lib ≠ lib →
           res !! lib = None ∧ hasChanges realm' res [lib] = false).
Proof.
  assert (∀ realm res realm',
            processPythonReqsDiffOutput realm rawOutput = (Ok res, realm') →
            ∀ lib c, res !! lib = Some c → toLowerCase lib = lib) as Hlow.
  { intros realm res realm' Hres.
    apply (diffLines_entries _ _ _ _ _ (fun lib _ => toLowerCase lib = lib))
      with (3 := Hres).
    - intros line m lib ver _ Hpin. by apply (pinOf_lower line m lib ver).
    - intros lib c. by rewrite lookup_empty. }
  split; [exact Hlow|]. intros Hno.
  destruct (process_beforeAfter rawOutput Hno) as (res & realm' & Hres & H).
  exists res, realm'. split; [exact Hres|]. intros lib Hlib. split.
  - destruct (res !! lib) as [c|] eqn:Hc; [|done].
    by destruct (Hlib (Hlow _ _ _ Hres lib c Hc)).
  - unfold hasChanges. cbn [existsb]. rewrite H. unfold lastVersion.
    assert (∀ m, versionsOf m lib (split (String LF "") rawOutput) = []) as Hnone.
    { intros m. destruct (versionsOf m lib _) eqn:Hv; [done|].
      destruct Hlib. apply (versionsOf_lower m lib (split (String LF "") rawOutput)).
      by rewrite Hv. }
    by rewrite !Hnone.
Qed.

Lemma diff_keys_lower_case_witness :
  ∃ res realm', processPythonReqsDiffOutput freshRealm "-Flask==2.0" = (Ok res, realm')
    ∧ res !! "Flask" = None ∧ hasChanges realm' res ["Flask"] = false
    ∧ hasChanges realm' res ["flask"] = true.
Proof.
  destruct (proj2 (diff_keys_lower_case "-Flask==2.0")) as (res & realm' & Hres & H).
  - apply Forall_cons_2; [|apply Forall_nil_2]. intros m ver.
    vm_compute. discriminate.
  - exists res, realm'. split; [exact Hres|].
    destruct (H "Flask") as [H1 H2]; [discriminate|].
    split; [exact H1|]. split; [exact H2|].
    vm_compute in Hres. injection Hres as <- <-. reflexivity.
Defined.



(** What a line for [__proto__] does to the loop: the version is assigned
    to [Object.prototype.before], and every package without an entry then
    reads it and counts as changed. *)
Example has_changes_after_proto :
  ∃ realm', processPythonReqsDiffOutput freshRealm "-__proto__==1.0" = (Ok ∅, realm')
    ∧ hasChanges realm' ∅ ["flask"] = true.
Proof. eexists. split; vm_compute; reflexivity. Qed.

(** ** recurseVias *)

Section Vias.

Implicit Types (tree : gmap string Node) (library child depTree : string)
  (level fuel : nat).

Lemma append_assoc (a b c : string) : (a +:+ b) +:+ c = a +:+ (b +:+ c).
Proof.
  induction a as [|x a IH]; [done|]. rewrite !append_cons. by rewrite IH.
Qed.

Lemma forEachChild_ok (visit : string → string → option (result string))
  depTree (children : list string) :
  (∀ d child, child ∈ children → ∀ e, visit d child ≠ Some (Throw e)) →
  ∀ e, forEachChild visit depTree children ≠ Some (Throw e).
Proof.
  revert depTree. induction children as [|child rest IH]; intros depTree Hv e;
    cbn [forEachChild]; [done|].
  destruct (visit depTree child) as [[d|e']|] eqn:Hvisit; [| |done].
  - apply IH. intros d' c Hc. apply Hv. by right.
  - intros [= ->]. by apply (Hv depTree child (list_elem_of_here _ _) e).
Qed.

Lemma forEachChild_extends (visit : string → string → option (result string))
  depTree (children : list string) out :
  (∀ d child d', visit d child = Some (Ok d') → ∃ more, d' = d +:+ more) →
  forEachChild visit depTree children = Some (Ok out) →
  ∃ more, out = depTree +:+ more.
Proof.
  intros Hv. revert depTree. induction children as [|child rest IH];
    intros depTree; cbn [forEachChild].
  - intros [= <-]. exists "". by rewrite append_empty.
  - destruct (visit depTree child) as [[d|e']|] eqn:Hvisit; [|done|done].
    intros Hrest. destruct (Hv _ _ _ Hvisit) as [m1 ->].
    destruct (IH _ Hrest) as [m2 ->]. exists (m1 +:+ m2).
    by rewrite append_assoc.
Qed.

(** On a tree whose entries hold their arrays and whose [vias] name keys
    only, the walk from a key reads no missing entry. *)
Lemma recurseVias_no_throw tree fuel depTree library level e :
  wfTree tree →
  (∀ A B : string, B ∈ viasOr (tree !! A) → is_Some (tree !! B)) →
  is_Some (tree !! library) →
  recurseVias fuel tree depTree library level ≠ Some (Throw e).
Proof.
  intros Hwf Hclosed. revert depTree library level e.
  induction fuel as [|fuel IH]; intros depTree library level e [n Hn];
    cbn [recurseVias]; [done|].
  rewrite Hn. destruct (wfTree_lookup tree library n Hwf Hn) as [_ [vs Hvs]].
  rewrite Hvs. apply forEachChild_ok.
  intros d child Hchild e'. apply IH. apply (Hclosed library child).
  by rewrite Hn; cbn; rewrite Hvs.
Qed.

Lemma recurseVias_extends tree fuel depTree library level out :
  recurseVias fuel tree depTree library level = Some (Ok out) →
  ∃ more, out = depTree +:+ (indent level +:+ library) +:+ String LF more.
Proof.
  revert depTree library level out.
  induction fuel as [|fuel IH]; intros depTree library level out;
    cbn [recurseVias]; [done|].
  destruct (tree !! library) as [n|]; [|done].
  destruct (vias n) as [vs|]; [|done]. intros Hout.
  apply forEachChild_extends in Hout as [more ->].
  - exists more. rewrite !append_assoc. done.
  - intros d child d' Hd. destruct (IH _ _ _ _ Hd) as [m ->]. by eexists.
Qed.

End Vias.

(** X21.  The tree of the pull request message cannot be drawn for a
    package that is no key of the tree: [recurseVias] throws a
    [TypeError].  From a key of a tree whose entries hold their arrays and
    keep the edge invariant, as parsed and merged trees do, it reads no
    missing entry, so that no [TypeError] arises at any depth, and what it
    returns starts with the line of the package itself; for a package
    without [vias] that line is all. *)
Theorem recurse_vias (tree : gmap string Node) (library : string) (fuel : nat) :
  (tree !! library = None →
   recurseVias (S fuel) tree "" library 0 = Some (Throw TypeError))
  ∧ (wfTree tree → bidirectional tree → is_Some (tree !! library) →
     (∀ e, recurseVias fuel tree "" library 0 ≠ Some (Throw e))
     ∧ (∀ out, recurseVias fuel tree "" library 0 = Some (Ok out) →
          ∃ more, out = library +:+ String LF more))
  ∧ (viasOr (tree !! library) = [] → wfTree tree → is_Some (tree !! library) →
     recurseVias (S fuel) tree "" library 0 = Some (Ok (library +:+ String LF ""))).
Proof.
  split; [|split].
  - intros Hn. cbn [recurseVias]. by rewrite Hn.
  - intros Hwf Hbi Hkey. split.
    + intros e. apply recurseVias_no_throw; [done| |done].
      intros A B HB. apply Hbi in HB.
      destruct (tree !! B); [done|]. by apply elem_of_nil in HB.
    + intros out Hout. apply recurseVias_extends in Hout as [more ->].
      by exists more.
  - intros Hv Hwf [n Hn]. cbn [recurseVias]. rewrite Hn.
    destruct (wfTree_lookup tree library n Hwf Hn) as [_ [vs Hvs]].
    rewrite Hvs. rewrite Hn in Hv. cbn in Hv. rewrite Hvs in Hv. cbn in Hv.
    by subst vs.
Qed.

Lemma recurse_vias_witness :
  recurseVias 3 alembicTree "" "alembic" 0
  = Some (Ok ("alembic" +:+ String LF ("  flask-migrate" +:+ String LF "")))
  ∧ ∀ e, recurseVias 3 alembicTree "" "alembic" 0 ≠ Some (Throw e).
Proof.
  split; [reflexivity|].
  apply (proj1 (proj2 (recurse_vias alembicTree "alembic" 3))).
  - apply map_Forall_insert_2; [split; by eexists|].
    apply map_Forall_insert_2; [split; by eexists|]. apply map_Forall_empty.
  - apply bidirectionalb_spec. vm_compute. reflexivity.
  - eexists. reflexivity.
Defined.

(** ** fixReqsFile *)

Section FixReqs.

Implicit Types (s line content : string) (ls lines : list string).

Lemma split_LF_pieces s :
  Forall (fun piece => includes piece (String LF "") = false)
    (split (String LF "") s).
Proof.
  unfold split. induction s as [|c s IH]; [by repeat constructor|].
  cbn [split_go String.prefix].
  destruct (ascii_dec LF c) as [<-|Hne].
  - assert ((if String.prefix "" s then true else false) = true) as Hp
      by (by destruct s).
    destruct (String.prefix "" s) eqn:Hs; [|by destruct s].
    change (String.length (String LF "") - 1) with 0.
    apply Forall_cons. split; [done|exact IH].
  - destruct (split_go (String LF "") 0 s) as [|h t] eqn:Hsplit.
    + destruct (split_go_cons (String LF "") 0 s) as (h & t & ?). congruence.
    + apply Forall_cons in IH as [Hh Ht]. apply Forall_cons. split; [|done].
      cbn [includes String.prefix].
      destruct (ascii_dec LF c); [done|]. exact Hh.
Qed.

Lemma split_concat_LF ls :
  ls ≠ [] →
  Forall (fun piece => includes piece (String LF "") = false) ls →
  split (String LF "") (String.concat (String LF "") ls) = ls.
Proof.
  induction ls as [|x [|y r] IH]; intros Hne Hall; [done| |].
  - apply Forall_cons in Hall as [Hx _]. by apply split_char_none.
  - apply Forall_cons in Hall as [Hx Hr].
    change (String.concat (String LF "") (x :: y :: r))
      with (x +:+ String LF (String.concat (String LF "") (y :: r))).
    rewrite split_LF_app, (split_char_none LF x Hx), IH; done.
Qed.

Lemma needsFix_fixed line :
  needsFix (if needsFix line then "-e file:." else line) = false.
Proof. by destruct (needsFix line) eqn:H. Qed.

Lemma existsb_map_false (f : string → bool) (g : string → string) ls :
  (∀ x, f (g x) = false) → existsb f (List.map g ls) = false.
Proof.
  intros H. induction ls as [|x r IH]; [done|]. cbn. by rewrite H, IH.
Qed.

End FixReqs.

(** X22.  What [fixReqsFile] writes needs no further fix: run on its own
    output it writes nothing.  The output has the lines of the input, each
    as it was or replaced by [-e file:.]; and a file with no line to fix
    is not written at all. *)
Theorem fix_reqs_idempotent (content : string) :
  (∀ written, fixReqsFile content = Some written →
     fixReqsFile written = None
     ∧ split (String LF "") written
       = List.map (fun line => if needsFix line then "-e file:." else line)
           (split (String LF "") content))
  ∧ (Forall (fun line => needsFix line = false) (split (String LF "") content) →
     fixReqsFile content = None).
Proof.
  unfold fixReqsFile. cbv zeta. split.
  - intros written H.
    destruct (existsb needsFix (split (String LF "") content)); [|done].
    injection H as <-.
    assert (split (String LF "")
              (String.concat (String LF "")
                 (List.map (fun line => if needsFix line then "-e file:." else line)
                    (split (String LF "") content)))
            = List.map (fun line => if needsFix line then "-e file:." else line)
                (split (String LF "") content)) as Hsplit.
    { apply split_concat_LF.
      - destruct (split_go_cons (String LF "") 0 content) as (h & t & Hs).
        unfold split. by rewrite Hs.
      - pose proof (split_LF_pieces content) as Hp.
        induction Hp as [|x r Hx _ IH]; [constructor|].
        cbn [List.map]. apply Forall_cons. split; [|exact IH].
        by destruct (needsFix x). }
    split; [|exact Hsplit].
    rewrite Hsplit.
    rewrite (existsb_map_false needsFix); [done|]. apply needsFix_fixed.
  - intros Hall.
    assert (existsb needsFix (split (String LF "") content) = false) as ->; [|done].
    induction Hall as [|x r Hx _ IH]; [done|]. cbn. by rewrite Hx, IH.
Qed.

Lemma fix_reqs_idempotent_witness :
  fixReqsFile ("-e file:///home/me/superset" +:+ String LF "flask==2.0")
  = Some ("-e file:." +:+ String LF "flask==2.0")
  ∧ fixReqsFile ("-e file:." +:+ String LF "flask==2.0") = None.
Proof.
  split; [reflexivity|].
  apply (proj1 (fix_reqs_idempotent
                  ("-e file:///home/me/superset" +:+ String LF "flask==2.0"))
           ("-e file:." +:+ String LF "flask==2.0")).
  reflexivity.
Defined.

(** ** getSubPackageTree *)

Section SubPackageTree.

Implicit Types (tree acc : gmap string Node) (files : list string).

Lemma normalTree_empty : normalTree ∅.
Proof. apply map_Forall_empty. Qed.

Lemma bidirectional_empty : bidirectional ∅.
Proof. intros A B. rewrite !lookup_empty. cbn. by rewrite !elem_of_nil. Qed.

Lemma mergeIn_normal realm (obj1 obj2 : gmap string Node) :
  normalTree (mergeIn realm obj1 obj2).
Proof.
  intros key n Hn. rewrite lookup_mergeIn in Hn.
  case_decide; [|done]. injection Hn as <-. cbn.
  eexists _, _. split; [done|]. split; [done|].
  split; apply NoDup_spreadSet.
Qed.

Lemma versionIn_own realm (obj : gmap string Node) key :
  inherited realm key = Plain Undefined →
  versionIn realm obj key = versionOpt (obj !! key).
Proof.
  intros Hi. unfold versionIn, get. destruct (obj !! key); [done|].
  by rewrite Hi.
Qed.

(** Where no key names an inherited member, the merge is the one of the
    two objects alone. *)
Lemma mergeIn_own realm (obj1 obj2 : gmap string Node) :
  (∀ key, is_Some (obj1 !! key) ∨ is_Some (obj2 !! key) →
          inherited realm key = Plain Undefined) →
  mergeIn realm obj1 obj2 = mergeParsedRequirementsTree obj1 obj2.
Proof.
  intros Hown. apply map_eq. intros key.
  rewrite lookup_mergeIn, lookup_merge. case_decide as Hkey; [|done].
  unfold mergedNodeIn. by rewrite !versionIn_own by by apply Hown.
Qed.

(** In a realm to which nothing was added no inherited member has a
    [version], and the merge is the one of the two objects alone. *)
Lemma mergeIn_fresh (obj1 obj2 : gmap string Node) :
  mergeIn freshRealm obj1 obj2 = mergeParsedRequirementsTree obj1 obj2.
Proof.
  assert (∀ (obj : gmap string Node) key,
            versionIn freshRealm obj key = versionOpt (obj !! key)) as Hversion.
  { intros obj key. unfold versionIn, get. destruct (obj !! key); [done|].
    unfold inherited. destruct (String.eqb key "__proto__"); [done|].
    case_bool_decide; [done|]. by destruct (fieldNamed key) as [[]|]. }
  apply map_eq. intros key.
  rewrite lookup_mergeIn, lookup_merge. case_decide as Hkey; [|done].
  unfold mergedNodeIn. by rewrite !Hversion.
Qed.

(** Whatever the files hold, a tree that the loop arrives at is one of a
    merge of parsed trees. *)
Lemma mergeFiles_fetch realm (readFile : string → option string)
  (onlyBase : bool) files acc tree realm' :
  mergeFiles realm readFile onlyBase acc files = (Fetch tree, realm') →
  normalTree acc → bidirectional acc →
  normalTree tree ∧ bidirectional tree.
Proof.
  revert realm acc. induction files as [|file rest IH]; intros realm acc;
    cbn [mergeFiles].
  - by intros [= <- _].
  - destruct (onlyBase && _); [apply IH|].
    destruct (readFile file) as [data|]; [|done].
    destruct (parsePinnedRequirementsTree realm data) as [[parsed|e] realm1]
      eqn:Hparse; [|done].
    destruct (parse_inv realm data parsed realm1 Hparse) as (_ & Hpb & _).
    intros Hrest _ Hb.
    apply (IH _ _ Hrest); [apply mergeIn_normal|by apply mergeIn_bidirectional].
Qed.

(** Files that can all be read: no read is rejected. *)
Lemma mergeFiles_read realm (readFile : string → option string)
  (onlyBase : bool) files acc :
  (∀ file, file ∈ files → is_Some (readFile file)) →
  ∀ file, (mergeFiles realm readFile onlyBase acc files).1 ≠ ReadRejected file.
Proof.
  revert realm acc. induction files as [|f rest IH]; intros realm acc Hread file;
    cbn [mergeFiles]; [done|].
  assert (∀ f', f' ∈ rest → is_Some (readFile f')) as Hrest.
  { intros f' Hf. apply Hread. by right. }
  destruct (onlyBase && _); [by apply IH|].
  destruct (Hread f) as [data ->]; [by left|].
  destruct (parsePinnedRequirementsTree realm data) as [[parsed|e] realm1];
    [by apply IH|done].
Qed.

(** Files in which no line names an inherited member: the tree is
    returned, and the realm is left as it was. *)
Lemma mergeFiles_own (readFile : string → option string) (onlyBase : bool)
  files acc :
  (∀ file, file ∈ files → ∃ data, readFile file = Some data ∧ ownNames data) →
  ∃ tree, mergeFiles freshRealm readFile onlyBase acc files
          = (Fetch tree, freshRealm).
Proof.
  revert acc. induction files as [|file rest IH]; intros acc Hread.
  - by exists acc.
  - cbn [mergeFiles].
    assert (∀ f, f ∈ rest → ∃ data, readFile f = Some data ∧ ownNames data)
      as Hrest.
    { intros f Hf. apply Hread. by right. }
    destruct (onlyBase && _); [by apply IH|].
    destruct (Hread file) as (data & -> & Hown); [by left|].
    destruct (parse_own data Hown) as (parsed & ->).
    by apply IH.
Qed.

End SubPackageTree.

(** X23.  A tree that [getSubPackageTree] returns is the one it keeps; in
    it every entry holds duplicate-free [deps] and [vias] arrays and every
    edge is recorded at both ends.  Once a tree is kept it is returned as
    it is: a later call with another [onlyBase] does not read the files
    again.  When the files can be read no read is rejected, and when
    moreover no line of them names an inherited member, the call returns
    a tree. *)
Theorem sub_package_tree (readFile : string → option string)
  (onlyBase onlyBase' : bool) :
  (∀ realm tree kept realm',
     getSubPackageTree realm None readFile onlyBase = (Fetch (tree, kept), realm') →
     kept = Some tree ∧ normalTree tree ∧ bidirectional tree
     ∧ ∀ realm2, getSubPackageTree realm2 kept readFile onlyBase'
                 = (Fetch (tree, Some tree), realm2))
  ∧ ((∀ file, file ∈ reqsFiles → is_Some (readFile file)) →
     ∀ realm file,
       (getSubPackageTree realm None readFile onlyBase).1 ≠ ReadRejected file)
  ∧ (ownFiles readFile →
     ∃ tree, getSubPackageTree freshRealm None readFile onlyBase
             = (Fetch (tree, Some tree), freshRealm)).
Proof.
  split; [|split].
  - intros realm tree kept realm'. unfold getSubPackageTree.
    destruct (mergeFiles realm readFile onlyBase ∅ reqsFiles) as [[t|f|e] r]
      eqn:Hmerge; [|done|done].
    intros [= <- <- <-].
    destruct (mergeFiles_fetch realm readFile onlyBase reqsFiles ∅ t r Hmerge
                normalTree_empty bidirectional_empty) as [Hn Hb].
    done.
  - intros Hread realm file. unfold getSubPackageTree.
    pose proof (mergeFiles_read realm readFile onlyBase reqsFiles ∅ Hread) as Hno.
    destruct (mergeFiles realm readFile onlyBase ∅ reqsFiles) as [[t|f|e] r];
      [done| |done].
    cbn [fst]. intros [= ->]. by apply (Hno file).
  - intros Hown. unfold getSubPackageTree.
    destruct (mergeFiles_own readFile onlyBase reqsFiles ∅ Hown) as (tree & ->).
    by exists tree.
Qed.

Lemma sub_package_tree_witness :
  ∃ tree,
    getSubPackageTree freshRealm None (fun _ => Some alembicText) true
    = (Fetch (tree, Some tree), freshRealm)
    ∧ bidirectional tree.
Proof.
  destruct (proj2 (proj2 (sub_package_tree (fun _ => Some alembicText) true false)))
    as (tree & H).
  - intros file _. exists alembicText. split; [done|]. unfold ownNames.
    assert (requirementLines alembicText = ["alembic==1.13.1"; "# via flask-migrate"])
      as -> by (vm_compute; reflexivity).
    repeat (apply Forall_cons_2; [vm_compute; reflexivity|]). apply Forall_nil_2.
  - exists tree. split; [exact H|].
    by destruct (proj1 (sub_package_tree (fun _ => Some alembicText) true false)
                   freshRealm tree (Some tree) freshRealm H) as (_ & _ & Hb & _).
Defined.


(** ** The tree of the message on the tree of the files *)

Section MessageTree.

Implicit Types (tree acc : gmap string Node) (library child depTree : string)
  (level fuel : nat) (files : list string).

Lemma forEachChild_stuck (visit : string → string → option (result string))
  depTree (children : list string) child :
  child ∈ children →
  (∀ d out, visit d child ≠ Some (Ok out)) →
  ∀ out, forEachChild visit depTree children ≠ Some (Ok out).
Proof.
  intros Hin Hstuck. revert depTree.
  induction children as [|c rest IH]; intros depTree out;
    [by apply elem_of_nil in Hin|].
  cbn [forEachChild].
  destruct (visit depTree c) as [[d|e]|] eqn:Hvisit; [|done|done].
  apply elem_of_cons in Hin as [<-|Hin]; [by destruct (Hstuck depTree d)|].
  by apply IH.
Qed.

Lemma recurseVias_stuck tree (onCycle : string → Prop) fuel depTree library level :
  (∀ A, onCycle A → ∃ B, B ∈ viasOr (tree !! A) ∧ onCycle B) →
  onCycle library →
  ∀ out, recurseVias fuel tree depTree library level ≠ Some (Ok out).
Proof.
  intros Hcycle. revert depTree library level.
  induction fuel as [|fuel IH]; intros depTree library level Hon out;
    cbn [recurseVias]; [done|].
  destruct (Hcycle library Hon) as (B & HB & HonB).
  destruct (tree !! library) as [n|]; [|done]. cbn in HB.
  destruct (vias n) as [vs|]; [|done]. cbn in HB.
  apply (forEachChild_stuck _ _ vs B HB). intros d out'. by apply IH.
Qed.

Lemma normalTree_wf tree : normalTree tree → wfTree tree.
Proof.
  intros Hn key n Hkey. destruct (Hn key n Hkey) as (ds & vs & -> & -> & _).
  by split; eexists.
Qed.

Lemma bidirectional_closed tree :
  bidirectional tree →
  ∀ A B : string, B ∈ viasOr (tree !! A) → is_Some (tree !! B).
Proof.
  intros Hbi A B HB. apply Hbi in HB.
  destruct (tree !! B); [done|]. by apply elem_of_nil in HB.
Qed.

End MessageTree.

(** X24.  On a tree with a cycle of [vias], which the parser builds from
    two packages that require each other, [recurseVias] returns no text:
    from a package on the cycle, or one that leads to it, the walk is not
    finished at any depth; and on a parsed or merged tree it does not end
    in a [TypeError] either. *)
Theorem recurse_vias_cycle (tree : gmap string Node) (onCycle : string → Prop)
  (library depTree : string) (level fuel : nat) :
  (∀ A, onCycle A → ∃ B, B ∈ viasOr (tree !! A) ∧ onCycle B) →
  onCycle library →
  (∀ out, recurseVias fuel tree depTree library level ≠ Some (Ok out))
  ∧ (wfTree tree → bidirectional tree →
     recurseVias fuel tree depTree library level = None).
Proof.
  intros Hcycle Hon.
  pose proof (recurseVias_stuck tree onCycle fuel depTree library level
                Hcycle Hon) as Hstuck.
  split; [exact Hstuck|]. intros Hwf Hbi.
  destruct (recurseVias fuel tree depTree library level) as [[out|e]|] eqn:Hrun;
    [by destruct (Hstuck out)| |done].
  destruct (Hcycle library Hon) as (B & HB & _).
  assert (is_Some (tree !! library)) as Hkey.
  { destruct (tree !! library); [done|]. by apply elem_of_nil in HB. }
  by destruct (recurseVias_no_throw tree fuel depTree library level e Hwf
                 (bidirectional_closed tree Hbi) Hkey).
Qed.

Lemma recurse_vias_cycle_witness :
  parsePinnedRequirementsTree freshRealm cyclicText = (Ok cyclicTree, freshRealm)
  ∧ ∀ fuel out, recurseVias fuel cyclicTree "" "a" 0 ≠ Some (Ok out).
Proof.
  split; [vm_compute; reflexivity|]. intros fuel.
  apply (recurse_vias_cycle cyclicTree (fun x => x = "a" ∨ x = "b") "a" "" 0 fuel).
  - intros A [-> | ->]; [exists "b"|exists "a"]; (split; [by left|auto]).
  - by left.
Defined.

(** X25.  On a tree that [getSubPackageTree] returns, drawing the tree
    of the message ends in a [TypeError] exactly for a name that is no key
    of the tree.  A pin with an extra gives such a name: the key keeps the
    extra, the package name taken from it does not. *)
Theorem message_tree_keys (realm realm' : Realm)
  (readFile : string → option string) (onlyBase : bool)
  (tree : gmap string Node) (kept : option (gmap string Node))
  (name : string) (fuel : nat) :
  getSubPackageTree realm None readFile onlyBase = (Fetch (tree, kept), realm') →
  recurseVias (S fuel) tree "" name 0 = Some (Throw TypeError)
  ↔ tree !! name = None.
Proof.
  unfold getSubPackageTree.
  destruct (mergeFiles realm readFile onlyBase ∅ reqsFiles) as [[t|f|e] r]
    eqn:Hmerge; [|done|done].
  intros [= <- _ _].
  destruct (mergeFiles_fetch realm readFile onlyBase reqsFiles ∅ t r Hmerge
              normalTree_empty bidirectional_empty) as [Hn Hb].
  split.
  - intros Hthrow. destruct (t !! name) as [n|] eqn:Hkey; [|done].
    by destruct (recurseVias_no_throw t (S fuel) "" name 0 TypeError
                   (normalTree_wf t Hn) (bidirectional_closed t Hb)
                   (mk_is_Some _ _ Hkey)).
  - intros Hkey. cbn [recurseVias]. by rewrite Hkey.
Qed.

Lemma message_tree_keys_witness :
  ∃ tree,
    getSubPackageTree freshRealm None (fun _ => Some extraText) true
    = (Fetch (tree, Some tree), freshRealm)
    ∧ Object_keys tree = ["uvicorn[standard]"]
    ∧ pythonPackageOf "uvicorn[standard]" = Ok "uvicorn"
    ∧ recurseVias 1 tree "" "uvicorn" 0 = Some (Throw TypeError).
Proof.
  exists {[ "uvicorn[standard]" := node (Str "0.23.2") [] [] ]}.
  assert (getSubPackageTree freshRealm None (fun _ => Some extraText) true
          = (Fetch ({[ "uvicorn[standard]" := node (Str "0.23.2") [] [] ]},
                    Some {[ "uvicorn[standard]" := node (Str "0.23.2") [] [] ]}),
             freshRealm))
    as Hget by (vm_compute; reflexivity).
  split; [exact Hget|]. split; [vm_compute; reflexivity|].
  split; [reflexivity|].
  apply (message_tree_keys freshRealm freshRealm (fun _ => Some extraText) true
           _ _ "uvicorn" 0 Hget).
  vm_compute. reflexivity.
Defined.
